(** * Batch orchestration engine of node-ai-services

    A shallow embedding of the batch lifecycle code:
      - models/batchTracker.ts, models/aiSummarries.ts   (documents)
      - services/audioGenerationService.ts               (dispatcher)
      - services/webhookServices.ts                      (ingress, evaluator)
      - controller/webhookController.ts                  (HTTP glue)
      - services/batchTimeoutService.ts                  (periodic sweep)

    Every [await]ed database call is one atomic action of a small
    resumption monad [Prog]; running a program to completion gives the
    behaviour of one handler without interleaving, and a pool of programs
    stepped by a schedule gives the interleavings of concurrent handlers. *)

From Stdlib Require Import List String Bool Arith NArith Lia Permutation.
Import ListNotations.
Open Scope string_scope.
Open Scope nat_scope.
Open Scope list_scope.

Set Implicit Arguments.

(** ** Documents *)

(** [IBatchTracker.status]. *)
Inductive Status : Type :=
| pending
| partial_complete
| complete
| audio_requested
| audio_complete
| audio_failed
| failed.

Definition Status_eqb (a b : Status) : bool :=
  match a, b with
  | pending, pending
  | partial_complete, partial_complete
  | complete, complete
  | audio_requested, audio_requested
  | audio_complete, audio_complete
  | audio_failed, audio_failed
  | failed, failed => true
  | _, _ => false
  end.

(** Dates are milliseconds on the process clock. *)
Definition Date := nat.

(** [IBatchTracker] (models/batchTracker.ts). *)
Record Batch : Type := mkBatch {
  batchId : string;
  expectedCount : nat;
  receivedCount : nat;
  status : Status;
  createdAt : Date;
  partialCompletedAt : option Date;
  completedAt : option Date;
  audioRequestedAt : option Date;
  audioCompletedAt : option Date;
  audioFailedAt : option Date;
  timeoutAt : Date;
  userIds : list string;
  audioUrl : option string;
  failureReason : option string
}.

(** A document of the AiSummaries collection (models/aiSummarries.ts);
    [_id] is the object id given by the store at creation. *)
Record Summary : Type := mkSummary {
  s_id : nat;
  s_userId : string;
  s_summary : string;
  s_summaryType : string;
  s_summaryTitle : string;
  s_batchId : option string;
  isAudioGenerated : bool;
  s_audioUrl : option string
}.

(** A document of the userMixes collection. *)
Record Mix : Type := mkMix {
  m_audioUrl : string;
  m_userId : string;
  mixName : string;
  mixIcon : string;
  mixType : string
}.

(** ** The stores and the process environment

    [faults] is the failure plan of the persistence layer: each fallible
    database call consumes its head, and fails without effect when that
    head is [true].  An empty plan means no call fails. *)
Record World : Type := mkWorld {
  batches : list Batch;
  summaries : list Summary;
  mixes : list Mix;
  clock : Date;
  nextId : nat;
  faults : list bool
}.

Definition set_batches (w : World) (bs : list Batch) : World :=
  mkWorld bs (summaries w) (mixes w) (clock w) (nextId w) (faults w).
Definition set_summaries (w : World) (ss : list Summary) : World :=
  mkWorld (batches w) ss (mixes w) (clock w) (nextId w) (faults w).
Definition set_mixes (w : World) (ms : list Mix) : World :=
  mkWorld (batches w) (summaries w) ms (clock w) (nextId w) (faults w).
Definition set_clock (w : World) (t : Date) : World :=
  mkWorld (batches w) (summaries w) (mixes w) t (nextId w) (faults w).
Definition set_nextId (w : World) (n : nat) : World :=
  mkWorld (batches w) (summaries w) (mixes w) (clock w) n (faults w).
Definition set_faults (w : World) (fs : list bool) : World :=
  mkWorld (batches w) (summaries w) (mixes w) (clock w) (nextId w) fs.

(** ** Queries and updates of the BatchTracker collection *)

(** The condition on [status] of a filter document. *)
Inductive StatusCond : Type :=
| AnyStatus                       (* no status key *)
| StatusIs (s : Status)           (* status: s *)
| StatusNe (s : Status)           (* status: { $ne: s } *)
| StatusIn (l : list Status).     (* status: { $in: l } *)

Definition status_in (s : Status) (l : list Status) : bool :=
  existsb (Status_eqb s) l.

Definition cond_holds (c : StatusCond) (s : Status) : bool :=
  match c with
  | AnyStatus => true
  | StatusIs s' => Status_eqb s s'
  | StatusNe s' => negb (Status_eqb s s')
  | StatusIn l => status_in s l
  end.

(** The filter [{ batchId, status: ... }] of [findOneAndUpdate]. *)
Record BFilter : Type := mkFilter {
  f_batchId : string;
  f_status : StatusCond
}.

Definition filter_match (f : BFilter) (b : Batch) : bool :=
  String.eqb (batchId b) (f_batchId f) && cond_holds (f_status f) (status b).

(** One key of an update document.  The [Stamp*] keys are the
    [new Date()] fields: they take the clock at the time of the call. *)
Inductive BSet : Type :=
| IncReceived
| SetReceived (n : nat)
| SetStatus (s : Status)
| StampPartialCompletedAt
| StampCompletedAt
| StampAudioRequestedAt
| StampAudioCompletedAt
| StampAudioFailedAt
| SetAudioUrl (u : string)
| SetFailureReason (r : string).

Definition apply_set (now : Date) (b : Batch) (u : BSet) : Batch :=
  match u with
  | IncReceived =>
      mkBatch (batchId b) (expectedCount b) (receivedCount b + 1) (status b)
        (createdAt b) (partialCompletedAt b) (completedAt b)
        (audioRequestedAt b) (audioCompletedAt b) (audioFailedAt b)
        (timeoutAt b) (userIds b) (audioUrl b) (failureReason b)
  | SetReceived n =>
      mkBatch (batchId b) (expectedCount b) n (status b)
        (createdAt b) (partialCompletedAt b) (completedAt b)
        (audioRequestedAt b) (audioCompletedAt b) (audioFailedAt b)
        (timeoutAt b) (userIds b) (audioUrl b) (failureReason b)
  | SetStatus s =>
      mkBatch (batchId b) (expectedCount b) (receivedCount b) s
        (createdAt b) (partialCompletedAt b) (completedAt b)
        (audioRequestedAt b) (audioCompletedAt b) (audioFailedAt b)
        (timeoutAt b) (userIds b) (audioUrl b) (failureReason b)
  | StampPartialCompletedAt =>
      mkBatch (batchId b) (expectedCount b) (receivedCount b) (status b)
        (createdAt b) (Some now) (completedAt b)
        (audioRequestedAt b) (audioCompletedAt b) (audioFailedAt b)
        (timeoutAt b) (userIds b) (audioUrl b) (failureReason b)
  | StampCompletedAt =>
      mkBatch (batchId b) (expectedCount b) (receivedCount b) (status b)
        (createdAt b) (partialCompletedAt b) (Some now)
        (audioRequestedAt b) (audioCompletedAt b) (audioFailedAt b)
        (timeoutAt b) (userIds b) (audioUrl b) (failureReason b)
  | StampAudioRequestedAt =>
      mkBatch (batchId b) (expectedCount b) (receivedCount b) (status b)
        (createdAt b) (partialCompletedAt b) (completedAt b)
        (Some now) (audioCompletedAt b) (audioFailedAt b)
        (timeoutAt b) (userIds b) (audioUrl b) (failureReason b)
  | StampAudioCompletedAt =>
      mkBatch (batchId b) (expectedCount b) (receivedCount b) (status b)
        (createdAt b) (partialCompletedAt b) (completedAt b)
        (audioRequestedAt b) (Some now) (audioFailedAt b)
        (timeoutAt b) (userIds b) (audioUrl b) (failureReason b)
  | StampAudioFailedAt =>
      mkBatch (batchId b) (expectedCount b) (receivedCount b) (status b)
        (createdAt b) (partialCompletedAt b) (completedAt b)
        (audioRequestedAt b) (audioCompletedAt b) (Some now)
        (timeoutAt b) (userIds b) (audioUrl b) (failureReason b)
  | SetAudioUrl u =>
      mkBatch (batchId b) (expectedCount b) (receivedCount b) (status b)
        (createdAt b) (partialCompletedAt b) (completedAt b)
        (audioRequestedAt b) (audioCompletedAt b) (audioFailedAt b)
        (timeoutAt b) (userIds b) (Some u) (failureReason b)
  | SetFailureReason r =>
      mkBatch (batchId b) (expectedCount b) (receivedCount b) (status b)
        (createdAt b) (partialCompletedAt b) (completedAt b)
        (audioRequestedAt b) (audioCompletedAt b) (audioFailedAt b)
        (timeoutAt b) (userIds b) (audioUrl b) (Some r)
  end.

Definition apply_update (now : Date) (u : list BSet) (b : Batch) : Batch :=
  fold_left (apply_set now) u b.

(** The first document of the collection that matches the filter. *)
Definition find_batch (f : BFilter) (bs : list Batch) : option Batch :=
  find (filter_match f) bs.

(** Replace the first document that matches the filter. *)
Fixpoint update_batch (f : BFilter) (g : Batch -> Batch) (bs : list Batch)
  : list Batch :=
  match bs with
  | [] => []
  | b :: rest =>
      if filter_match f b then g b :: rest
      else b :: update_batch f g rest
  end.

(** The three [BatchTracker.find] queries of the sweep. *)
Inductive BQuery : Type :=
| QTimedOut       (* timeoutAt <= now, status in [pending, partial_complete] *)
| QFailedEmpty    (* status: failed, receivedCount: 0 *)
| QPendingStarted (* status: pending, receivedCount > 0 *).

Definition query_match (now : Date) (q : BQuery) (b : Batch) : bool :=
  match q with
  | QTimedOut =>
      (timeoutAt b <=? now) && status_in (status b) [pending; partial_complete]
  | QFailedEmpty =>
      Status_eqb (status b) failed && (receivedCount b =? 0)
  | QPendingStarted =>
      Status_eqb (status b) pending && (0 <? receivedCount b)
  end.

(** ** Queries of the AiSummaries collection *)

Definition in_batch (bid : string) (s : Summary) : bool :=
  match s_batchId s with
  | Some b => String.eqb b bid
  | None => false
  end.

(** [countDocuments({ batchId })] and
    [countDocuments({ batchId, isAudioGenerated: true })]. *)
Definition count_summaries (bid : string) (withAudio : bool)
  (ss : list Summary) : nat :=
  List.length (filter (fun s => in_batch bid s &&
                           (if withAudio then isAudioGenerated s else true)) ss).

(** [find({ batchId, isAudioGenerated: { $ne: true } })]. *)
Definition summaries_without_audio (bid : string) (ss : list Summary)
  : list Summary :=
  filter (fun s => in_batch bid s && negb (isAudioGenerated s)) ss.

Definition mark_audio (url : string) (s : Summary) : Summary :=
  mkSummary (s_id s) (s_userId s) (s_summary s) (s_summaryType s)
    (s_summaryTitle s) (s_batchId s) true (Some url).

Definition summary_match (sid : nat) (uid : string) (s : Summary) : bool :=
  (s_id s =? sid) && String.eqb (s_userId s) uid.

Fixpoint update_summary (sid : nat) (uid : string) (url : string)
  (ss : list Summary) : list Summary :=
  match ss with
  | [] => []
  | s :: rest =>
      if summary_match sid uid s then mark_audio url s :: rest
      else s :: update_summary sid uid url rest
  end.

(** ** Observable effects *)

Inductive Level : Type := Info | Warn | Error.

(** A line given to [logger]: the level, the message template of the
    source and the batch or summary it is about. *)
Record LogLine : Type := mkLog {
  lvl : Level;
  text : string;
  about : string
}.

(** The body posted to [/generate-audio] for one summary. *)
Record AudioRequest : Type := mkRequest {
  r_batchId : string;
  r_summaryId : nat;
  r_userId : string;
  r_summary : string;
  r_summaryType : string;
  r_summaryTitle : string;
  r_timestamp : Date
}.

(** What a handler does that an observer can see: a write of the
    [status] key of a batch (with the status it replaces), a log line, a
    request sent to the audio worker. *)
Inductive Event : Type :=
| EvStatus (bid : string) (old new : Status)
| EvLog (l : LogLine)
| EvPost (r : AudioRequest).

Inductive Err : Type :=
| DbFailure
| ValidationFailed
| SummaryNotFound (sid : nat) (uid : string).

Inductive Res (X : Type) : Type :=
| Ok (x : X)
| Fail (e : Err).
Arguments Fail {X} e.

(** ** Atomic actions: the calls a handler awaits *)

Inductive Op : Type -> Type :=
| BT_findOneAndUpdate (f : BFilter) (u : list BSet) (returnNew : bool)
    : Op (option Batch)
| BT_findOne (bid : string) : Op (option Batch)
| BT_find (q : BQuery) : Op (list Batch)
| BT_aggregate : Op (list (Status * nat))
| AS_insertOne (summary uid summaryType summaryTitle : string)
    (bid : option string) : Op Summary   (* the insert sent by create *)
| AS_countDocuments (bid : string) (withAudio : bool) : Op nat
| AS_find (bid : string) : Op (list Summary)
| AS_findOneAndUpdate (sid : nat) (uid url : string) : Op (option Summary)
| UM_insertOne (m : Mix) : Op Mix          (* the insert sent by create *)
| NowOp : Op Date
| LogOp (l : LogLine) : Op unit
| PostOp (summary : Summary) (bid : string) : Op unit
| DelayOp (ms : nat) : Op unit.

Definition fallible {X} (op : Op X) : bool :=
  match op with
  | NowOp | LogOp _ | PostOp _ _ | DelayOp _ => false
  | _ => true
  end.

Definition sets_status (u : list BSet) : bool :=
  existsb (fun k => match k with SetStatus _ => true | _ => false end) u.

(** Groups of the [$group] stage of getBatchStatistics, sorted by status
    name as [$sort: { _id: 1 }] does; the average completion rate of a
    group is left out. *)
Definition status_groups (bs : list Batch) : list (Status * nat) :=
  filter (fun g => 0 <? snd g)
    (map (fun s => (s, List.length (filter (fun b => Status_eqb (status b) s) bs)))
       [audio_complete; audio_failed; audio_requested; complete; failed;
        partial_complete; pending]).

(** The effect of an action that does not fail.  The two inserts are
    sent by [create] only for a document that has passed the validators
    of its schema (see [AiSummaries.create] and [UserMixes.create]). *)
Definition perform {X} (op : Op X) (w : World) : X * World * list Event :=
  match op in Op X return X * World * list Event with
  | BT_findOneAndUpdate f u returnNew =>
      match find_batch f (batches w) with
      | None => (None, w, [])
      | Some b =>
          let b' := apply_update (clock w) u b in
          (Some (if returnNew then b' else b),
           set_batches w (update_batch f (apply_update (clock w) u) (batches w)),
           if sets_status u then [EvStatus (batchId b) (status b) (status b')]
           else [])
      end
  | BT_findOne bid =>
      (find_batch (mkFilter bid AnyStatus) (batches w), w, [])
  | BT_find q =>
      (filter (query_match (clock w) q) (batches w), w, [])
  | BT_aggregate =>
      (status_groups (batches w), w, [])
  | AS_insertOne summary uid summaryType summaryTitle bid =>
      let s := mkSummary (nextId w) uid summary summaryType summaryTitle bid
                 false None in
      (s, set_nextId (set_summaries w (summaries w ++ [s])) (S (nextId w)), [])
  | AS_countDocuments bid withAudio =>
      (count_summaries bid withAudio (summaries w), w, [])
  | AS_find bid =>
      (summaries_without_audio bid (summaries w), w, [])
  | AS_findOneAndUpdate sid uid url =>
      match find (summary_match sid uid) (summaries w) with
      | None => (None, w, [])
      | Some s =>
          (Some (mark_audio url s),
           set_summaries w (update_summary sid uid url (summaries w)), [])
      end
  | UM_insertOne m =>
      (m, set_mixes w (mixes w ++ [m]), [])
  | NowOp => (clock w, w, [])
  | LogOp l => (tt, w, [EvLog l])
  | PostOp s bid =>
      (tt, w,
       [EvPost (mkRequest bid (s_id s) (s_userId s) (s_summary s)
                  (s_summaryType s) (s_summaryTitle s) (clock w))])
  | DelayOp ms => (tt, set_clock w (clock w + ms), [])
  end.

(** One action against the world, under the failure plan. *)
Definition exec {X} (op : Op X) (w : World) : Res X * World * list Event :=
  if fallible op then
    match faults w with
    | true :: fs => (Fail DbFailure, set_faults w fs, [])
    | false :: fs =>
        let '(x, w', ev) := perform op (set_faults w fs) in (Ok x, w', ev)
    | [] =>
        let '(x, w', ev) := perform op w in (Ok x, w', ev)
    end
  else
    let '(x, w', ev) := perform op w in (Ok x, w', ev).

(** ** Programs: async functions as trees of atomic actions *)

Inductive Prog (A : Type) : Type :=
| Ret (a : A)
| Throw (e : Err)
| Act (X : Type) (op : Op X) (k : Res X -> Prog A).
Arguments Ret {A} a.
Arguments Throw {A} e.
Arguments Act {A X} op k.

Fixpoint bind {A B} (p : Prog A) (f : A -> Prog B) : Prog B :=
  match p with
  | Ret a => f a
  | Throw e => Throw e
  | Act op k => Act op (fun r => bind (k r) f)
  end.

(** [try { p } catch (e) { h e }]. *)
Fixpoint try_catch {A} (p : Prog A) (h : Err -> Prog A) : Prog A :=
  match p with
  | Ret a => Ret a
  | Throw e => h e
  | Act op k => Act op (fun r => try_catch (k r) h)
  end.

(** [await op]: a failed call throws. *)
Definition await {X} (op : Op X) : Prog X :=
  Act op (fun r => match r with Ok x => Ret x | Fail e => Throw e end).

Declare Scope prog_scope.
Delimit Scope prog_scope with prog.
Notation "x <- p ;; q" := (bind p (fun x => q))
  (at level 100, p at next level, right associativity) : prog_scope.
Notation "p ;; q" := (bind p (fun _ => q))
  (at level 100, right associativity) : prog_scope.
Notation "'try' p 'catch' h" := (try_catch p h)
  (at level 100, p at next level, h at next level) : prog_scope.
Open Scope prog_scope.

Definition log (l : Level) (msg about : string) : Prog unit :=
  await (LogOp (mkLog l msg about)).

Definition when (c : bool) (p : Prog unit) : Prog unit :=
  if c then p else Ret tt.

(** [for (const x of l) { await f x }]. *)
Fixpoint forEach {X} (l : list X) (f : X -> Prog unit) : Prog unit :=
  match l with
  | [] => Ret tt
  | x :: rest => f x ;; forEach rest f
  end.

(** ** models/aiSummarries.ts and models/userMixes.ts

    [Model.create(doc)] first runs the validators of the schema, in the
    process, and throws a ValidationError without calling the store when
    one of them fails; a document that passes is inserted. *)

Definition nonempty (s : string) : bool := negb (String.eqb s "").

Module AiSummaries.

(** [summary], [userId] and [summaryTitle] are required (a required
    string must not be empty); [summaryType] is required and one of the
    enum values. *)
Definition validate (summary uid summaryType summaryTitle : string) : bool :=
  nonempty summary && nonempty uid && nonempty summaryTitle
  && (String.eqb summaryType "user" || String.eqb summaryType "category").

Definition create (summary uid summaryType summaryTitle : string)
  (bid : option string) : Prog Summary :=
  if validate summary uid summaryType summaryTitle then
    await (AS_insertOne summary uid summaryType summaryTitle bid)
  else Throw ValidationFailed.

End AiSummaries.

Module UserMixes.

(** [userId], [audioUrl] and [mixName] are required; [mixType] is one of
    the enum values; [mixIcon] is free. *)
Definition validate (m : Mix) : bool :=
  nonempty (m_userId m) && nonempty (m_audioUrl m) && nonempty (mixName m)
  && existsb (String.eqb (mixType m)) ["morning"; "afternoon"; "evening"; "night"].

Definition create (m : Mix) : Prog Mix :=
  if validate m then await (UM_insertOne m) else Throw ValidationFailed.

End UserMixes.

(** The outcome of running a program to completion. *)
Record Outcome (A : Type) : Type := mkOutcome {
  result : Res A;
  world : World;
  events : list Event
}.

(** The events of what ran before, put in front of an outcome. *)
Definition prepend {A} (ev : list Event) (o : Outcome A) : Outcome A :=
  mkOutcome (result o) (world o) (ev ++ events o).

Fixpoint run {A} (p : Prog A) (w : World) : Outcome A :=
  match p with
  | Ret a => mkOutcome (Ok a) w []
  | Throw e => mkOutcome (Fail e) w []
  | Act op k =>
      let '(r, w1, ev1) := exec op w in
      prepend ev1 (run (k r) w1)
  end.

Definition truthy (s : option string) : bool :=
  match s with
  | Some x => negb (String.eqb x "")
  | None => false
  end.

(** [(receivedCount / expectedCount) * 100 >= 50].  The source computes
    it on doubles; for counts in the safe integer range the comparison
    agrees with the exact one.  A zero [expectedCount] gives [Infinity]
    ([NaN] for 0/0, which compares false). *)
Definition reached_half (received expected : nat) : bool :=
  if expected =? 0 then 0 <? received else expected <=? 2 * received.

(** ** services/audioGenerationService.ts *)

Module AudioGenerationService.

(** The request is fired and not awaited; what its promise logs later
    depends on the worker's answer and is not part of this call. *)
Definition sendIndividualSummaryForAudio (summary : Summary) (bid : string)
  : Prog unit :=
  await (PostOp summary bid).

Definition delay (ms : nat) : Prog unit := await (DelayOp ms).

(** The body of [for (let i = 0; i < summaries.length; i++)]. *)
Fixpoint sendLoop (l : list Summary) (bid : string) : Prog unit :=
  match l with
  | [] => Ret tt
  | summary :: rest =>
      sendIndividualSummaryForAudio summary bid ;;
      when (negb (List.length rest =? 0)) (delay 1000) ;;
      sendLoop rest bid
  end.

Definition audio_already_processed (b : option Batch) : bool :=
  match b with
  | Some bs => status_in (status bs) [audio_requested; audio_complete; audio_failed]
  | None => false
  end.

Definition triggerAudioGeneration (bid : string) : Prog unit :=
  try (
    log Info "Triggering audio generation for batch: ${batchId}" bid ;;
    batchStatus <- await (BT_findOne bid) ;;
    if audio_already_processed batchStatus then
      log Warn "Audio already processed for batch ${batchId}, skipping" bid
    else (
      summaries <- await (AS_find bid) ;;
      if List.length summaries =? 0 then
        log Warn "No summaries without audio found for batch: ${batchId}" bid
      else (
        totalSummaries <- await (AS_countDocuments bid false) ;;
        let summariesWithAudio := totalSummaries - List.length summaries in
        when (0 <? summariesWithAudio)
          (log Info "Batch ${batchId}: summaries already have audio, processing remaining summaries" bid) ;;
        log Info "Found summaries without audio for batch ${batchId}. Sending individually with delays." bid ;;
        sendLoop summaries bid ;;
        log Info "All audio generation requests sent for batch: ${batchId}" bid)))
  catch (fun error =>
    log Error "Error triggering audio generation for batch ${batchId}" bid ;;
    Throw error).

End AudioGenerationService.

(** ** services/webhookServices.ts *)

Module WebhookServices.

Import AudioGenerationService.

Definition getMixInfoByTimeOfDay : Prog (string * string) :=
  now <- await NowOp ;;
  let hours := N.to_nat ((N.of_nat now / 3600000) mod 24) in
  Ret (
  if (5 <=? hours) && (hours <? 12) then ("Your Morning Mix", "morning")
  else if (12 <=? hours) && (hours <? 18) then ("Your Afternoon Mix", "afternoon")
  else if (18 <=? hours) && (hours <? 23) then ("Your Evening Mix", "evening")
  else ("Your Night Mix", "night")).

Definition checkBatchAudioCompletion (bid : string) : Prog unit :=
  try (
    batch <- await (BT_findOne bid) ;;
    match batch with
    | None => log Warn "Batch not found: ${batchId}" bid
    | Some _ =>
        totalSummaries <- await (AS_countDocuments bid false) ;;
        summariesWithAudio <- await (AS_countDocuments bid true) ;;
        log Info "Batch ${batchId} audio progress" bid ;;
        when ((totalSummaries <=? summariesWithAudio) && (0 <? totalSummaries)) (
          await (BT_findOneAndUpdate (mkFilter bid (StatusNe audio_complete))
                   [SetStatus audio_complete; StampAudioCompletedAt] false) ;;
          log Info "All summaries in batch ${batchId} have audio generated, marked batch as audio_complete" bid)
    end)
  catch (fun _ =>
    log Error "Error checking batch audio completion for ${batchId}" bid).

Definition handlePartialCompletion (bid : string) (batchTracker : Batch)
  : Prog unit :=
  try (
    log Info "Batch ${batchId} reached 50% completion, triggering partial audio generation" bid ;;
    updatedBatch <- await (BT_findOneAndUpdate (mkFilter bid (StatusIs pending))
                             [SetStatus partial_complete; StampPartialCompletedAt] true) ;;
    match updatedBatch with
    | None =>
        log Info "Batch ${batchId} was already updated by another process, skipping partial completion" bid
    | Some _ =>
        triggerAudioGeneration bid ;;
        await (BT_findOneAndUpdate (mkFilter bid AnyStatus)
                 [SetStatus audio_requested; StampAudioRequestedAt] false) ;;
        Ret tt
    end)
  catch (fun _ =>
    log Error "Error handling partial completion for batch ${batchId}" bid).

Definition handleFullCompletion (bid : string) (batchTracker : Batch)
  : Prog unit :=
  try (
    log Info "Batch ${batchId} fully completed, checking if audio generation is needed" bid ;;
    if Status_eqb (status batchTracker) partial_complete then (
      await (BT_findOneAndUpdate (mkFilter bid (StatusIs partial_complete))
               [SetStatus complete; StampCompletedAt] false) ;;
      log Info "Audio already requested for batch ${batchId} at 50% completion, batch now fully complete" bid)
    else (
      updatedBatch <- await (BT_findOneAndUpdate (mkFilter bid (StatusIs pending))
                               [SetStatus complete; StampCompletedAt] true) ;;
      match updatedBatch with
      | None =>
          log Info "Batch ${batchId} was already updated by another process, skipping full completion" bid
      | Some _ =>
          triggerAudioGeneration bid ;;
          await (BT_findOneAndUpdate (mkFilter bid AnyStatus)
                   [SetStatus audio_requested; StampAudioRequestedAt] false) ;;
          Ret tt
      end))
  catch (fun _ =>
    log Error "Error handling full completion for batch ${batchId}" bid).

(** What checkBatchCompletion does once it holds the incremented tracker
    and the count of summaries with audio. *)
Definition evaluate (bid : string) (batchTracker : Batch)
  (summariesWithAudio : nat) : Prog unit :=
  when (reached_half (receivedCount batchTracker) (expectedCount batchTracker)
        && Status_eqb (status batchTracker) pending)
    (handlePartialCompletion bid batchTracker) ;;
  when ((expectedCount batchTracker <=? receivedCount batchTracker)
        && status_in (status batchTracker) [pending; partial_complete])
    (handleFullCompletion bid batchTracker) ;;
  when ((receivedCount batchTracker <=? summariesWithAudio)
        && (0 <? receivedCount batchTracker))
    (checkBatchAudioCompletion bid).

(** checkBatchCompletion after the [$inc] returned [batchTracker]. *)
Definition afterIncrement (bid : string) (batchTracker : Batch) : Prog unit :=
  log Info "Batch ${batchId}: ${receivedCount}/${expectedCount} received" bid ;;
  summariesWithAudio <- await (AS_countDocuments bid true) ;;
  evaluate bid batchTracker summariesWithAudio.

Definition checkBatchCompletion_handler (bid : string) (_ : Err) : Prog unit :=
  log Error "Error checking batch completion for ${batchId}" bid.

Definition checkBatchCompletion (bid : string) : Prog unit :=
  try (
    batchTracker <- await (BT_findOneAndUpdate (mkFilter bid AnyStatus)
                             [IncReceived] true) ;;
    match batchTracker with
    | None => log Warn "Batch tracker not found for batchId: ${batchId}" bid
    | Some bt => afterIncrement bid bt
    end)
  catch (checkBatchCompletion_handler bid).

Definition saveSummary (summary uid summaryType summaryTitle : string)
  (bid : option string) : Prog Summary :=
  try (
    newSummary <- AiSummaries.create summary uid summaryType summaryTitle bid ;;
    when (truthy bid)
      (checkBatchCompletion (match bid with Some b => b | None => "" end)) ;;
    Ret newSummary)
  catch (fun error =>
    log Error "Error in handleSummaryWebhook:" "" ;;
    Throw error).

Definition google_logo : string :=
  "https://www.google.com/images/branding/googlelogo/1x/googlelogo_color_272x92dp.png".

Definition handleSummaryAudioGenerationSuccess (url uid : string)
  (summaryId : nat) (bid : option string) : Prog (Mix * Summary) :=
  try (
    log Info "Audio generation successful for summary ${summaryId}, user ${userId}" uid ;;
    updatedSummary <- await (AS_findOneAndUpdate summaryId uid url) ;;
    match updatedSummary with
    | None => Throw (SummaryNotFound summaryId uid)
    | Some updated =>
        info <- getMixInfoByTimeOfDay ;;
        let '(name, type) := info in
        audioMix <- UserMixes.create (mkMix url uid name google_logo type) ;;
        when (truthy bid)
          (checkBatchAudioCompletion (match bid with Some b => b | None => "" end)) ;;
        log Info "Audio generation completed successfully for summary ${summaryId}" uid ;;
        Ret (audioMix, updated)
    end)
  catch (fun error =>
    log Error "Error handling successful audio generation for summary ${summaryId}" uid ;;
    Throw error).

(** Deprecated batch-level success handler. *)
Definition handleAudioGenerationSuccess (url uid bid : string)
  : Prog Mix :=
  try (
    log Info "Audio generation successful for batch ${batchId}, saving audio URL" bid ;;
    info <- getMixInfoByTimeOfDay ;;
    let '(name, type) := info in
    audioMix <- UserMixes.create (mkMix url uid name google_logo type) ;;
    await (BT_findOneAndUpdate (mkFilter bid AnyStatus)
             [SetStatus audio_complete; StampAudioCompletedAt; SetAudioUrl url]
             false) ;;
    log Info "Audio generation completed successfully for batch ${batchId}" bid ;;
    Ret audioMix)
  catch (fun error =>
    log Error "Error handling successful audio generation for batch ${batchId}" bid ;;
    Throw error).

Definition handleAudioGenerationFailure (bid errorMessage uid : string)
  : Prog unit :=
  try (
    log Error "Audio generation failed permanently for batch ${batchId}: ${errorMessage}" bid ;;
    await (BT_findOneAndUpdate (mkFilter bid AnyStatus)
             [SetStatus audio_failed; StampAudioFailedAt;
              SetFailureReason errorMessage] false) ;;
    log Info "Batch ${batchId} marked as audio_failed in database" bid)
  catch (fun error =>
    log Error "Error handling audio generation failure for batch ${batchId}" bid ;;
    Throw error).

End WebhookServices.

(** ** controller/webhookController.ts *)

Module WebhookController.

(** What [res.status(code).json(body)] answers. *)
Inductive Body : Type :=
| SummaryReceived (newSummary : Summary)
| SummaryAudioCompleted (audioMix : Mix) (summary : Summary)
| AudioCompleted (audioMix : Mix)
| FailureProcessed (bid : string)
| Message (msg : string)
| Failed (msg : string) (error : Err).

Record Response : Type := mkResponse {
  code : nat;
  body : Body
}.

(** [req.body] of POST /summary, its four text fields given as strings
    (a body that leaves one of them out is not represented). *)
Record SummaryRequest : Type := mkSummaryRequest {
  q_summary : string;
  q_userId : string;
  q_summaryType : string;
  q_summaryTitle : string;
  q_batchId : option string
}.

(** [req.body] of POST /save-audio-url. *)
Record SaveAudioRequest : Type := mkSaveAudioRequest {
  a_audioUrl : option string;
  a_userId : option string;
  a_batchId : option string;
  a_summaryId : option nat
}.

(** [req.body] of POST /audio-generation-failure. *)
Record FailureRequest : Type := mkFailureRequest {
  x_batchId : option string;
  x_errorMessage : option string;
  x_userId : option string
}.

Definition str (s : option string) : string :=
  match s with Some x => x | None => "" end.

Definition handleSummaryWebhook (req : SummaryRequest) : Prog Response :=
  try (
    newSummary <- WebhookServices.saveSummary (q_summary req) (q_userId req)
                    (q_summaryType req) (q_summaryTitle req) (q_batchId req) ;;
    Ret (mkResponse 200 (SummaryReceived newSummary)))
  catch (fun error =>
    log Error "Error in handleSummaryWebhook: ${error}" "" ;;
    Ret (mkResponse 500 (Failed "Error in handleSummaryWebhook" error))).

Definition handleSaveAudioUrl (req : SaveAudioRequest) : Prog Response :=
  try (
    if negb (truthy (a_audioUrl req)) || negb (truthy (a_userId req)) then
      Ret (mkResponse 400
             (Message "Missing required fields: audioUrl and userId are required"))
    else
      match a_summaryId req with
      | Some summaryId =>
          r <- WebhookServices.handleSummaryAudioGenerationSuccess
                 (str (a_audioUrl req)) (str (a_userId req)) summaryId
                 (a_batchId req) ;;
          Ret (mkResponse 200 (SummaryAudioCompleted (fst r) (snd r)))
      | None =>
          if truthy (a_batchId req) then
            audioMix <- WebhookServices.handleAudioGenerationSuccess
                          (str (a_audioUrl req)) (str (a_userId req))
                          (str (a_batchId req)) ;;
            Ret (mkResponse 200 (AudioCompleted audioMix))
          else
            Ret (mkResponse 400
                   (Message "Either summaryId or batchId must be provided"))
      end)
  catch (fun error =>
    log Error "Error in handleSaveAudioUrl: ${error}" "" ;;
    Ret (mkResponse 500 (Failed "Error in handleSaveAudioUrl" error))).

Definition handleAudioGenerationFailure (req : FailureRequest) : Prog Response :=
  try (
    if negb (truthy (x_batchId req)) || negb (truthy (x_errorMessage req))
       || negb (truthy (x_userId req)) then
      Ret (mkResponse 400
             (Message "Missing required fields: batchId, errorMessage, and userId are required"))
    else (
      WebhookServices.handleAudioGenerationFailure (str (x_batchId req))
        (str (x_errorMessage req)) (str (x_userId req)) ;;
      Ret (mkResponse 200 (FailureProcessed (str (x_batchId req))))))
  catch (fun error =>
    log Error "Error in handleAudioGenerationFailure: ${error}" "" ;;
    Ret (mkResponse 500 (Failed "Error in handleAudioGenerationFailure" error))).

End WebhookController.

(** ** services/batchTimeoutService.ts *)

Module BatchTimeoutService.

Import AudioGenerationService.

Definition recoverFailedBatch (batch : Batch) (summaryCount : nat)
  : Prog unit :=
  try (
    if negb (Status_eqb (status batch) failed) then
      log Info "Batch ${batch.batchId} is no longer in failed status, skipping recovery" (batchId batch)
    else (
      summariesWithAudio <- await (AS_countDocuments (batchId batch) true) ;;
      let summariesNeedingAudio := summaryCount - summariesWithAudio in
      log Info "Recovering batch ${batch.batchId}" (batchId batch) ;;
      updatedBatch <- await (BT_findOneAndUpdate
                               (mkFilter (batchId batch) (StatusIs failed))
                               [SetReceived summaryCount; SetStatus complete;
                                StampCompletedAt] true) ;;
      match updatedBatch with
      | None =>
          log Info "Batch ${batch.batchId} was already updated by another process, skipping recovery" (batchId batch)
      | Some _ =>
          if 0 <? summariesNeedingAudio then (
            triggerAudioGeneration (batchId batch) ;;
            await (BT_findOneAndUpdate (mkFilter (batchId batch) AnyStatus)
                     [SetStatus audio_requested; StampAudioRequestedAt] false) ;;
            log Info "Recovered failed batch ${batch.batchId} and triggered audio generation" (batchId batch))
          else (
            await (BT_findOneAndUpdate (mkFilter (batchId batch) AnyStatus)
                     [SetStatus audio_complete; StampAudioCompletedAt] false) ;;
            log Info "Recovered failed batch ${batch.batchId} - all summaries already have audio, marked as audio_complete" (batchId batch))
      end))
  catch (fun _ =>
    log Error "Error recovering failed batch ${batch.batchId}" (batchId batch)).

Definition handleTimeoutBatch (batch : Batch) : Prog unit :=
  try (
    if negb (status_in (status batch) [pending; partial_complete]) then
      log Info "Batch ${batch.batchId} already processed, skipping" (batchId batch)
    else (
      actualSummaryCount <- await (AS_countDocuments (batchId batch) false) ;;
      summariesWithAudio <- await (AS_countDocuments (batchId batch) true) ;;
      log Warn "Batch ${batch.batchId} timed out after 30 minutes" (batchId batch) ;;
      when (negb (actualSummaryCount =? receivedCount batch)) (
        await (BT_findOneAndUpdate (mkFilter (batchId batch) AnyStatus)
                 [SetReceived actualSummaryCount] false) ;;
        Ret tt) ;;
      if 0 <? actualSummaryCount then (
        let summariesNeedingAudio := actualSummaryCount - summariesWithAudio in
        if Status_eqb (status batch) pending then (
          updatedBatch <- await (BT_findOneAndUpdate
                                   (mkFilter (batchId batch) (StatusIs pending))
                                   [SetStatus complete; StampCompletedAt] true) ;;
          match updatedBatch with
          | None =>
              log Info "Batch ${batch.batchId} was already updated by another process, skipping audio trigger" (batchId batch)
          | Some _ =>
              if 0 <? summariesNeedingAudio then (
                triggerAudioGeneration (batchId batch) ;;
                await (BT_findOneAndUpdate (mkFilter (batchId batch) AnyStatus)
                         [SetStatus audio_requested; StampAudioRequestedAt]
                         false) ;;
                log Info "Triggered audio generation for timed-out batch ${batch.batchId}" (batchId batch))
              else (
                await (BT_findOneAndUpdate (mkFilter (batchId batch) AnyStatus)
                         [SetStatus audio_complete; StampAudioCompletedAt]
                         false) ;;
                log Info "All summaries in timed-out batch ${batch.batchId} already have audio, marked as audio_complete" (batchId batch))
          end)
        else if Status_eqb (status batch) partial_complete then (
          await (BT_findOneAndUpdate
                   (mkFilter (batchId batch) (StatusIs partial_complete))
                   [SetStatus complete; StampCompletedAt] false) ;;
          log Info "Batch ${batch.batchId} was already partially processed, marked as complete" (batchId batch))
        else Ret tt)
      else (
        updatedBatch <- await (BT_findOneAndUpdate
                                 (mkFilter (batchId batch)
                                    (StatusIn [pending; partial_complete]))
                                 [SetStatus failed; StampCompletedAt] true) ;;
        match updatedBatch with
        | Some _ =>
            log Error "Batch ${batch.batchId} failed - no summaries found within timeout period" (batchId batch)
        | None => Ret tt
        end)))
  catch (fun _ =>
    log Error "Error handling timeout for batch ${batch.batchId}" (batchId batch)).

Definition triggerPartialCompletion (batch : Batch) : Prog unit :=
  try (
    if negb (Status_eqb (status batch) pending) then
      log Info "Batch ${batch.batchId} is no longer pending, skipping partial completion" (batchId batch)
    else (
      updatedBatch <- await (BT_findOneAndUpdate
                               (mkFilter (batchId batch) (StatusIs pending))
                               [SetStatus partial_complete;
                                StampPartialCompletedAt] true) ;;
      match updatedBatch with
      | None =>
          log Info "Batch ${batch.batchId} was already updated by another process, skipping partial completion" (batchId batch)
      | Some _ =>
          triggerAudioGeneration (batchId batch) ;;
          await (BT_findOneAndUpdate (mkFilter (batchId batch) AnyStatus)
                   [SetStatus audio_requested; StampAudioRequestedAt] false) ;;
          log Info "Triggered audio generation for partial completion of batch ${batch.batchId}" (batchId batch)
      end))
  catch (fun _ =>
    log Error "Error triggering partial completion for batch ${batch.batchId}" (batchId batch)).

Definition processTimeoutBatches : Prog unit :=
  try (
    timedOutBatches <- await (BT_find QTimedOut) ;;
    log Info "Found ${timedOutBatches.length} timed-out batches to process" "" ;;
    forEach timedOutBatches handleTimeoutBatch)
  catch (fun _ => log Error "Error processing timeout batches:" "").

(** The body of the loop of processOrphanedSummaries. *)
Definition checkOrphaned (batch : Batch) : Prog unit :=
  summaryCount <- await (AS_countDocuments (batchId batch) false) ;;
  when (0 <? summaryCount) (
    log Info "Found orphaned summaries for failed batch ${batch.batchId}, recovering..." (batchId batch) ;;
    recoverFailedBatch batch summaryCount).

Definition processOrphanedSummaries : Prog unit :=
  try (
    failedBatches <- await (BT_find QFailedEmpty) ;;
    log Info "Checking ${failedBatches.length} failed batches for orphaned summaries" "" ;;
    forEach failedBatches checkOrphaned)
  catch (fun _ => log Error "Error processing orphaned summaries:" "").

(** The body of the loop of checkPartialCompletionBatches. *)
Definition checkPartial (batch : Batch) : Prog unit :=
  when (reached_half (receivedCount batch) (expectedCount batch)) (
    log Info "Batch ${batch.batchId} has reached 50% completion, triggering audio generation" (batchId batch) ;;
    triggerPartialCompletion batch).

Definition checkPartialCompletionBatches : Prog unit :=
  try (
    pendingBatches <- await (BT_find QPendingStarted) ;;
    log Info "Checking ${pendingBatches.length} pending batches for partial completion" "" ;;
    forEach pendingBatches checkPartial)
  catch (fun _ => log Error "Error checking partial completion batches:" "").

Definition getBatchStatistics : Prog (list (Status * nat)) :=
  try (await BT_aggregate)
  catch (fun _ =>
    log Error "Error getting batch statistics:" "" ;;
    Ret []).

Definition runPeriodicMaintenance : Prog unit :=
  try (
    log Info "Starting batch timeout maintenance task" "" ;;
    processTimeoutBatches ;;
    processOrphanedSummaries ;;
    checkPartialCompletionBatches ;;
    stats <- getBatchStatistics ;;
    log Info "Batch statistics:" "" ;;
    log Info "Completed batch timeout maintenance task" "")
  catch (fun _ => log Error "Error in periodic maintenance:" "").

End BatchTimeoutService.

(** * Reasoning about programs *)

Unset Implicit Arguments.

(** ** Running composed programs *)

(** Sequencing of outcomes: what [bind] does to a run. *)
Definition andThen {A B} (o : Outcome A) (f : A -> World -> Outcome B)
  : Outcome B :=
  match result o with
  | Ok a => prepend (events o) (f a (world o))
  | Fail e => mkOutcome (Fail e) (world o) (events o)
  end.

(** Recovery of outcomes: what [try_catch] does to a run. *)
Definition orElse {A} (o : Outcome A) (h : Err -> World -> Outcome A)
  : Outcome A :=
  match result o with
  | Ok a => o
  | Fail e => prepend (events o) (h e (world o))
  end.

Lemma outcome_eta {A} (o : Outcome A) :
  mkOutcome (result o) (world o) (events o) = o.
Proof. destruct o; reflexivity. Qed.

Lemma prepend_nil {A} (o : Outcome A) : prepend [] o = o.
Proof. unfold prepend. simpl. apply outcome_eta. Qed.

Lemma prepend_prepend {A} (e1 e2 : list Event) (o : Outcome A) :
  prepend e1 (prepend e2 o) = prepend (e1 ++ e2) o.
Proof. unfold prepend. simpl. rewrite app_assoc. reflexivity. Qed.

Lemma prepend_lit {A} (ev : list Event) (r : Res A) (w : World)
  (ev' : list Event) :
  prepend ev (mkOutcome r w ev') = mkOutcome r w (ev ++ ev').
Proof. reflexivity. Qed.

Lemma andThen_ok {A B} (a : A) (w : World) (ev : list Event)
  (f : A -> World -> Outcome B) :
  andThen (mkOutcome (Ok a) w ev) f = prepend ev (f a w).
Proof. reflexivity. Qed.

Lemma andThen_fail {A B} (e : Err) (w : World) (ev : list Event)
  (f : A -> World -> Outcome B) :
  andThen (mkOutcome (Fail e) w ev) f = mkOutcome (Fail e) w ev.
Proof. reflexivity. Qed.

Lemma orElse_ok {A} (a : A) (w : World) (ev : list Event)
  (h : Err -> World -> Outcome A) :
  orElse (mkOutcome (Ok a) w ev) h = mkOutcome (Ok a) w ev.
Proof. reflexivity. Qed.

Lemma orElse_fail {A} (e : Err) (w : World) (ev : list Event)
  (h : Err -> World -> Outcome A) :
  orElse (mkOutcome (Fail e) w ev) h = prepend ev (h e w).
Proof. reflexivity. Qed.

Lemma run_Ret {A} (a : A) (w : World) : run (Ret a) w = mkOutcome (Ok a) w [].
Proof. reflexivity. Qed.

Lemma run_Throw {A} (e : Err) (w : World) :
  run (@Throw A e) w = mkOutcome (Fail e) w [].
Proof. reflexivity. Qed.

Lemma run_Act {A X} (op : Op X) (k : Res X -> Prog A) (w : World) :
  run (Act op k) w =
  prepend (snd (exec op w))
    (run (k (fst (fst (exec op w)))) (snd (fst (exec op w)))).
Proof. simpl. destruct (exec op w) as [[r w1] ev1]. reflexivity. Qed.

Lemma run_bind {A B} (p : Prog A) (f : A -> Prog B) (w : World) :
  run (bind p f) w = andThen (run p w) (fun a w' => run (f a) w').
Proof.
  revert w. induction p as [a | e | X op k IH]; intro w.
  - unfold andThen. simpl. symmetry. apply prepend_nil.
  - reflexivity.
  - change (bind (Act op k) f) with (Act op (fun r => bind (k r) f)).
    rewrite !run_Act, IH. unfold andThen, prepend. simpl.
    destruct (result (run (k (fst (fst (exec op w)))) (snd (fst (exec op w)))));
      simpl; rewrite ?app_assoc; reflexivity.
Qed.

Lemma run_try_catch {A} (p : Prog A) (h : Err -> Prog A) (w : World) :
  run (try_catch p h) w = orElse (run p w) (fun e w' => run (h e) w').
Proof.
  revert w. induction p as [a | e | X op k IH]; intro w.
  - reflexivity.
  - unfold orElse. simpl. symmetry. apply prepend_nil.
  - change (try_catch (Act op k) h) with (Act op (fun r => try_catch (k r) h)).
    rewrite !run_Act, IH. unfold orElse, prepend. simpl.
    destruct (result (run (k (fst (fst (exec op w)))) (snd (fst (exec op w)))))
      eqn:E; simpl; rewrite ?app_assoc, ?E; reflexivity.
Qed.

Lemma run_log (l : Level) (msg a : string) (w : World) :
  run (log l msg a) w = mkOutcome (Ok tt) w [EvLog (mkLog l msg a)].
Proof. reflexivity. Qed.

Lemma run_when_true (p : Prog unit) (w : World) : run (when true p) w = run p w.
Proof. reflexivity. Qed.

Lemma run_when_false (p : Prog unit) (w : World) :
  run (when false p) w = mkOutcome (Ok tt) w [].
Proof. reflexivity. Qed.

(** The next fallible call of the world does not fail. *)
Definition next_call_ok (w : World) : bool :=
  match faults w with
  | true :: _ => false
  | _ => true
  end.

(** The failure plan after one fallible call. *)
Definition after_call (w : World) : World := set_faults w (tl (faults w)).

Lemma exec_ok {X} (op : Op X) (w : World) :
  fallible op = true -> next_call_ok w = true ->
  exec op w =
  (Ok (fst (fst (perform op (after_call w)))),
   snd (fst (perform op (after_call w))),
   snd (perform op (after_call w))).
Proof.
  unfold exec, next_call_ok, after_call. intros -> H.
  destruct w as [bs ss ms t n fs]; simpl in *.
  destruct fs as [| [] fs]; try discriminate; simpl;
    destruct (perform op _) as [[x w'] ev]; reflexivity.
Qed.

Lemma exec_fail {X} (op : Op X) (w : World) :
  fallible op = true -> next_call_ok w = false ->
  exec op w = (Fail DbFailure, after_call w, []).
Proof.
  unfold exec, next_call_ok, after_call. intros -> H.
  destruct (faults w) as [| [] fs]; try discriminate; reflexivity.
Qed.

Lemma exec_nofaults {X} (op : Op X) (w : World) :
  faults w = [] ->
  exec op w =
  (Ok (fst (fst (perform op w))), snd (fst (perform op w)), snd (perform op w)).
Proof.
  unfold exec. intros H. rewrite H.
  destruct (fallible op); destruct (perform op w) as [[x w'] ev]; reflexivity.
Qed.

Lemma perform_faults {X} (op : Op X) (w : World) :
  faults (snd (fst (perform op w))) = faults w.
Proof.
  destruct op; simpl; try reflexivity.
  - destruct (find_batch f (batches w)); reflexivity.
  - destruct (find (summary_match sid uid) (summaries w)); reflexivity.
Qed.

(** ** The BatchTracker collection as a keyed store *)

(** The tracker of a batch: [findOne({ batchId })]. *)
Definition lookup (bid : string) (bs : list Batch) : option Batch :=
  find_batch (mkFilter bid AnyStatus) bs.

Arguments lookup : simpl never.

(** The unique index on [batchId]. *)
Definition unique_ids (bs : list Batch) : Prop := NoDup (map batchId bs).

Lemma Status_eqb_eq (a b : Status) : Status_eqb a b = true <-> a = b.
Proof. split; [destruct a, b; simpl; congruence | intros ->; destruct b; reflexivity]. Qed.

Lemma Status_eqb_refl (a : Status) : Status_eqb a a = true.
Proof. destruct a; reflexivity. Qed.

Lemma filter_match_any (bid : string) (b : Batch) :
  filter_match (mkFilter bid AnyStatus) b = String.eqb (batchId b) bid.
Proof. unfold filter_match. simpl. apply andb_true_r. Qed.

Lemma lookup_cons (bid : string) (b : Batch) (bs : list Batch) :
  lookup bid (b :: bs) =
  if String.eqb (batchId b) bid then Some b else lookup bid bs.
Proof. unfold lookup, find_batch. simpl. rewrite filter_match_any. reflexivity. Qed.

Lemma lookup_id (bid : string) (bs : list Batch) (b : Batch) :
  lookup bid bs = Some b -> batchId b = bid.
Proof.
  unfold lookup, find_batch. intro H. apply find_some in H as [_ H].
  rewrite filter_match_any in H. apply String.eqb_eq. exact H.
Qed.

Lemma lookup_In (bid : string) (bs : list Batch) (b : Batch) :
  lookup bid bs = Some b -> In b bs.
Proof. unfold lookup, find_batch. intro H. apply find_some in H. tauto. Qed.

Lemma lookup_none_notin (bid : string) (bs : list Batch) :
  lookup bid bs = None -> ~ In bid (map batchId bs).
Proof.
  induction bs as [| b bs IH]; simpl; [tauto |].
  rewrite lookup_cons. destruct (String.eqb (batchId b) bid) eqn:E; [discriminate |].
  apply String.eqb_neq in E. intros H [H1 | H1]; [congruence | exact (IH H H1)].
Qed.

Lemma find_batch_hit (bid : string) (c : StatusCond) (bs : list Batch) (b : Batch) :
  lookup bid bs = Some b -> cond_holds c (status b) = true ->
  find_batch (mkFilter bid c) bs = Some b.
Proof.
  induction bs as [| x bs IH]; [discriminate |].
  rewrite lookup_cons. unfold find_batch, filter_match. simpl.
  destruct (String.eqb (batchId x) bid) eqn:E; simpl.
  - intros [= ->] ->. reflexivity.
  - exact IH.
Qed.

Lemma find_batch_none (bid : string) (c : StatusCond) (bs : list Batch) :
  lookup bid bs = None -> find_batch (mkFilter bid c) bs = None.
Proof.
  induction bs as [| x bs IH]; [reflexivity |].
  rewrite lookup_cons. unfold find_batch, filter_match. simpl.
  destruct (String.eqb (batchId x) bid) eqn:E; simpl; [discriminate | exact IH].
Qed.

Lemma find_batch_miss (bid : string) (c : StatusCond) (bs : list Batch) (b : Batch) :
  unique_ids bs -> lookup bid bs = Some b -> cond_holds c (status b) = false ->
  find_batch (mkFilter bid c) bs = None.
Proof.
  unfold unique_ids. induction bs as [| x bs IH]; [discriminate |].
  simpl. intro U. inversion U as [| ? ? Hn U']; subst.
  rewrite lookup_cons. unfold find_batch, filter_match. simpl.
  destruct (String.eqb (batchId x) bid) eqn:E; simpl.
  - intros [= ->] ->. apply String.eqb_eq in E. subst bid.
    apply find_batch_none.
    destruct (lookup (batchId b) bs) as [y |] eqn:L; [| exact L].
    exfalso. apply Hn. rewrite <- (lookup_id _ _ _ L).
    apply in_map. eapply lookup_In. exact L.
  - apply IH. exact U'.
Qed.

Lemma update_batch_miss (f : BFilter) (g : Batch -> Batch) (bs : list Batch) :
  find_batch f bs = None -> update_batch f g bs = bs.
Proof.
  unfold find_batch. induction bs as [| x bs IH]; simpl; [reflexivity |].
  destruct (filter_match f x); [discriminate |]. intro H. rewrite IH; auto.
Qed.

Lemma update_batch_ids (f : BFilter) (g : Batch -> Batch) (bs : list Batch) :
  (forall x, batchId (g x) = batchId x) ->
  map batchId (update_batch f g bs) = map batchId bs.
Proof.
  intro G. induction bs as [| x bs IH]; simpl; [reflexivity |].
  destruct (filter_match f x); simpl; [rewrite G | rewrite IH]; reflexivity.
Qed.

Lemma lookup_update_same (bid : string) (c : StatusCond) (g : Batch -> Batch)
  (bs : list Batch) (b : Batch) :
  (forall x, batchId (g x) = batchId x) ->
  lookup bid bs = Some b -> cond_holds c (status b) = true ->
  lookup bid (update_batch (mkFilter bid c) g bs) = Some (g b).
Proof.
  intro G. induction bs as [| x bs IH]; [discriminate |].
  rewrite lookup_cons. simpl. unfold filter_match at 1. simpl.
  destruct (String.eqb (batchId x) bid) eqn:E; simpl.
  - intros [= ->] ->. rewrite lookup_cons, G, E. reflexivity.
  - intros L C. rewrite lookup_cons, E. apply IH; assumption.
Qed.

Lemma lookup_update_other (bid : string) (f : BFilter) (g : Batch -> Batch)
  (bs : list Batch) :
  (forall x, batchId (g x) = batchId x) ->
  bid <> f_batchId f ->
  lookup bid (update_batch f g bs) = lookup bid bs.
Proof.
  intros G N. induction bs as [| x bs IH]; [reflexivity |].
  simpl. destruct (filter_match f x) eqn:M.
  - rewrite !lookup_cons, G. destruct (String.eqb (batchId x) bid) eqn:E; [| reflexivity].
    exfalso. apply N. apply String.eqb_eq in E. subst bid.
    unfold filter_match in M. apply andb_true_iff in M as [M _].
    apply String.eqb_eq in M. exact M.
  - rewrite !lookup_cons, IH. reflexivity.
Qed.

Lemma apply_set_id (now : Date) (b : Batch) (k : BSet) :
  batchId (apply_set now b k) = batchId b.
Proof. destruct k; reflexivity. Qed.

Lemma apply_update_id (now : Date) (u : list BSet) (b : Batch) :
  batchId (apply_update now u b) = batchId b.
Proof.
  unfold apply_update. revert b. induction u as [| k u IH]; intro b; simpl;
    [reflexivity | rewrite IH; apply apply_set_id].
Qed.

Lemma update_batch_unique (f : BFilter) (now : Date) (u : list BSet)
  (bs : list Batch) :
  unique_ids bs -> unique_ids (update_batch f (apply_update now u) bs).
Proof.
  unfold unique_ids. rewrite update_batch_ids; [tauto |].
  intro x. apply apply_update_id.
Qed.

Lemma run_await_ok {X} (op : Op X) (w : World) :
  fallible op = true -> next_call_ok w = true ->
  run (await op) w =
  mkOutcome (Ok (fst (fst (perform op (after_call w)))))
            (snd (fst (perform op (after_call w))))
            (snd (perform op (after_call w))).
Proof.
  intros F N. unfold await. rewrite run_Act, exec_ok by assumption.
  simpl. unfold prepend. simpl. rewrite app_nil_r. reflexivity.
Qed.

Lemma run_await_fail {X} (op : Op X) (w : World) :
  fallible op = true -> next_call_ok w = false ->
  run (await op) w = mkOutcome (Fail DbFailure) (after_call w) [].
Proof.
  intros F N. unfold await. rewrite run_Act, exec_fail by assumption.
  reflexivity.
Qed.

Lemma run_await_pure {X} (op : Op X) (w : World) :
  fallible op = false ->
  run (await op) w =
  mkOutcome (Ok (fst (fst (perform op w)))) (snd (fst (perform op w)))
            (snd (perform op w)).
Proof.
  intros F. unfold await. rewrite run_Act. unfold exec. rewrite F.
  destruct (perform op w) as [[x w'] ev]. simpl. unfold prepend. simpl.
  rewrite app_nil_r. reflexivity.
Qed.

(** Normal form of a run: push [run] through the program constructors and
    collapse the outcome combinators once their argument is a literal. *)
Ltac run_norm :=
  repeat first
    [ rewrite run_bind | rewrite run_try_catch | rewrite run_log
    | rewrite run_Ret | rewrite run_Throw
    | rewrite run_when_true | rewrite run_when_false
    | rewrite andThen_ok | rewrite andThen_fail
    | rewrite orElse_ok | rewrite orElse_fail
    | rewrite prepend_lit ];
  cbv beta.

Lemma nofaults_next_call_ok (w : World) : faults w = [] -> next_call_ok w = true.
Proof. unfold next_call_ok. intros ->. reflexivity. Qed.

Lemma nofaults_after_call (w : World) : faults w = [] -> after_call w = w.
Proof. unfold after_call. destruct w; simpl. intros ->. reflexivity. Qed.

Lemma run_await_nf {X} (op : Op X) (w : World) :
  faults w = [] ->
  run (await op) w =
  mkOutcome (Ok (fst (fst (perform op w)))) (snd (fst (perform op w)))
            (snd (perform op w)).
Proof.
  intro F. destruct (fallible op) eqn:E.
  - rewrite run_await_ok by auto using nofaults_next_call_ok.
    rewrite nofaults_after_call by assumption. reflexivity.
  - apply run_await_pure. exact E.
Qed.

(** Side conditions on the failure plan of a world built by setters. *)
Ltac nf :=
  cbn [faults batches summaries mixes clock nextId
       set_batches set_summaries set_mixes set_clock set_nextId set_faults];
  try assumption; try reflexivity.

(** One awaited call in a world without failures. *)
Ltac await_nf :=
  rewrite run_await_nf by nf; cbn [perform fst snd]; nf.

(** ** The dispatcher *)

Definition request_of (bid : string) (t : Date) (s : Summary) : AudioRequest :=
  mkRequest bid (s_id s) (s_userId s) (s_summary s) (s_summaryType s)
    (s_summaryTitle s) t.

(** The requests of one pass over [l], one second apart from [t] on. *)
Fixpoint posts_from (t : Date) (l : list Summary) (bid : string) : list Event :=
  match l with
  | [] => []
  | s :: rest => EvPost (request_of bid t s) :: posts_from (t + 1000) rest bid
  end.

Lemma set_clock_same (w : World) (t : Date) : t = clock w -> set_clock w t = w.
Proof. intros ->. destruct w; reflexivity. Qed.

Section Dispatcher.

Import AudioGenerationService.

Lemma run_sendLoop (l : list Summary) (bid : string) (w : World) :
  run (sendLoop l bid) w =
  mkOutcome (Ok tt) (set_clock w (clock w + 1000 * (List.length l - 1)))
    (posts_from (clock w) l bid).
Proof.
  revert w. induction l as [| s rest IH]; intro w.
  - cbn [sendLoop List.length posts_from]. rewrite run_Ret.
    rewrite set_clock_same by lia. reflexivity.
  - cbn [sendLoop posts_from]. unfold sendIndividualSummaryForAudio, delay.
    run_norm. rewrite run_await_pure by reflexivity.
    cbn [perform fst snd]. run_norm.
    destruct rest as [| r rest].
    + cbn [List.length Nat.eqb negb]. run_norm. rewrite IH. run_norm.
      cbn [List.length]. rewrite !set_clock_same by lia. reflexivity.
    + cbn [List.length Nat.eqb negb]. run_norm.
      rewrite run_await_pure by reflexivity. cbn [perform fst snd]. run_norm.
      rewrite IH. run_norm.
      cbn [clock set_clock List.length]. f_equal.
      unfold set_clock. cbn [batches summaries mixes clock nextId faults].
      f_equal. lia.
Qed.

End Dispatcher.

Definition log_triggering (bid : string) : Event :=
  EvLog (mkLog Info "Triggering audio generation for batch: ${batchId}" bid).

Definition log_already_processed (bid : string) : Event :=
  EvLog (mkLog Warn "Audio already processed for batch ${batchId}, skipping" bid).

(** What one call of the dispatcher does when no database call fails. *)
Definition trigger_outcome (bid : string) (w : World) : Outcome unit :=
  if AudioGenerationService.audio_already_processed (lookup bid (batches w))
  then mkOutcome (Ok tt) w [log_triggering bid; log_already_processed bid]
  else
    let l := summaries_without_audio bid (summaries w) in
    if List.length l =? 0 then
      mkOutcome (Ok tt) w
        [log_triggering bid;
         EvLog (mkLog Warn "No summaries without audio found for batch: ${batchId}" bid)]
    else
      mkOutcome (Ok tt)
        (set_clock w (clock w + 1000 * (List.length l - 1)))
        ([log_triggering bid]
         ++ (if 0 <? count_summaries bid false (summaries w) - List.length l
             then [EvLog (mkLog Info "Batch ${batchId}: summaries already have audio, processing remaining summaries" bid)]
             else [])
         ++ [EvLog (mkLog Info "Found summaries without audio for batch ${batchId}. Sending individually with delays." bid)]
         ++ posts_from (clock w) l bid
         ++ [EvLog (mkLog Info "All audio generation requests sent for batch: ${batchId}" bid)]).

(** The number of dispatch passes in a trace: calls of
    triggerAudioGeneration, each of which logs its entry first. *)
Definition is_dispatch_pass (e : Event) : bool :=
  match e with
  | EvLog l => String.eqb (text l) "Triggering audio generation for batch: ${batchId}"
  | _ => false
  end.

Definition dispatch_passes (ev : list Event) : nat :=
  List.length (filter is_dispatch_pass ev).

(** The requests sent to the audio worker in a trace. *)
Definition posts (ev : list Event) : list AudioRequest :=
  flat_map (fun e => match e with EvPost r => [r] | _ => [] end) ev.

(** The status writes of a trace. *)
Definition status_writes (ev : list Event) : list (string * Status * Status) :=
  flat_map (fun e => match e with
                     | EvStatus bid old new => [(bid, old, new)]
                     | _ => []
                     end) ev.

Section DispatcherRuns.

Import AudioGenerationService.

Lemma run_triggerAudioGeneration (bid : string) (w : World) :
  faults w = [] ->
  run (triggerAudioGeneration bid) w = trigger_outcome bid w.
Proof.
  intro F. unfold triggerAudioGeneration, trigger_outcome.
  run_norm. await_nf. fold (lookup bid (batches w)). run_norm.
  destruct (audio_already_processed (lookup bid (batches w))).
  - run_norm. reflexivity.
  - run_norm. await_nf. run_norm.
    destruct (List.length (summaries_without_audio bid (summaries w)) =? 0).
    + run_norm. reflexivity.
    + run_norm. await_nf. run_norm.
      destruct (0 <? count_summaries bid false (summaries w)
                     - List.length (summaries_without_audio bid (summaries w))).
      * run_norm. rewrite run_sendLoop. run_norm. reflexivity.
      * run_norm. rewrite run_sendLoop. run_norm. reflexivity.
Qed.

(** C7: called on a batch whose status is audio_requested, audio_complete
    or audio_failed, triggerAudioGeneration logs its entry and the skip and
    returns: it sends no request and leaves every batch and every summary
    as it was (the status query itself not failing). *)
Theorem C7_dispatcher_skips_processed_batch
  (w : World) (bid : string) (b : Batch) :
  lookup bid (batches w) = Some b ->
  status_in (status b) [audio_requested; audio_complete; audio_failed] = true ->
  next_call_ok w = true ->
  let o := run (triggerAudioGeneration bid) w in
  result o = Ok tt /\
  events o = [log_triggering bid; log_already_processed bid] /\
  posts (events o) = [] /\
  status_writes (events o) = [] /\
  batches (world o) = batches w /\
  summaries (world o) = summaries w /\
  mixes (world o) = mixes w.
Proof.
  intros L S N o. subst o. unfold triggerAudioGeneration.
  run_norm. rewrite run_await_ok by auto. cbn [perform fst snd].
  change (batches (after_call w)) with (batches w).
  fold (lookup bid (batches w)). rewrite L. run_norm.
  cbn [audio_already_processed]. rewrite S. run_norm.
  cbn. repeat split; reflexivity.
Qed.

End DispatcherRuns.

(** ** The failure webhook *)

(** The tracker after a failure report taken at [now]. *)
Definition mark_failed (now : Date) (errorMessage : string) (b : Batch) : Batch :=
  apply_update now
    [SetStatus audio_failed; StampAudioFailedAt; SetFailureReason errorMessage] b.

Definition failure_request (bid errorMessage uid : string)
  : WebhookController.FailureRequest :=
  WebhookController.mkFailureRequest (Some bid) (Some errorMessage) (Some uid).

Lemma truthy_Some (s : string) : s <> "" -> truthy (Some s) = true.
Proof.
  intro H. unfold truthy. destruct (String.eqb s "") eqn:E; [| reflexivity].
  apply String.eqb_eq in E. contradiction.
Qed.

Lemma failure_report (w : World) (bid errorMessage uid : string) (b : Batch) :
  bid <> "" -> errorMessage <> "" -> uid <> "" ->
  lookup bid (batches w) = Some b ->
  next_call_ok w = true ->
  run (WebhookController.handleAudioGenerationFailure
         (failure_request bid errorMessage uid)) w =
  mkOutcome
    (Ok (WebhookController.mkResponse 200 (WebhookController.FailureProcessed bid)))
    (set_batches (after_call w)
       (update_batch (mkFilter bid AnyStatus)
          (apply_update (clock w)
             [SetStatus audio_failed; StampAudioFailedAt;
              SetFailureReason errorMessage])
          (batches w)))
    [EvLog (mkLog Error "Audio generation failed permanently for batch ${batchId}: ${errorMessage}" bid);
     EvStatus bid (status b) audio_failed;
     EvLog (mkLog Info "Batch ${batchId} marked as audio_failed in database" bid)].
Proof.
  intros Hb Hm Hu L N.
  unfold WebhookController.handleAudioGenerationFailure, failure_request.
  cbn [WebhookController.x_batchId WebhookController.x_errorMessage
       WebhookController.x_userId WebhookController.str].
  rewrite !truthy_Some by assumption. cbn [negb orb].
  unfold WebhookServices.handleAudioGenerationFailure.
  run_norm. rewrite run_await_ok by auto. cbn [perform fst snd].
  change (batches (after_call w)) with (batches w).
  change (clock (after_call w)) with (clock w).
  fold (lookup bid (batches w)). rewrite L.
  cbn [fst snd sets_status existsb orb]. run_norm.
  rewrite (lookup_id _ _ _ L). reflexivity.
Qed.

(** C8: a failure report carrying batchId, errorMessage and userId sets
    the batch to audio_failed with audioFailedAt and failureReason,
    whatever the status before; a second report overwrites the first
    (last writer wins). *)
Theorem C8_failure_report_is_unconditional
  (w : World) (bid msg1 uid1 msg2 uid2 : string) (b : Batch) :
  bid <> "" -> msg1 <> "" -> uid1 <> "" -> msg2 <> "" -> uid2 <> "" ->
  lookup bid (batches w) = Some b ->
  faults w = [] ->
  let o1 := run (WebhookController.handleAudioGenerationFailure
                   (failure_request bid msg1 uid1)) w in
  let o2 := run (WebhookController.handleAudioGenerationFailure
                   (failure_request bid msg2 uid2)) (world o1) in
  (result o1 =
     Ok (WebhookController.mkResponse 200 (WebhookController.FailureProcessed bid)) /\
   lookup bid (batches (world o1)) = Some (mark_failed (clock w) msg1 b) /\
   status (mark_failed (clock w) msg1 b) = audio_failed /\
   audioFailedAt (mark_failed (clock w) msg1 b) = Some (clock w) /\
   failureReason (mark_failed (clock w) msg1 b) = Some msg1 /\
   status_writes (events o1) = [(bid, status b, audio_failed)]) /\
  (result o2 =
     Ok (WebhookController.mkResponse 200 (WebhookController.FailureProcessed bid)) /\
   (exists b2, lookup bid (batches (world o2)) = Some b2 /\
      status b2 = audio_failed /\ failureReason b2 = Some msg2) /\
   status_writes (events o2) = [(bid, audio_failed, audio_failed)]).
Proof.
  intros Hb Hm1 Hu1 Hm2 Hu2 L F o1 o2.
  assert (E1 := failure_report w bid msg1 uid1 b Hb Hm1 Hu1 L (nofaults_next_call_ok _ F)).
  rewrite (nofaults_after_call _ F) in E1.
  assert (L1 : lookup bid (batches (world o1)) = Some (mark_failed (clock w) msg1 b)).
  { subst o1. rewrite E1. cbn [world batches set_batches].
    apply lookup_update_same; auto. }
  assert (E2 := failure_report _ bid msg2 uid2 _ Hb Hm2 Hu2 L1).
  split.
  - subst o1. rewrite E1 in *. cbn [result events]. repeat split; auto.
  - assert (F1 : faults (world o1) = []) by (subst o1; rewrite E1; nf).
    specialize (E2 (nofaults_next_call_ok _ F1)).
    rewrite (nofaults_after_call _ F1) in E2. subst o2. rewrite E2.
    cbn [result world events batches set_batches]. repeat split; auto.
    eexists. split.
    + apply lookup_update_same; eauto.
    + split; reflexivity.
Qed.

(** ** The summary webhook *)

(** A handler whose catch clause only logs never throws. *)
Lemma try_log_never_throws (p : Prog unit) (l : Level) (msg a : string)
  (w : World) :
  result (run (try_catch p (fun _ => log l msg a)) w) = Ok tt.
Proof.
  rewrite run_try_catch. unfold orElse.
  destruct (result (run p w)) as [[] | e] eqn:E; [exact E | reflexivity].
Qed.

(** The unit persisted by [AiSummaries.create] for a request. *)
Definition unit_of (w : World) (req : WebhookController.SummaryRequest) : Summary :=
  mkSummary (nextId w) (WebhookController.q_userId req)
    (WebhookController.q_summary req) (WebhookController.q_summaryType req)
    (WebhookController.q_summaryTitle req) (WebhookController.q_batchId req)
    false None.

(** The unit of the request passes the validators of the schema. *)
Definition valid_unit (req : WebhookController.SummaryRequest) : bool :=
  AiSummaries.validate (WebhookController.q_summary req)
    (WebhookController.q_userId req) (WebhookController.q_summaryType req)
    (WebhookController.q_summaryTitle req).

(** Unfold [AiSummaries.create] at a unit known to be valid. *)
Ltac create_valid V :=
  unfold AiSummaries.create;
  let V' := fresh "V" in
  pose proof V as V'; unfold valid_unit in V'; rewrite V'; clear V'.

Section SummaryWebhook.

Import WebhookServices.

Lemma checkBatchCompletion_missing (bid : string) (w : World) :
  lookup bid (batches w) = None ->
  exists ev,
    run (checkBatchCompletion bid) w = mkOutcome (Ok tt) (after_call w) ev /\
    status_writes ev = [] /\ posts ev = [].
Proof.
  intro L. unfold checkBatchCompletion, checkBatchCompletion_handler.
  run_norm. destruct (next_call_ok w) eqn:N.
  - rewrite run_await_ok by auto. cbn [perform fst snd].
    change (batches (after_call w)) with (batches w).
    fold (lookup bid (batches w)). rewrite L. run_norm.
    eexists. split; [reflexivity | split; reflexivity].
  - rewrite run_await_fail by auto. run_norm.
    eexists. split; [reflexivity | split; reflexivity].
Qed.

(** C10: a summary event whose batchId matches no tracker is still
    persisted and answered with the new unit (the unit passing the
    validators of the schema and the create itself not failing, whatever
    the later calls do); no tracker is written. *)
Theorem C10_unknown_batch_still_persists_unit
  (w : World) (req : WebhookController.SummaryRequest) (bid : string) :
  WebhookController.q_batchId req = Some bid ->
  lookup bid (batches w) = None ->
  valid_unit req = true ->
  next_call_ok w = true ->
  let o := run (WebhookController.handleSummaryWebhook req) w in
  result o = Ok (WebhookController.mkResponse 200
                   (WebhookController.SummaryReceived (unit_of w req))) /\
  summaries (world o) = summaries w ++ [unit_of w req] /\
  batches (world o) = batches w /\
  status_writes (events o) = [] /\
  posts (events o) = [].
Proof.
  intros Q L V N o. subst o.
  unfold WebhookController.handleSummaryWebhook, saveSummary.
  create_valid V.
  run_norm. rewrite run_await_ok by auto. cbn [perform fst snd]. run_norm.
  rewrite Q.
  change (mkSummary (nextId (after_call w)) (WebhookController.q_userId req)
            (WebhookController.q_summary req)
            (WebhookController.q_summaryType req)
            (WebhookController.q_summaryTitle req) (Some bid) false None)
    with (mkSummary (nextId w) (WebhookController.q_userId req)
            (WebhookController.q_summary req)
            (WebhookController.q_summaryType req)
            (WebhookController.q_summaryTitle req) (Some bid) false None).
  replace (mkSummary (nextId w) (WebhookController.q_userId req)
            (WebhookController.q_summary req)
            (WebhookController.q_summaryType req)
            (WebhookController.q_summaryTitle req) (Some bid) false None)
    with (unit_of w req) by (unfold unit_of; rewrite Q; reflexivity).
  destruct (truthy (Some bid)).
  - match goal with
    | |- context [run (when true (checkBatchCompletion bid)) ?w1] =>
        destruct (checkBatchCompletion_missing bid w1 L) as (ev & E & Hs & Hp)
    end.
    run_norm. rewrite E. run_norm.
    cbn [result world events summaries batches after_call set_faults
         set_nextId set_summaries].
    repeat split; try reflexivity.
    + cbn [app]. rewrite ?app_nil_r. exact Hs.
    + cbn [app]. rewrite ?app_nil_r. exact Hp.
  - run_norm.
    cbn [result world events summaries batches after_call set_faults
         set_nextId set_summaries].
    repeat split; reflexivity.
Qed.

End SummaryWebhook.

(** ** Persistence failures *)

(** Some awaited database call of the run failed. *)
Fixpoint any_call_failed {A} (p : Prog A) (w : World) : bool :=
  match p with
  | Ret _ | Throw _ => false
  | Act op k =>
      let '(r, w1, _) := exec op w in
      (match r with Fail _ => true | Ok _ => false end)
      || any_call_failed (k r) w1
  end.

(** The reading of the error policy under which every persistence
    failure met while serving POST /summary reaches the requester. *)
Definition ingress_failures_propagate : Prop :=
  forall (req : WebhookController.SummaryRequest) (w : World),
    valid_unit req = true ->
    any_call_failed (WebhookController.handleSummaryWebhook req) w = true ->
    exists b, result (run (WebhookController.handleSummaryWebhook req) w)
              = Ok (WebhookController.mkResponse 500 b).

Lemma result_andThen_ok {A B} (o : Outcome A) (f : A -> World -> Outcome B) (a : A) :
  result o = Ok a -> result (andThen o f) = result (f a (world o)).
Proof. unfold andThen. intros ->. reflexivity. Qed.

Lemma world_andThen_ok {A B} (o : Outcome A) (f : A -> World -> Outcome B) (a : A) :
  result o = Ok a -> world (andThen o f) = world (f a (world o)).
Proof. unfold andThen. intros ->. reflexivity. Qed.

(** *** Failures are logged *)

Definition is_error_log (e : Event) : bool :=
  match e with
  | EvLog l => match lvl l with Error => true | _ => false end
  | _ => false
  end.

(** A line of level error is among the events. *)
Definition error_logged (ev : list Event) : bool := existsb is_error_log ev.

(** A failed call of the program is logged as an error, or the program
    throws. *)
Definition reported {A} (p : Prog A) : Prop :=
  forall w, any_call_failed p w = true ->
    error_logged (events (run p w)) = true \/
    exists e, result (run p w) = Fail e.

(** A failed call of the program is logged as an error. *)
Definition logged {A} (p : Prog A) : Prop :=
  forall w, any_call_failed p w = true ->
    error_logged (events (run p w)) = true.

(** The program logs an error whenever it runs. *)
Definition always_logs {A} (p : Prog A) : Prop :=
  forall w, error_logged (events (run p w)) = true.

Lemma error_logged_app (e1 e2 : list Event) :
  error_logged (e1 ++ e2) = error_logged e1 || error_logged e2.
Proof. apply existsb_app. Qed.

Lemma any_call_failed_bind {A B} (p : Prog A) (f : A -> Prog B) (w : World) :
  any_call_failed (bind p f) w
  = any_call_failed p w ||
    match result (run p w) with
    | Ok a => any_call_failed (f a) (world (run p w))
    | Fail _ => false
    end.
Proof.
  revert w. induction p as [a | e | X op k IH]; intro w.
  - reflexivity.
  - reflexivity.
  - cbn [bind any_call_failed run].
    destruct (exec op w) as [[r w1] ev1]. rewrite IH.
    cbn [prepend result world]. rewrite orb_assoc. reflexivity.
Qed.

Lemma any_call_failed_try {A} (p : Prog A) (h : Err -> Prog A) (w : World) :
  any_call_failed (try_catch p h) w
  = any_call_failed p w ||
    match result (run p w) with
    | Ok _ => false
    | Fail e => any_call_failed (h e) (world (run p w))
    end.
Proof.
  revert w. induction p as [a | e | X op k IH]; intro w.
  - reflexivity.
  - reflexivity.
  - cbn [try_catch any_call_failed run].
    destruct (exec op w) as [[r w1] ev1]. rewrite IH.
    cbn [prepend result world]. rewrite orb_assoc. reflexivity.
Qed.

Lemma logged_reported {A} (p : Prog A) : logged p -> reported p.
Proof. intros H w F. left. apply H. exact F. Qed.

Lemma reported_await {X} (op : Op X) : reported (await op).
Proof.
  intros w F. right. unfold await in *. cbn [any_call_failed] in F.
  rewrite run_Act.
  destruct (exec op w) as [[[x | e] w1] ev1]; cbn in F; [discriminate |].
  exists e. reflexivity.
Qed.

Lemma logged_quiet {X} (op : Op X) : fallible op = false -> logged (await op).
Proof.
  intros Q w F. unfold await in F. cbn [any_call_failed] in F.
  unfold exec in F. rewrite Q in F.
  destruct (perform op w) as [[x w1] ev1]. discriminate F.
Qed.

Lemma logged_log (l : Level) (msg a : string) : logged (log l msg a).
Proof. apply logged_quiet. reflexivity. Qed.

Lemma logged_Ret {A} (a : A) : logged (Ret a).
Proof. intros w F. discriminate F. Qed.

Lemma logged_Throw {A} (e : Err) : logged (@Throw A e).
Proof. intros w F. discriminate F. Qed.

Lemma reported_bind {A B} (p : Prog A) (f : A -> Prog B) :
  reported p -> (forall a, reported (f a)) -> reported (bind p f).
Proof.
  intros Hp Hf w F. rewrite any_call_failed_bind in F.
  rewrite run_bind. unfold andThen.
  apply orb_true_iff in F as [F | F].
  - destruct (Hp w F) as [L | [e E]].
    + left. destruct (result (run p w)); cbn [prepend events];
        [rewrite error_logged_app, L; reflexivity | exact L].
    + right. rewrite E. exists e. reflexivity.
  - destruct (result (run p w)) as [a | e]; [| discriminate F].
    cbn [prepend events result].
    destruct (Hf a _ F) as [L | E]; [left | right; exact E].
    rewrite error_logged_app, L. apply orb_true_r.
Qed.

Lemma logged_bind {A B} (p : Prog A) (f : A -> Prog B) :
  logged p -> (forall a, logged (f a)) -> logged (bind p f).
Proof.
  intros Hp Hf w F. rewrite any_call_failed_bind in F.
  rewrite run_bind. unfold andThen.
  apply orb_true_iff in F as [F | F].
  - pose proof (Hp w F) as L.
    destruct (result (run p w)); cbn [prepend events];
      [rewrite error_logged_app, L; reflexivity | exact L].
  - destruct (result (run p w)) as [a | e]; [| discriminate F].
    cbn [prepend events]. rewrite error_logged_app, (Hf a _ F).
    apply orb_true_r.
Qed.

(** A try whose handler logs an error logs every failure of its body. *)
Lemma logged_try {A} (p : Prog A) (h : Err -> Prog A) :
  reported p -> (forall e, always_logs (h e)) -> logged (try_catch p h).
Proof.
  intros Hp Hh w F. rewrite any_call_failed_try in F.
  rewrite run_try_catch. unfold orElse.
  assert (T : error_logged (events (run p w)) = true \/
              exists e, result (run p w) = Fail e).
  { apply orb_true_iff in F as [F | F]; [apply Hp; exact F |].
    destruct (result (run p w)) as [a | e]; [discriminate F |].
    right. exists e. reflexivity. }
  destruct T as [L | [e E]].
  - destruct (result (run p w)); cbn [prepend events];
      [exact L | rewrite error_logged_app, L; reflexivity].
  - rewrite E. cbn [prepend events]. rewrite error_logged_app, (Hh e).
    apply orb_true_r.
Qed.

Lemma logged_when (c : bool) (p : Prog unit) : logged p -> logged (when c p).
Proof. destruct c; [auto | intros _; apply logged_Ret]. Qed.

Lemma reported_when (c : bool) (p : Prog unit) :
  reported p -> reported (when c p).
Proof.
  destruct c; [auto | intros _; apply logged_reported, logged_Ret].
Qed.

Lemma logged_forEach {X} (l : list X) (f : X -> Prog unit) :
  (forall x, logged (f x)) -> logged (forEach l f).
Proof.
  intro H. induction l as [| x l IH]; cbn [forEach]; [apply logged_Ret |].
  apply logged_bind; [apply H | intros _; exact IH].
Qed.

Lemma reported_forEach {X} (l : list X) (f : X -> Prog unit) :
  (forall x, reported (f x)) -> reported (forEach l f).
Proof.
  intro H. induction l as [| x l IH]; cbn [forEach];
    [apply logged_reported, logged_Ret |].
  apply reported_bind; [apply H | intros _; exact IH].
Qed.

Lemma always_logs_error (msg a : string) : always_logs (log Error msg a).
Proof. intro w. reflexivity. Qed.

Lemma always_logs_bind {A B} (p : Prog A) (f : A -> Prog B) :
  always_logs p -> always_logs (bind p f).
Proof.
  intros H w. rewrite run_bind. unfold andThen.
  destruct (result (run p w)); cbn [prepend events];
    [rewrite error_logged_app, (H w); reflexivity | apply H].
Qed.

Create HintDb logs.

(** Walk a program and discharge [logged] or [reported] at each call. *)
Ltac logs :=
  repeat first
    [ solve [auto with logs]
    | apply logged_log
    | apply logged_Ret
    | apply logged_Throw
    | apply logged_when
    | apply logged_forEach
    | apply logged_bind
    | (apply logged_try; [| intro; apply always_logs_bind; apply always_logs_error])
    | (apply logged_try; [| intro; apply always_logs_error])
    | apply reported_await
    | match goal with
      | |- logged (match ?x with _ => _ end) => destruct x
      | |- reported (match ?x with _ => _ end) => destruct x
      | |- forall _, _ => intro
      end
    | (apply logged_reported; solve [logs])
    | apply reported_when
    | apply reported_forEach
    | apply reported_bind ].

Section LoggedFailures.

Import AudioGenerationService WebhookServices BatchTimeoutService.

Lemma logged_sendLoop (l : list Summary) (bid : string) :
  logged (sendLoop l bid).
Proof.
  induction l as [| s l IH]; cbn [sendLoop]; [apply logged_Ret |].
  unfold sendIndividualSummaryForAudio, delay.
  apply logged_bind; [apply logged_quiet; reflexivity | intros _].
  apply logged_bind; [| intros _; exact IH].
  apply logged_when. apply logged_quiet. reflexivity.
Qed.
Hint Resolve logged_sendLoop : logs.

Lemma logged_triggerAudioGeneration (bid : string) :
  logged (triggerAudioGeneration bid).
Proof. unfold triggerAudioGeneration. logs. Qed.
Hint Resolve logged_triggerAudioGeneration : logs.

Lemma logged_checkBatchAudioCompletion (bid : string) :
  logged (checkBatchAudioCompletion bid).
Proof. unfold checkBatchAudioCompletion. logs. Qed.
Hint Resolve logged_checkBatchAudioCompletion : logs.

Lemma logged_handlePartialCompletion (bid : string) (b : Batch) :
  logged (handlePartialCompletion bid b).
Proof. unfold handlePartialCompletion. logs. Qed.
Hint Resolve logged_handlePartialCompletion : logs.

Lemma logged_handleFullCompletion (bid : string) (b : Batch) :
  logged (handleFullCompletion bid b).
Proof. unfold handleFullCompletion. logs. Qed.
Hint Resolve logged_handleFullCompletion : logs.

Lemma logged_checkBatchCompletion (bid : string) :
  logged (checkBatchCompletion bid).
Proof.
  unfold checkBatchCompletion, checkBatchCompletion_handler, afterIncrement,
    evaluate.
  logs.
Qed.
Hint Resolve logged_checkBatchCompletion : logs.

Lemma logged_saveSummary (summary uid ty title : string) (bid : option string) :
  logged (saveSummary summary uid ty title bid).
Proof. unfold saveSummary, AiSummaries.create. logs. Qed.
Hint Resolve logged_saveSummary : logs.

Lemma logged_handleSummaryWebhook (req : WebhookController.SummaryRequest) :
  logged (WebhookController.handleSummaryWebhook req).
Proof. unfold WebhookController.handleSummaryWebhook. logs. Qed.

Lemma logged_handleTimeoutBatch (b : Batch) : logged (handleTimeoutBatch b).
Proof. unfold handleTimeoutBatch. logs. Qed.
Hint Resolve logged_handleTimeoutBatch : logs.

Lemma logged_recoverFailedBatch (b : Batch) (n : nat) :
  logged (recoverFailedBatch b n).
Proof. unfold recoverFailedBatch. logs. Qed.
Hint Resolve logged_recoverFailedBatch : logs.

Lemma logged_triggerPartialCompletion (b : Batch) :
  logged (triggerPartialCompletion b).
Proof. unfold triggerPartialCompletion. logs. Qed.
Hint Resolve logged_triggerPartialCompletion : logs.

Lemma logged_runPeriodicMaintenance : logged runPeriodicMaintenance.
Proof.
  unfold runPeriodicMaintenance, processTimeoutBatches,
    processOrphanedSummaries, checkPartialCompletionBatches,
    getBatchStatistics, checkOrphaned, checkPartial.
  logs.
Qed.

End LoggedFailures.

Section IngressFailures.

Import WebhookServices.

Lemma checkBatchCompletion_never_throws (bid : string) (w : World) :
  result (run (checkBatchCompletion bid) w) = Ok tt.
Proof. apply try_log_never_throws. Qed.

(** C9 (as amended): on POST /summary a unit that the validators of the
    schema reject, or a failure of the call that persists the unit, is
    answered 500 with the error, and nothing is stored; once the unit is
    persisted the answer is 200 with the unit, whichever later call of the
    completion evaluation fails.  Every failed call of the handler is
    logged as an error.  The periodic maintenance never rethrows, and
    logs every failed call as an error. *)
Theorem C9_only_the_create_failure_reaches_the_requester
  (w : World) (req : WebhookController.SummaryRequest) :
  let o := run (WebhookController.handleSummaryWebhook req) w in
  let sweep := run BatchTimeoutService.runPeriodicMaintenance w in
  (valid_unit req = false ->
     result o = Ok (WebhookController.mkResponse 500
                      (WebhookController.Failed "Error in handleSummaryWebhook"
                         ValidationFailed)) /\
     world o = w /\ error_logged (events o) = true) /\
  (valid_unit req = true -> next_call_ok w = false ->
     result o = Ok (WebhookController.mkResponse 500
                      (WebhookController.Failed "Error in handleSummaryWebhook"
                         DbFailure)) /\
     summaries (world o) = summaries w /\ batches (world o) = batches w) /\
  (valid_unit req = true -> next_call_ok w = true ->
     result o = Ok (WebhookController.mkResponse 200
                      (WebhookController.SummaryReceived (unit_of w req)))) /\
  (any_call_failed (WebhookController.handleSummaryWebhook req) w = true ->
     error_logged (events o) = true) /\
  result sweep = Ok tt /\
  (any_call_failed BatchTimeoutService.runPeriodicMaintenance w = true ->
     error_logged (events sweep) = true).
Proof.
  intros o sweep. subst o sweep. repeat apply conj.
  - intro V. unfold WebhookController.handleSummaryWebhook, saveSummary,
      AiSummaries.create.
    unfold valid_unit in V. rewrite V. run_norm.
    repeat split; reflexivity.
  - intros V N. unfold WebhookController.handleSummaryWebhook, saveSummary.
    create_valid V.
    run_norm. rewrite run_await_fail by auto. run_norm.
    cbn [result world summaries batches after_call set_faults].
    repeat split; reflexivity.
  - intros V N. unfold WebhookController.handleSummaryWebhook, saveSummary.
    create_valid V.
    run_norm. rewrite run_await_ok by auto. cbn [perform fst snd]. run_norm.
    match goal with
    | |- context [andThen (run (when ?c ?p) ?w1) ?f] =>
        assert (R : result (run (when c p) w1) = Ok tt)
          by (destruct c; [apply checkBatchCompletion_never_throws | reflexivity]);
        destruct (run (when c p) w1) as [r1 w2 ev2]
    end.
    cbn [result] in R. subst r1. run_norm. reflexivity.
  - apply logged_handleSummaryWebhook.
  - apply try_log_never_throws.
  - apply logged_runPeriodicMaintenance.
Qed.

End IngressFailures.

(** ** What a program can do, whatever the calls answer *)

(** Every action the program can reach, under any answers, satisfies [P]. *)
Fixpoint all_acts {A} (P : forall X, Op X -> Prop) (p : Prog A) : Prop :=
  match p with
  | Ret _ | Throw _ => True
  | Act op k => P _ op /\ forall r, all_acts P (k r)
  end.

(** The tracker updates written in the source, for batches in [ids];
    [counts] allows those that set receivedCount. *)
Inductive engine_write (ids : string -> Prop) (counts : bool)
  : BFilter -> list BSet -> Prop :=
| W_increment bid :
    ids bid -> counts = true ->
    engine_write ids counts (mkFilter bid AnyStatus) [IncReceived]
| W_reconcile bid n :
    ids bid -> counts = true ->
    engine_write ids counts (mkFilter bid AnyStatus) [SetReceived n]
| W_recover bid n :
    ids bid -> counts = true ->
    engine_write ids counts (mkFilter bid (StatusIs failed))
      [SetReceived n; SetStatus complete; StampCompletedAt]
| W_partial bid :
    ids bid ->
    engine_write ids counts (mkFilter bid (StatusIs pending))
      [SetStatus partial_complete; StampPartialCompletedAt]
| W_complete_from_pending bid :
    ids bid ->
    engine_write ids counts (mkFilter bid (StatusIs pending))
      [SetStatus complete; StampCompletedAt]
| W_complete_from_partial bid :
    ids bid ->
    engine_write ids counts (mkFilter bid (StatusIs partial_complete))
      [SetStatus complete; StampCompletedAt]
| W_failed bid :
    ids bid ->
    engine_write ids counts (mkFilter bid (StatusIn [pending; partial_complete]))
      [SetStatus failed; StampCompletedAt]
| W_audio_requested bid :
    ids bid ->
    engine_write ids counts (mkFilter bid AnyStatus)
      [SetStatus audio_requested; StampAudioRequestedAt]
| W_audio_complete_checked bid :
    ids bid ->
    engine_write ids counts (mkFilter bid (StatusNe audio_complete))
      [SetStatus audio_complete; StampAudioCompletedAt]
| W_audio_complete bid :
    ids bid ->
    engine_write ids counts (mkFilter bid AnyStatus)
      [SetStatus audio_complete; StampAudioCompletedAt]
| W_audio_complete_url bid url :
    ids bid ->
    engine_write ids counts (mkFilter bid AnyStatus)
      [SetStatus audio_complete; StampAudioCompletedAt; SetAudioUrl url]
| W_audio_failed bid msg :
    ids bid ->
    engine_write ids counts (mkFilter bid AnyStatus)
      [SetStatus audio_failed; StampAudioFailedAt; SetFailureReason msg].

(** The writes a program may issue: tracker updates of the source and
    requests to the audio worker for batches in [ids], and writes of the
    other collections only when [units] is set. *)
Definition issues (ids : string -> Prop) (counts units : bool)
  (X : Type) (op : Op X) : Prop :=
  match op with
  | BT_findOneAndUpdate f u _ => engine_write ids counts f u
  | AS_insertOne _ _ _ _ _ | AS_findOneAndUpdate _ _ _ | UM_insertOne _ =>
      units = true
  | PostOp _ bid => ids bid
  | _ => True
  end.

Definition any_id (_ : string) : Prop := True.

Lemma all_acts_mono {A} (P Q : forall X, Op X -> Prop) (p : Prog A) :
  (forall X (op : Op X), P X op -> Q X op) -> all_acts P p -> all_acts Q p.
Proof.
  intro H. induction p as [a | e | X op k IH]; simpl; auto.
  intros [H1 H2]. split; auto.
Qed.

Lemma all_acts_bind {A B} (P : forall X, Op X -> Prop) (p : Prog A)
  (f : A -> Prog B) :
  all_acts P p -> (forall a, all_acts P (f a)) -> all_acts P (bind p f).
Proof.
  intros Hp Hf. induction p as [a | e | X op k IH]; simpl; auto.
  destruct Hp as [H1 H2]. split; auto.
Qed.

Lemma all_acts_try_catch {A} (P : forall X, Op X -> Prop) (p : Prog A)
  (h : Err -> Prog A) :
  all_acts P p -> (forall e, all_acts P (h e)) -> all_acts P (try_catch p h).
Proof.
  intros Hp Hh. induction p as [a | e | X op k IH]; simpl; auto.
  destruct Hp as [H1 H2]. split; auto.
Qed.

Lemma all_acts_await {X} (P : forall X, Op X -> Prop) (op : Op X) :
  P X op -> all_acts P (await op).
Proof. intro H. simpl. split; [exact H | intros [x | e]; exact I]. Qed.

Lemma all_acts_when (P : forall X, Op X -> Prop) (c : bool) (p : Prog unit) :
  all_acts P p -> all_acts P (when c p).
Proof. destruct c; simpl; auto. Qed.

Lemma all_acts_forEach {X} (P : forall X, Op X -> Prop) (l : list X)
  (f : X -> Prog unit) :
  (forall x, In x l -> all_acts P (f x)) -> all_acts P (forEach l f).
Proof.
  induction l as [| x l IH]; intro H; simpl; [exact I |].
  apply all_acts_bind; [apply H; left; reflexivity |].
  intros _. apply IH. intros y Hy. apply H. right. exact Hy.
Qed.

(** A property of worlds kept by every action a program can reach is
    kept by its run. *)
Lemma run_preserves {A} (P : forall X, Op X -> Prop) (I : World -> Prop)
  (p : Prog A) :
  (forall X (op : Op X) w, P X op -> I w -> I (snd (fst (exec op w)))) ->
  forall w, all_acts P p -> I w -> I (world (run p w)).
Proof.
  intro H. induction p as [a | e | X op k IH]; intros w Hp Hw; auto.
  rewrite run_Act. destruct Hp as [H1 H2]. cbn [prepend world].
  apply IH; auto.
Qed.

(** A property of events that every reachable action ensures holds of
    the whole trace. *)
Lemma run_events_all {A} (P : forall X, Op X -> Prop) (Q : Event -> Prop)
  (p : Prog A) :
  (forall X (op : Op X) w, P X op -> Forall Q (snd (exec op w))) ->
  forall w, all_acts P p -> Forall Q (events (run p w)).
Proof.
  intro H. induction p as [a | e | X op k IH]; intros w Hp;
    try (simpl; constructor).
  rewrite run_Act. destruct Hp as [H1 H2]. cbn [prepend events].
  apply Forall_app. split; auto.
Qed.

Create HintDb acts.

Ltac act_leaf :=
  cbn [issues];
  first [exact I | assumption | reflexivity | (constructor; solve [auto])].

(** Walk a program and discharge [all_acts] at each awaited call. *)
Ltac acts :=
  repeat first
    [ solve [auto with acts]
    | apply all_acts_bind
    | apply all_acts_try_catch
    | (apply all_acts_await; act_leaf)
    | apply all_acts_when
    | intro
    | exact I
    | match goal with
      | |- all_acts _ (match ?x with _ => _ end) => destruct x
      end ].

Section Footprints.

Import AudioGenerationService WebhookServices BatchTimeoutService.

Variable ids : string -> Prop.
Variable counts units : bool.

Lemma acts_sendLoop (l : list Summary) (bid : string) :
  ids bid -> all_acts (issues ids counts units) (sendLoop l bid).
Proof.
  intro H. induction l as [| s rest IH]; [exact I |].
  cbn [sendLoop]. unfold sendIndividualSummaryForAudio, delay. acts.
Qed.
Hint Resolve acts_sendLoop : acts.

Lemma acts_triggerAudioGeneration (bid : string) :
  ids bid -> all_acts (issues ids counts units) (triggerAudioGeneration bid).
Proof. intro H. unfold triggerAudioGeneration. acts. Qed.
Hint Resolve acts_triggerAudioGeneration : acts.

Lemma acts_checkBatchAudioCompletion (bid : string) :
  ids bid ->
  all_acts (issues ids counts units) (checkBatchAudioCompletion bid).
Proof. intro H. unfold checkBatchAudioCompletion. acts. Qed.
Hint Resolve acts_checkBatchAudioCompletion : acts.

Lemma acts_handlePartialCompletion (bid : string) (bt : Batch) :
  ids bid ->
  all_acts (issues ids counts units) (handlePartialCompletion bid bt).
Proof. intro H. unfold handlePartialCompletion. acts. Qed.
Hint Resolve acts_handlePartialCompletion : acts.

Lemma acts_handleFullCompletion (bid : string) (bt : Batch) :
  ids bid ->
  all_acts (issues ids counts units) (handleFullCompletion bid bt).
Proof. intro H. unfold handleFullCompletion. acts. Qed.
Hint Resolve acts_handleFullCompletion : acts.

Lemma acts_evaluate (bid : string) (bt : Batch) (n : nat) :
  ids bid ->
  all_acts (issues ids counts units) (evaluate bid bt n).
Proof. intro H. unfold evaluate. acts. Qed.
Hint Resolve acts_evaluate : acts.

Lemma acts_afterIncrement (bid : string) (bt : Batch) :
  ids bid ->
  all_acts (issues ids counts units) (afterIncrement bid bt).
Proof. intro H. unfold afterIncrement. acts. Qed.
Hint Resolve acts_afterIncrement : acts.

Lemma acts_triggerPartialCompletion (batch : Batch) :
  ids (batchId batch) ->
  all_acts (issues ids counts units) (triggerPartialCompletion batch).
Proof. intro H. unfold triggerPartialCompletion. acts. Qed.

End Footprints.

#[export] Hint Resolve acts_sendLoop acts_triggerAudioGeneration
  acts_checkBatchAudioCompletion acts_handlePartialCompletion
  acts_handleFullCompletion acts_evaluate acts_afterIncrement
  acts_triggerPartialCompletion : acts.

Section CountingFootprints.

Import AudioGenerationService WebhookServices BatchTimeoutService.

Variable ids : string -> Prop.
Variable units : bool.

Lemma acts_checkBatchCompletion (bid : string) :
  ids bid ->
  all_acts (issues ids true units) (checkBatchCompletion bid).
Proof.
  intro H. unfold checkBatchCompletion, checkBatchCompletion_handler. acts.
Qed.

Lemma acts_recoverFailedBatch (batch : Batch) (n : nat) :
  ids (batchId batch) ->
  all_acts (issues ids true units) (recoverFailedBatch batch n).
Proof. intro H. unfold recoverFailedBatch. acts. Qed.

Lemma acts_handleTimeoutBatch (batch : Batch) :
  ids (batchId batch) ->
  all_acts (issues ids true units) (handleTimeoutBatch batch).
Proof. intro H. unfold handleTimeoutBatch. acts. Qed.

Lemma acts_checkOrphaned (batch : Batch) :
  ids (batchId batch) ->
  all_acts (issues ids true units) (checkOrphaned batch).
Proof.
  intro H. unfold checkOrphaned.
  pose proof (fun n => acts_recoverFailedBatch batch n H). acts.
Qed.

Lemma acts_checkPartial (batch : Batch) :
  ids (batchId batch) ->
  all_acts (issues ids true units) (checkPartial batch).
Proof.
  intro H. unfold checkPartial.
  pose proof (acts_triggerPartialCompletion ids true units batch H). acts.
Qed.

End CountingFootprints.

#[export] Hint Resolve acts_checkBatchCompletion acts_recoverFailedBatch
  acts_handleTimeoutBatch acts_checkOrphaned acts_checkPartial : acts.

Section EngineFootprints.

Import WebhookServices BatchTimeoutService.

Lemma any_id_I (bid : string) : any_id bid.
Proof. exact I. Qed.
Hint Resolve any_id_I : core acts.

Lemma acts_saveSummary (summary uid ty title : string) (bid : option string) :
  all_acts (issues any_id true true) (saveSummary summary uid ty title bid).
Proof. unfold saveSummary, AiSummaries.create. acts. Qed.

Lemma acts_getMixInfoByTimeOfDay (ids : string -> Prop) (c u : bool) :
  all_acts (issues ids c u) getMixInfoByTimeOfDay.
Proof. unfold getMixInfoByTimeOfDay. acts. Qed.
Hint Resolve acts_getMixInfoByTimeOfDay : acts.

Lemma acts_handleSummaryAudioGenerationSuccess (url uid : string) (sid : nat)
  (bid : option string) :
  all_acts (issues any_id true true)
    (handleSummaryAudioGenerationSuccess url uid sid bid).
Proof.
  unfold handleSummaryAudioGenerationSuccess, UserMixes.create. acts.
Qed.

Lemma acts_handleAudioGenerationSuccess (url uid bid : string) :
  all_acts (issues any_id true true) (handleAudioGenerationSuccess url uid bid).
Proof. unfold handleAudioGenerationSuccess, UserMixes.create. acts. Qed.

Lemma acts_handleAudioGenerationFailure (bid msg uid : string) :
  all_acts (issues any_id true true) (handleAudioGenerationFailure bid msg uid).
Proof. unfold handleAudioGenerationFailure. acts. Qed.

Lemma acts_processTimeoutBatches (u : bool) :
  all_acts (issues any_id true u) processTimeoutBatches.
Proof.
  unfold processTimeoutBatches. acts. apply all_acts_forEach. acts.
Qed.

Lemma acts_processOrphanedSummaries (u : bool) :
  all_acts (issues any_id true u) processOrphanedSummaries.
Proof.
  unfold processOrphanedSummaries. acts. apply all_acts_forEach. acts.
Qed.

Lemma acts_checkPartialCompletionBatches (u : bool) :
  all_acts (issues any_id true u) checkPartialCompletionBatches.
Proof.
  unfold checkPartialCompletionBatches. acts. apply all_acts_forEach. acts.
Qed.

Lemma acts_runPeriodicMaintenance (u : bool) :
  all_acts (issues any_id true u) runPeriodicMaintenance.
Proof.
  unfold runPeriodicMaintenance, getBatchStatistics.
  pose proof (acts_processTimeoutBatches u).
  pose proof (acts_processOrphanedSummaries u).
  pose proof (acts_checkPartialCompletionBatches u).
  acts.
Qed.

End EngineFootprints.

(** ** What the actions keep *)

Lemma exec_cases {X} (op : Op X) (w : World) :
  exists fs,
    exec op w = (Fail DbFailure, set_faults w fs, []) \/
    exec op w = (Ok (fst (fst (perform op (set_faults w fs)))),
                 snd (fst (perform op (set_faults w fs))),
                 snd (perform op (set_faults w fs))).
Proof.
  assert (E : set_faults w (faults w) = w) by (destruct w; reflexivity).
  unfold exec. destruct (fallible op).
  - destruct (faults w) as [| [] fs] eqn:F.
    + exists []. right.
      rewrite E.
      destruct (perform op w) as [[x w'] ev]. reflexivity.
    + exists fs. left. reflexivity.
    + exists fs. right. destruct (perform op _) as [[x w'] ev]. reflexivity.
  - exists (faults w). right. rewrite E.
    destruct (perform op w) as [[x w'] ev]. reflexivity.
Qed.

(** Lifting a fact about [perform] to [exec], for properties of worlds
    that do not look at the failure plan. *)
Lemma exec_keeps {X} (op : Op X) (I : World -> Prop) (w : World) :
  (forall fs, I (set_faults w fs)) ->
  (forall w0, I w0 -> I (snd (fst (perform op w0)))) ->
  I (snd (fst (exec op w))).
Proof.
  intros Hf Hp. destruct (exec_cases op w) as [fs [E | E]]; rewrite E; simpl; auto.
Qed.

Lemma exec_events {X} (op : Op X) (Q : Event -> Prop) (w : World) :
  (forall w0, Forall Q (snd (perform op w0))) -> Forall Q (snd (exec op w)).
Proof.
  intros Hp. destruct (exec_cases op w) as [fs [E | E]]; rewrite E; simpl; auto.
Qed.

Lemma perform_unique {X} (op : Op X) (w : World) :
  unique_ids (batches w) -> unique_ids (batches (snd (fst (perform op w)))).
Proof.
  intro U. destruct op; simpl; auto.
  - destruct (find_batch f (batches w)); simpl; auto.
    apply update_batch_unique. exact U.
  - destruct (find (summary_match sid uid) (summaries w)); simpl; auto.
Qed.

Lemma run_unique {A} (p : Prog A) (w : World) :
  unique_ids (batches w) -> unique_ids (batches (world (run p w))).
Proof.
  apply (run_preserves (fun _ _ => True) (fun w => unique_ids (batches w))).
  - intros X op w0 _ U. apply exec_keeps; auto. intros. apply perform_unique. auto.
  - clear. induction p; simpl; auto.
Qed.

Lemma run_nofaults {A} (p : Prog A) (w : World) :
  faults w = [] -> faults (world (run p w)) = [].
Proof.
  apply (run_preserves (fun _ _ => True) (fun w => faults w = [])).
  - intros X op w0 _ F. rewrite exec_nofaults by assumption. simpl.
    rewrite perform_faults. exact F.
  - clear. induction p; simpl; auto.
Qed.

Section Frames.

Variable ids : string -> Prop.
Variable counts units : bool.

Lemma perform_summaries {X} (op : Op X) (w : World) :
  issues ids counts false X op ->
  summaries (snd (fst (perform op w))) = summaries w /\
  mixes (snd (fst (perform op w))) = mixes w.
Proof.
  destruct op; simpl; intro H; try discriminate; auto.
  destruct (find_batch f (batches w)); auto.
Qed.

Lemma run_summaries {A} (p : Prog A) (w : World) :
  all_acts (issues ids counts false) p ->
  summaries (world (run p w)) = summaries w.
Proof.
  intro H.
  apply (run_preserves (issues ids counts false)
           (fun w' => summaries w' = summaries w)); auto.
  intros X op w0 Hop E. apply exec_keeps; auto.
  intros w1 E1. rewrite <- E1. apply perform_summaries. exact Hop.
Qed.

Lemma engine_write_id (f : BFilter) (u : list BSet) :
  engine_write ids counts f u -> ids (f_batchId f).
Proof. intro H. destruct H; assumption. Qed.

Lemma perform_lookup_other {X} (op : Op X) (w : World) (bid : string) :
  issues ids counts units X op -> ~ ids bid ->
  lookup bid (batches (snd (fst (perform op w)))) = lookup bid (batches w).
Proof.
  destruct op; simpl; intros H N; auto.
  - destruct (find_batch f (batches w)); auto. simpl.
    apply lookup_update_other; [intro; apply apply_update_id |].
    intros ->. apply N. eapply engine_write_id. exact H.
  - destruct (find (summary_match sid uid) (summaries w)); auto.
Qed.

Lemma run_lookup_other {A} (p : Prog A) (w : World) (bid : string) :
  all_acts (issues ids counts units) p -> ~ ids bid ->
  lookup bid (batches (world (run p w))) = lookup bid (batches w).
Proof.
  intros H N.
  apply (run_preserves (issues ids counts units)
           (fun w' => lookup bid (batches w') = lookup bid (batches w))); auto.
  intros X op w0 Hop E. apply exec_keeps; auto.
  intros w1 E1. rewrite <- E1. apply perform_lookup_other; assumption.
Qed.

(** The batch an event is about, when it is a status write or a request. *)
Definition event_within (e : Event) : Prop :=
  match e with
  | EvStatus bid _ _ => ids bid
  | EvPost r => ids (r_batchId r)
  | EvLog _ => True
  end.

Lemma perform_events_within {X} (op : Op X) (w : World) :
  issues ids counts units X op -> Forall event_within (snd (perform op w)).
Proof.
  destruct op; simpl; intro H; auto;
    try (repeat constructor; simpl; auto; fail).
  - destruct (find_batch f (batches w)) as [b |] eqn:E; simpl; auto.
    destruct (sets_status u); auto. constructor; auto. simpl.
    apply find_some in E as [_ E]. unfold filter_match in E.
    apply andb_true_iff in E as [E _]. apply String.eqb_eq in E. rewrite E.
    eapply engine_write_id. exact H.
  - destruct (find (summary_match sid uid) (summaries w)); simpl; auto.
Qed.

Lemma run_events_within {A} (p : Prog A) (w : World) :
  all_acts (issues ids counts units) p -> Forall event_within (events (run p w)).
Proof.
  apply run_events_all. intros X op w0 H. apply exec_events.
  intro w1. apply perform_events_within. exact H.
Qed.

End Frames.

(** ** Writing the tracker of one batch *)

(** The collection with the tracker of [batchId b'] replaced by [b']. *)
Definition put (b' : Batch) (bs : list Batch) : list Batch :=
  update_batch (mkFilter (batchId b') AnyStatus) (fun _ => b') bs.

Lemma update_batch_put (bid : string) (c : StatusCond) (g : Batch -> Batch)
  (bs : list Batch) (b : Batch) :
  lookup bid bs = Some b -> cond_holds c (status b) = true ->
  batchId (g b) = bid ->
  update_batch (mkFilter bid c) g bs = put (g b) bs.
Proof.
  unfold put. intros L C G. rewrite G. clear G.
  induction bs as [| x bs IH]; [discriminate |].
  rewrite lookup_cons in L. simpl. unfold filter_match. simpl.
  destruct (String.eqb (batchId x) bid) eqn:E; simpl.
  - injection L as ->. rewrite C. reflexivity.
  - rewrite IH by exact L. reflexivity.
Qed.

Lemma lookup_put (b' : Batch) (bs : list Batch) (b : Batch) :
  lookup (batchId b') bs = Some b -> lookup (batchId b') (put b' bs) = Some b'.
Proof.
  unfold put. induction bs as [| x bs IH]; [discriminate |].
  rewrite lookup_cons. simpl. rewrite filter_match_any.
  destruct (String.eqb (batchId x) (batchId b')) eqn:E.
  - intros _. rewrite lookup_cons, String.eqb_refl. reflexivity.
  - intro L. rewrite lookup_cons, E. apply IH. exact L.
Qed.

Lemma lookup_put_other (bid : string) (b' : Batch) (bs : list Batch) :
  bid <> batchId b' -> lookup bid (put b' bs) = lookup bid bs.
Proof.
  unfold put. intro N. induction bs as [| x bs IH]; [reflexivity |].
  simpl. rewrite filter_match_any.
  destruct (String.eqb (batchId x) (batchId b')) eqn:E.
  - rewrite !lookup_cons. apply String.eqb_eq in E.
    destruct (String.eqb (batchId b') bid) eqn:E1;
      [apply String.eqb_eq in E1; congruence |].
    rewrite E, E1. reflexivity.
  - rewrite !lookup_cons, IH. reflexivity.
Qed.

Lemma put_ids (b' : Batch) (bs : list Batch) :
  map batchId (put b' bs) = map batchId bs.
Proof.
  unfold put. induction bs as [| x bs IH]; [reflexivity |].
  simpl. rewrite filter_match_any.
  destruct (String.eqb (batchId x) (batchId b')) eqn:E; simpl.
  - apply String.eqb_eq in E. rewrite E. reflexivity.
  - rewrite IH. reflexivity.
Qed.

Lemma put_unique (b' : Batch) (bs : list Batch) :
  unique_ids bs -> unique_ids (put b' bs).
Proof. unfold unique_ids. rewrite put_ids. tauto. Qed.

Lemma put_put (b1 b2 : Batch) (bs : list Batch) :
  batchId b1 = batchId b2 -> put b2 (put b1 bs) = put b2 bs.
Proof.
  unfold put. intro E. rewrite E. induction bs as [| x bs IH]; [reflexivity |].
  simpl. rewrite filter_match_any.
  destruct (String.eqb (batchId x) (batchId b2)) eqn:E1; simpl;
    rewrite filter_match_any.
  - rewrite E, String.eqb_refl. reflexivity.
  - rewrite E1, IH. reflexivity.
Qed.

Lemma put_same (b : Batch) (bs : list Batch) :
  lookup (batchId b) bs = Some b -> put b bs = bs.
Proof.
  unfold put. induction bs as [| x bs IH]; [reflexivity |].
  rewrite lookup_cons. simpl. rewrite filter_match_any.
  destruct (String.eqb (batchId x) (batchId b)) eqn:E.
  - intros [= ->]. reflexivity.
  - intro L. rewrite IH by exact L. reflexivity.
Qed.

Section StoreSteps.

Variables (bs : list Batch) (ss : list Summary) (ms : list Mix).
Variables (t : Date) (n : nat).

(** A conditional update that finds its document. *)
Lemma run_update_hit (bid : string) (c : StatusCond) (u : list BSet)
  (returnNew : bool) (b : Batch) :
  lookup bid bs = Some b -> cond_holds c (status b) = true ->
  run (await (BT_findOneAndUpdate (mkFilter bid c) u returnNew))
      (mkWorld bs ss ms t n []) =
  mkOutcome (Ok (Some (if returnNew then apply_update t u b else b)))
    (mkWorld (put (apply_update t u b) bs) ss ms t n [])
    (if sets_status u
     then [EvStatus bid (status b) (status (apply_update t u b))] else []).
Proof.
  intros L C. await_nf. rewrite (find_batch_hit bid c bs b L C).
  cbn [fst snd]. rewrite (lookup_id _ _ _ L).
  rewrite (update_batch_put bid c _ bs b L C)
    by (rewrite apply_update_id; apply (lookup_id _ _ _ L)).
  reflexivity.
Qed.

(** A conditional update whose condition the tracker no longer meets. *)
Lemma run_update_miss (bid : string) (c : StatusCond) (u : list BSet)
  (returnNew : bool) (b : Batch) :
  unique_ids bs -> lookup bid bs = Some b -> cond_holds c (status b) = false ->
  run (await (BT_findOneAndUpdate (mkFilter bid c) u returnNew))
      (mkWorld bs ss ms t n []) =
  mkOutcome (Ok None) (mkWorld bs ss ms t n []) [].
Proof.
  intros U L C. await_nf. rewrite (find_batch_miss bid c bs b U L C).
  reflexivity.
Qed.

Lemma run_update_absent (bid : string) (c : StatusCond) (u : list BSet)
  (returnNew : bool) :
  lookup bid bs = None ->
  run (await (BT_findOneAndUpdate (mkFilter bid c) u returnNew))
      (mkWorld bs ss ms t n []) =
  mkOutcome (Ok None) (mkWorld bs ss ms t n []) [].
Proof.
  intros L. await_nf. rewrite (find_batch_none bid c bs L). reflexivity.
Qed.

Lemma run_findOne (bid : string) :
  run (await (BT_findOne bid)) (mkWorld bs ss ms t n []) =
  mkOutcome (Ok (lookup bid bs)) (mkWorld bs ss ms t n []) [].
Proof. rewrite run_await_nf by reflexivity. reflexivity. Qed.

Lemma run_count (bid : string) (withAudio : bool) :
  run (await (AS_countDocuments bid withAudio)) (mkWorld bs ss ms t n []) =
  mkOutcome (Ok (count_summaries bid withAudio ss)) (mkWorld bs ss ms t n []) [].
Proof. rewrite run_await_nf by reflexivity. reflexivity. Qed.

End StoreSteps.

(** ** The timeout pass, one batch *)

(** The tracker with receivedCount corrected to [n]. *)
Definition reconciled (n : nat) (b : Batch) : Batch := apply_set 0 b (SetReceived n).

Lemma count_split (bid : string) (ss : list Summary) :
  count_summaries bid false ss =
  count_summaries bid true ss + List.length (summaries_without_audio bid ss).
Proof.
  unfold count_summaries, summaries_without_audio.
  induction ss as [| s ss IH]; [reflexivity |].
  simpl. destruct (in_batch bid s); simpl; [| exact IH].
  destruct (isAudioGenerated s); simpl; lia.
Qed.

Section TimeoutSteps.
Import AudioGenerationService BatchTimeoutService.
Variables (bs : list Batch) (ss : list Summary) (ms : list Mix).
Variables (t : Date) (n : nat).
Variable b : Batch.
Hypothesis fresh : lookup (batchId b) bs = Some b.
Hypothesis uniq : unique_ids bs.

Let total := count_summaries (batchId b) false ss.
Let withAudio := count_summaries (batchId b) true ss.

Lemma reconcile_step :
  run (when (negb (total =? receivedCount b))
         (await (BT_findOneAndUpdate (mkFilter (batchId b) AnyStatus)
                   [SetReceived total] false) ;; Ret tt))
      (mkWorld bs ss ms t n []) =
  mkOutcome (Ok tt) (mkWorld (put (reconciled total b) bs) ss ms t n []) [].
Proof.
  destruct (total =? receivedCount b) eqn:E; cbn [negb]; run_norm.
  - apply Nat.eqb_eq in E.
    replace (reconciled total b) with b
      by (unfold reconciled; rewrite E; destruct b; reflexivity).
    rewrite put_same by exact fresh. reflexivity.
  - rewrite (run_update_hit bs ss ms t n _ AnyStatus _ _ b fresh eq_refl).
    run_norm. reflexivity.
Qed.

Lemma timeout_no_units :
  status_in (status b) [pending; partial_complete] = true ->
  total = 0 ->
  run (handleTimeoutBatch b) (mkWorld bs ss ms t n []) =
  mkOutcome (Ok tt)
    (mkWorld (put (apply_update t [SetStatus failed; StampCompletedAt]
                     (reconciled 0 b)) bs) ss ms t n [])
    [EvLog (mkLog Warn "Batch ${batch.batchId} timed out after 30 minutes" (batchId b));
     EvStatus (batchId b) (status b) failed;
     EvLog (mkLog Error "Batch ${batch.batchId} failed - no summaries found within timeout period" (batchId b))].
Proof.
  intros S Z. unfold handleTimeoutBatch. rewrite S. cbn [negb].
  run_norm. rewrite run_count. run_norm. rewrite run_count. run_norm.
  fold total. rewrite reconcile_step. run_norm. rewrite Z. cbn [Nat.ltb Nat.leb].
  run_norm.
  rewrite (run_update_hit _ ss ms t n (batchId b) _ _ _ (reconciled 0 b)).
  - run_norm. cbn [sets_status existsb orb app]. rewrite put_put by reflexivity.
    reflexivity.
  - apply (lookup_put (reconciled 0 b) bs b). exact fresh.
  - exact S.
Qed.

Let lacking := summaries_without_audio (batchId b) ss.
Let b1 := reconciled total b.
Let b2 := apply_update t [SetStatus complete; StampCompletedAt] b1.

Lemma timeout_pending_dispatch :
  status b = pending -> withAudio < total ->
  run (handleTimeoutBatch b) (mkWorld bs ss ms t n []) =
  let t' := t + 1000 * (List.length lacking - 1) in
  mkOutcome (Ok tt)
    (mkWorld (put (apply_update t' [SetStatus audio_requested; StampAudioRequestedAt] b2) bs)
       ss ms t' n [])
    ([EvLog (mkLog Warn "Batch ${batch.batchId} timed out after 30 minutes" (batchId b));
      EvStatus (batchId b) pending complete]
     ++ events (trigger_outcome (batchId b) (mkWorld (put b2 bs) ss ms t n []))
     ++ [EvStatus (batchId b) complete audio_requested;
         EvLog (mkLog Info "Triggered audio generation for timed-out batch ${batch.batchId}" (batchId b))]).
Proof.
  intros S Lt. unfold handleTimeoutBatch. rewrite S.
  cbn [negb status_in existsb Status_eqb orb].
  run_norm. rewrite run_count. run_norm. rewrite run_count. run_norm.
  fold total withAudio. rewrite reconcile_step. run_norm.
  assert (P : 0 < total) by lia. apply Nat.ltb_lt in P. rewrite P.
  run_norm.
  assert (L1 : lookup (batchId b) (put b1 bs) = Some b1)
    by (apply (lookup_put b1 bs b); exact fresh).
  assert (S1 : status b1 = pending) by exact S.
  rewrite (run_update_hit _ ss ms t n (batchId b) _ _ _ b1 L1)
    by (cbn [cond_holds]; rewrite S1; reflexivity).
  fold b2. run_norm. rewrite put_put by reflexivity.
  assert (N : (0 <? total - withAudio) = true) by (apply Nat.ltb_lt; lia).
  rewrite N. run_norm. rewrite run_triggerAudioGeneration by reflexivity.
  assert (L2 : lookup (batchId b) (put b2 bs) = Some b2)
    by (apply (lookup_put b2 bs b); exact fresh).
  assert (T2 : trigger_outcome (batchId b) (mkWorld (put b2 bs) ss ms t n []) =
     mkOutcome (Ok tt)
       (mkWorld (put b2 bs) ss ms (t + 1000 * (List.length lacking - 1)) n [])
       (events (trigger_outcome (batchId b) (mkWorld (put b2 bs) ss ms t n [])))).
  { unfold trigger_outcome. cbn [batches summaries clock]. rewrite L2.
    change (audio_already_processed (Some b2)) with false.
    fold lacking.
    assert (K : (List.length lacking =? 0) = false).
    { apply Nat.eqb_neq. unfold total, withAudio in Lt.
      rewrite count_split in Lt. fold lacking in Lt. lia. }
    rewrite K. reflexivity. }
  rewrite T2 at 1. run_norm.
  rewrite (run_update_hit _ ss ms _ n (batchId b) _ _ _ b2 L2) by reflexivity.
  run_norm. rewrite put_put by reflexivity.
  cbv zeta. rewrite S1. cbn [sets_status existsb orb].
  change (status b2) with complete.
  cbn [app]. rewrite <- ?app_assoc. reflexivity.
Qed.

Lemma timeout_pending_all_audio :
  status b = pending -> 0 < total -> total <= withAudio ->
  run (handleTimeoutBatch b) (mkWorld bs ss ms t n []) =
  mkOutcome (Ok tt)
    (mkWorld (put (apply_update t [SetStatus audio_complete; StampAudioCompletedAt] b2) bs)
       ss ms t n [])
    [EvLog (mkLog Warn "Batch ${batch.batchId} timed out after 30 minutes" (batchId b));
     EvStatus (batchId b) pending complete;
     EvStatus (batchId b) complete audio_complete;
     EvLog (mkLog Info "All summaries in timed-out batch ${batch.batchId} already have audio, marked as audio_complete" (batchId b))].
Proof.
  intros S P Le. unfold handleTimeoutBatch. rewrite S.
  cbn [negb status_in existsb Status_eqb orb].
  run_norm. rewrite run_count. run_norm. rewrite run_count. run_norm.
  fold total withAudio. rewrite reconcile_step. run_norm.
  apply Nat.ltb_lt in P. rewrite P. run_norm.
  assert (L1 : lookup (batchId b) (put b1 bs) = Some b1)
    by (apply (lookup_put b1 bs b); exact fresh).
  assert (S1 : status b1 = pending) by exact S.
  rewrite (run_update_hit _ ss ms t n (batchId b) _ _ _ b1 L1)
    by (cbn [cond_holds]; rewrite S1; reflexivity).
  fold b2. run_norm. rewrite put_put by reflexivity.
  assert (N : (0 <? total - withAudio) = false) by (apply Nat.ltb_ge; lia).
  rewrite N. run_norm.
  assert (L2 : lookup (batchId b) (put b2 bs) = Some b2)
    by (apply (lookup_put b2 bs b); exact fresh).
  rewrite (run_update_hit _ ss ms _ n (batchId b) _ _ _ b2 L2) by reflexivity.
  run_norm. rewrite put_put by reflexivity.
  rewrite S1. cbn [sets_status existsb orb].
  change (status b2) with complete. reflexivity.
Qed.

Lemma timeout_partial :
  status b = partial_complete -> 0 < total ->
  run (handleTimeoutBatch b) (mkWorld bs ss ms t n []) =
  mkOutcome (Ok tt) (mkWorld (put b2 bs) ss ms t n [])
    [EvLog (mkLog Warn "Batch ${batch.batchId} timed out after 30 minutes" (batchId b));
     EvStatus (batchId b) partial_complete complete;
     EvLog (mkLog Info "Batch ${batch.batchId} was already partially processed, marked as complete" (batchId b))].
Proof.
  intros S P. unfold handleTimeoutBatch. rewrite S.
  cbn [negb status_in existsb Status_eqb orb].
  run_norm. rewrite run_count. run_norm. rewrite run_count. run_norm.
  fold total withAudio. rewrite reconcile_step. run_norm.
  apply Nat.ltb_lt in P. rewrite P. run_norm.
  assert (L1 : lookup (batchId b) (put b1 bs) = Some b1)
    by (apply (lookup_put b1 bs b); exact fresh).
  assert (S1 : status b1 = partial_complete) by exact S.
  rewrite (run_update_hit _ ss ms t n (batchId b) _ _ _ b1 L1)
    by (cbn [cond_holds]; rewrite S1; reflexivity).
  fold b2. run_norm. rewrite put_put by reflexivity.
  rewrite S1. cbn [sets_status existsb orb].
  change (status b2) with complete. reflexivity.
Qed.
End TimeoutSteps.

(** ** Traces seen from one batch *)

(** The status writes of a trace on batch [bid], as (old, new). *)
Definition writes_of (bid : string) (ev : list Event) : list (Status * Status) :=
  flat_map (fun e => match e with
                     | EvStatus i old new =>
                         if String.eqb i bid then [(old, new)] else []
                     | _ => []
                     end) ev.

(** The requests of a trace sent for batch [bid]. *)
Definition posts_of (bid : string) (ev : list Event) : list AudioRequest :=
  flat_map (fun e => match e with
                     | EvPost r =>
                         if String.eqb (r_batchId r) bid then [r] else []
                     | _ => []
                     end) ev.

Lemma writes_of_app (bid : string) (e1 e2 : list Event) :
  writes_of bid (e1 ++ e2) = writes_of bid e1 ++ writes_of bid e2.
Proof. apply flat_map_app. Qed.

Lemma posts_of_app (bid : string) (e1 e2 : list Event) :
  posts_of bid (e1 ++ e2) = posts_of bid e1 ++ posts_of bid e2.
Proof. apply flat_map_app. Qed.

Lemma posts_of_posts_from (bid : string) (t : Date) (l : list Summary) :
  map r_summaryId (posts_of bid (posts_from t l bid)) = map s_id l /\
  writes_of bid (posts_from t l bid) = [].
Proof.
  revert t. induction l as [| s l IH]; intro t; [split; reflexivity |].
  cbn [posts_from posts_of writes_of flat_map request_of r_batchId app].
  rewrite String.eqb_refl. cbn [app map r_summaryId].
  destruct (IH (t + 1000)) as [IH1 IH2]. split.
  - f_equal. exact IH1.
  - exact IH2.
Qed.

Lemma trigger_outcome_trace (bid : string) (w : World) :
  AudioGenerationService.audio_already_processed (lookup bid (batches w)) = false ->
  map r_summaryId (posts_of bid (events (trigger_outcome bid w)))
    = map s_id (summaries_without_audio bid (summaries w)) /\
  writes_of bid (events (trigger_outcome bid w)) = [].
Proof.
  intro H. unfold trigger_outcome. rewrite H.
  destruct (List.length (summaries_without_audio bid (summaries w)) =? 0) eqn:E.
  - apply Nat.eqb_eq in E. apply length_zero_iff_nil in E. rewrite E.
    split; reflexivity.
  - cbn [events].
    destruct (posts_of_posts_from bid (clock w)
                (summaries_without_audio bid (summaries w))) as [P W].
    rewrite !posts_of_app, !writes_of_app, W.
    destruct (0 <? _); cbn [posts_of writes_of flat_map log_triggering app];
      rewrite app_nil_r; split; auto.
Qed.

Lemma event_within_outside (ids : string -> Prop) (bid : string)
  (ev : list Event) :
  Forall (event_within ids) ev -> ~ ids bid ->
  writes_of bid ev = [] /\ posts_of bid ev = [].
Proof.
  intros H N. induction H as [| e ev He _ IH]; [split; reflexivity |].
  destruct IH as [IH1 IH2].
  destruct e as [i old new | l | r]; cbn [writes_of posts_of flat_map];
    fold (writes_of bid ev); fold (posts_of bid ev); rewrite ?IH1, ?IH2;
    simpl in He.
  - destruct (String.eqb i bid) eqn:E; [| split; reflexivity].
    apply String.eqb_eq in E. subst i. contradiction.
  - split; reflexivity.
  - destruct (String.eqb (r_batchId r) bid) eqn:E; [| split; reflexivity].
    apply String.eqb_eq in E. rewrite E in He. contradiction.
Qed.

(** ** Sweeps over snapshots: one batch at a time *)

Lemma In_lookup (bs : list Batch) (b : Batch) :
  unique_ids bs -> In b bs -> lookup (batchId b) bs = Some b.
Proof.
  unfold unique_ids. induction bs as [| x bs IH]; [contradiction |].
  simpl. intros U [-> | H].
  - rewrite lookup_cons, String.eqb_refl. reflexivity.
  - inversion U as [| ? ? N U']; subst. rewrite lookup_cons.
    destruct (String.eqb (batchId x) (batchId b)) eqn:E; [| auto].
    apply String.eqb_eq in E. exfalso. apply N. rewrite E.
    apply in_map. exact H.
Qed.

Lemma unique_ids_filter (keep : Batch -> bool) (bs : list Batch) :
  unique_ids bs -> unique_ids (filter keep bs).
Proof.
  unfold unique_ids. induction bs as [| b bs IH]; simpl; [auto |].
  intro U. inversion U as [| ? ? Fresh U']; subst.
  destruct (keep b); simpl; auto. constructor; auto.
  intro K. apply Fresh. apply in_map_iff in K as (y & E & Hy).
  apply filter_In in Hy as [Hy _]. rewrite <- E. apply in_map. exact Hy.
Qed.

Lemma engine_write_mono (ids ids' : string -> Prop) (c : bool)
  (f : BFilter) (u : list BSet) :
  (forall i, ids i -> ids' i) -> engine_write ids c f u -> engine_write ids' c f u.
Proof. intros H W. destruct W; constructor; auto. Qed.

Lemma issues_mono (ids ids' : string -> Prop) (c u : bool) X (op : Op X) :
  (forall i, ids i -> ids' i) -> issues ids c u X op -> issues ids' c u X op.
Proof.
  intros H. destruct op; simpl; auto. apply engine_write_mono. exact H.
Qed.

Lemma run_forEach_cons {X} (x : X) (l : list X) (h : X -> Prog unit) (w : World) :
  result (run (h x) w) = Ok tt ->
  run (forEach (x :: l) h) w =
  prepend (events (run (h x) w)) (run (forEach l h) (world (run (h x) w))).
Proof.
  intro R. cbn [forEach]. rewrite run_bind. unfold andThen. rewrite R.
  reflexivity.
Qed.

Section Isolation.

Variable h : Batch -> Prog unit.
Hypothesis h_footprint :
  forall x, all_acts (issues (eq (batchId x)) true false) (h x).
Hypothesis h_total :
  forall x w, faults w = [] -> result (run (h x) w) = Ok tt.

Lemma forEach_footprint (l : list Batch) :
  all_acts (issues (fun i => In i (map batchId l)) true false) (forEach l h).
Proof.
  apply all_acts_forEach. intros x Hx.
  apply (all_acts_mono (issues (eq (batchId x)) true false)); auto.
  intros X op. apply issues_mono. intros i <-. apply in_map. exact Hx.
Qed.

Lemma forEach_result (l : list Batch) (w : World) :
  faults w = [] -> result (run (forEach l h) w) = Ok tt.
Proof.
  revert w. induction l as [| x l IH]; intros w F; [reflexivity |].
  rewrite run_forEach_cons by (apply h_total; exact F).
  apply IH. apply run_nofaults. exact F.
Qed.

(** In a pass over snapshots with distinct ids, the batch [b] is handled
    in a world where only other batches were touched, and what happens
    after it touches only other batches. *)
Lemma forEach_isolated (l : list Batch) (w : World) (b : Batch) :
  faults w = [] -> unique_ids (batches w) ->
  NoDup (map batchId l) -> In b l ->
  exists w1 ev1 ev2,
    faults w1 = [] /\ unique_ids (batches w1) /\
    summaries w1 = summaries w /\
    lookup (batchId b) (batches w1) = lookup (batchId b) (batches w) /\
    lookup (batchId b) (batches (world (run (forEach l h) w)))
      = lookup (batchId b) (batches (world (run (h b) w1))) /\
    summaries (world (run (forEach l h) w)) = summaries w /\
    events (run (forEach l h) w) = ev1 ++ events (run (h b) w1) ++ ev2 /\
    writes_of (batchId b) ev1 = [] /\ posts_of (batchId b) ev1 = [] /\
    writes_of (batchId b) ev2 = [] /\ posts_of (batchId b) ev2 = [].
Proof.
  revert w. induction l as [| x l IH]; intros w F U N Hb; [contradiction |].
  simpl in N. inversion N as [| ? ? Nx N']; subst.
  rewrite run_forEach_cons by (apply h_total; exact F).
  cbn [prepend world events].
  destruct Hb as [-> | Hb].
  - exists w, [], (events (run (forEach l h) (world (run (h b) w)))).
    assert (Hout : ~ In (batchId b) (map batchId l)) by exact Nx.
    destruct (event_within_outside _ (batchId b) _
                (run_events_within _ true false _ (world (run (h b) w))
                   (forEach_footprint l)) Hout) as [W2 P2].
    repeat split; auto.
    + apply (run_lookup_other _ true false _ _ _ (forEach_footprint l) Hout).
    + rewrite (run_summaries _ true _ _ (forEach_footprint l)).
      apply (run_summaries _ true _ _ (h_footprint b)).
  - assert (Hne : batchId x <> batchId b).
    { intro E. apply Nx. rewrite E. apply in_map. exact Hb. }
    assert (Hout : ~ (batchId x = batchId b)) by exact Hne.
    destruct (event_within_outside _ (batchId b) _
                (run_events_within _ true false _ w (h_footprint x)) Hout)
      as [Wx Px].
    destruct (IH (world (run (h x) w))) as (w1 & ev1 & ev2 & H); auto.
    + apply run_nofaults. exact F.
    + apply run_unique. exact U.
    + destruct H as (F1 & U1 & S1 & L1 & L2 & S2 & E & A1 & A2 & A3 & A4).
      exists w1, (events (run (h x) w) ++ ev1), ev2.
      rewrite (run_summaries _ true _ _ (h_footprint x)) in S1, S2.
      rewrite (run_lookup_other _ true false _ _ _ (h_footprint x) Hout) in L1.
      repeat split; auto.
      * rewrite E, app_assoc. reflexivity.
      * rewrite writes_of_app, Wx, A1. reflexivity.
      * rewrite posts_of_app, Px, A2. reflexivity.
Qed.

End Isolation.

(** ** The timeout pass *)

(** What the timeout pass leaves of a timed-out batch [b], given the
    units persisted for it ([total], of which [withAudio] carry an
    artifact and [lacking] do not): the tracker [b'] after the pass and
    the trace [ev] of the pass. *)
Definition timeout_verdict (b : Batch) (total withAudio : nat)
  (lacking : list Summary) (b' : Batch) (ev : list Event) : Prop :=
  receivedCount b' = total /\
  (total = 0 ->
     status b' = failed /\
     writes_of (batchId b) ev = [(status b, failed)] /\
     posts_of (batchId b) ev = []) /\
  (0 < total -> status b = pending -> withAudio < total ->
     status b' = audio_requested /\
     writes_of (batchId b) ev = [(pending, complete); (complete, audio_requested)] /\
     map r_summaryId (posts_of (batchId b) ev) = map s_id lacking) /\
  (0 < total -> status b = pending -> total <= withAudio ->
     status b' = audio_complete /\
     writes_of (batchId b) ev = [(pending, complete); (complete, audio_complete)] /\
     posts_of (batchId b) ev = []) /\
  (0 < total -> status b = partial_complete ->
     status b' = complete /\
     writes_of (batchId b) ev = [(partial_complete, complete)] /\
     posts_of (batchId b) ev = []).

Lemma timeout_verdict_ext (b : Batch) (total withAudio : nat)
  (lacking : list Summary) (b' : Batch) (ev ev' : list Event) :
  writes_of (batchId b) ev' = writes_of (batchId b) ev ->
  posts_of (batchId b) ev' = posts_of (batchId b) ev ->
  timeout_verdict b total withAudio lacking b' ev ->
  timeout_verdict b total withAudio lacking b' ev'.
Proof. unfold timeout_verdict. intros -> ->. tauto. Qed.

Lemma writes_of_self (bid : string) (old new : Status) (ev : list Event) :
  writes_of bid (EvStatus bid old new :: ev) = (old, new) :: writes_of bid ev.
Proof. cbn [writes_of flat_map]. rewrite String.eqb_refl. reflexivity. Qed.

Lemma writes_of_log (bid : string) (l : LogLine) (ev : list Event) :
  writes_of bid (EvLog l :: ev) = writes_of bid ev.
Proof. reflexivity. Qed.

Lemma posts_of_status (bid i : string) (old new : Status) (ev : list Event) :
  posts_of bid (EvStatus i old new :: ev) = posts_of bid ev.
Proof. reflexivity. Qed.

Lemma posts_of_log (bid : string) (l : LogLine) (ev : list Event) :
  posts_of bid (EvLog l :: ev) = posts_of bid ev.
Proof. reflexivity. Qed.

Ltac trace_norm :=
  repeat first
    [ rewrite writes_of_app | rewrite posts_of_app
    | rewrite writes_of_self | rewrite writes_of_log
    | rewrite posts_of_status | rewrite posts_of_log ];
  cbn [app].

Lemma lookup_put_id (bid : string) (b' : Batch) (bs : list Batch) (b : Batch) :
  lookup bid bs = Some b -> batchId b' = bid ->
  lookup bid (put b' bs) = Some b'.
Proof. intros L <-. apply (lookup_put b' bs b L). Qed.

Section TimeoutPass.

Import BatchTimeoutService.

Lemma handleTimeoutBatch_spec (w : World) (b : Batch) :
  faults w = [] ->
  lookup (batchId b) (batches w) = Some b ->
  status_in (status b) [pending; partial_complete] = true ->
  exists b',
    lookup (batchId b) (batches (world (run (handleTimeoutBatch b) w))) = Some b' /\
    timeout_verdict b
      (count_summaries (batchId b) false (summaries w))
      (count_summaries (batchId b) true (summaries w))
      (summaries_without_audio (batchId b) (summaries w))
      b' (events (run (handleTimeoutBatch b) w)).
Proof.
  destruct w as [bs ss ms t n fs]. cbn [faults batches summaries].
  intros -> L S.
  set (total := count_summaries (batchId b) false ss).
  set (withAudio := count_summaries (batchId b) true ss).
  destruct (Nat.eq_dec total 0) as [Z | NZ].
  - rewrite (timeout_no_units bs ss ms t n b L S Z). cbn [world batches events].
    eexists. split; [apply (lookup_put_id _ _ bs b L); reflexivity |].
    unfold timeout_verdict. trace_norm.
    repeat split; try (intros; lia); try reflexivity. symmetry. exact Z.
  - assert (P : 0 < total) by lia.
    assert (St : status b = pending \/ status b = partial_complete)
      by (destruct (status b); try discriminate; auto).
    destruct St as [St | St].
    + destruct (Nat.lt_ge_cases withAudio total) as [Lt | Ge].
      * rewrite (timeout_pending_dispatch bs ss ms t n b L St Lt).
        cbv zeta. cbn [world batches events].
        eexists. split; [apply (lookup_put_id _ _ bs b L); reflexivity |].
        destruct (trigger_outcome_trace (batchId b)
                    (mkWorld (put (apply_update t [SetStatus complete; StampCompletedAt]
                                     (reconciled total b)) bs) ss ms t n []))
          as [TP TW].
        { cbn [batches]. rewrite (lookup_put_id _ _ bs b L) by reflexivity.
          reflexivity. }
        unfold timeout_verdict. fold total. trace_norm. rewrite TW.
        split; [reflexivity |]. split; [intros; lia |].
        split; [| split; [intros; lia | intros; congruence]].
        intros _ _ _. cbn [app]. rewrite ?app_nil_r.
        repeat split; try reflexivity.
        change (posts_of (batchId b) []) with (@nil AudioRequest).
        exact TP.
      * rewrite (timeout_pending_all_audio bs ss ms t n b L St P Ge).
        cbn [world batches events].
        eexists. split; [apply (lookup_put_id _ _ bs b L); reflexivity |].
        unfold timeout_verdict. trace_norm.
        repeat split; try (intros; lia); try (intros; congruence); reflexivity.
    + rewrite (timeout_partial bs ss ms t n b L St P). cbn [world batches events].
      eexists. split; [apply (lookup_put_id _ _ bs b L); reflexivity |].
      unfold timeout_verdict. trace_norm.
      repeat split; try (intros; lia); try (intros; congruence); reflexivity.
Qed.

Lemma handleTimeoutBatch_total (b : Batch) (w : World) :
  faults w = [] -> result (run (handleTimeoutBatch b) w) = Ok tt.
Proof. intros _. apply try_log_never_throws. Qed.

(** The timeout pass seen from one timed-out batch. *)
Lemma timeout_pass_spec (w : World) (b : Batch) :
  faults w = [] -> unique_ids (batches w) ->
  In b (batches w) ->
  timeoutAt b <= clock w ->
  status_in (status b) [pending; partial_complete] = true ->
  let o := run processTimeoutBatches w in
  exists b',
    lookup (batchId b) (batches (world o)) = Some b' /\
    summaries (world o) = summaries w /\
    timeout_verdict b
      (count_summaries (batchId b) false (summaries w))
      (count_summaries (batchId b) true (summaries w))
      (summaries_without_audio (batchId b) (summaries w))
      b' (events o).
Proof.
  intros F U Hin Hto Hst o. subst o. unfold processTimeoutBatches.
  run_norm. rewrite run_await_nf by exact F. cbn [perform fst snd]. run_norm.
  set (l := filter (query_match (clock w) QTimedOut) (batches w)).
  assert (Hl : In b l).
  { apply filter_In. split; auto. cbn [query_match].
    apply andb_true_iff. split; [apply Nat.leb_le; exact Hto | exact Hst]. }
  destruct (forEach_isolated handleTimeoutBatch
              (fun x => acts_handleTimeoutBatch _ false x eq_refl)
              handleTimeoutBatch_total l w b F U
              (unique_ids_filter _ _ U) Hl)
    as (w1 & ev1 & ev2 & F1 & U1 & S1 & L1 & L2 & S2 & E & A1 & A2 & A3 & A4).
  rewrite (In_lookup _ _ U Hin) in L1.
  destruct (handleTimeoutBatch_spec w1 b F1 L1 Hst) as (b' & Lb & V).
  rewrite S1 in V.
  assert (R : result (run (forEach l handleTimeoutBatch) w) = Ok tt)
    by (apply forEach_result; [apply handleTimeoutBatch_total | exact F]).
  destruct (run (forEach l handleTimeoutBatch) w) as [r wf evf] eqn:Ef.
  cbn [result world events] in *. subst r. run_norm. cbn [world events].
  exists b'. split; [congruence |]. split; [exact S2 |].
  eapply timeout_verdict_ext; [| | exact V].
  - rewrite E. trace_norm. rewrite A1, A3, app_nil_r. reflexivity.
  - rewrite E. trace_norm. rewrite A2, A4, app_nil_r. reflexivity.
Qed.

(** C4 (as amended): the timeout pass sets receivedCount of every
    timed-out pending or partial_complete batch to the count of its
    persisted units; with no unit the batch becomes failed; with units, a
    pending batch becomes complete and exactly its units lacking an
    artifact are dispatched (it ends audio_requested, or audio_complete
    without dispatch when none lacks one), and a partial_complete batch
    is marked complete without any dispatch. *)
Theorem C4_timeout_pass_reconciles_and_forces_completion
  (w : World) (b : Batch) :
  faults w = [] -> unique_ids (batches w) ->
  In b (batches w) ->
  timeoutAt b <= clock w ->
  status_in (status b) [pending; partial_complete] = true ->
  let o := run processTimeoutBatches w in
  let total := count_summaries (batchId b) false (summaries w) in
  exists b',
    lookup (batchId b) (batches (world o)) = Some b' /\
    receivedCount b' = count_summaries (batchId b) false (summaries (world o)) /\
    timeout_verdict b total
      (count_summaries (batchId b) true (summaries w))
      (summaries_without_audio (batchId b) (summaries w))
      b' (events o).
Proof.
  intros F U Hin Hto Hst o total.
  destruct (timeout_pass_spec w b F U Hin Hto Hst) as (b' & L & S & V).
  exists b'. split; [exact L |]. split; [| exact V].
  fold o in S. rewrite S. destruct V as [V _]. exact V.
Qed.

End TimeoutPass.

(** ** The orphan recovery pass *)

(** What the recovery pass leaves of a failed batch for which [total]
    units now exist, [withAudio] of them with an artifact. *)
Definition recovery_verdict (b : Batch) (total withAudio : nat)
  (lacking : list Summary) (b' : Batch) (ev : list Event) : Prop :=
  receivedCount b' = total /\
  (withAudio < total ->
     status b' = audio_requested /\
     writes_of (batchId b) ev = [(failed, complete); (complete, audio_requested)] /\
     map r_summaryId (posts_of (batchId b) ev) = map s_id lacking) /\
  (total <= withAudio ->
     status b' = audio_complete /\
     writes_of (batchId b) ev = [(failed, complete); (complete, audio_complete)] /\
     posts_of (batchId b) ev = []).

Lemma recovery_verdict_ext (b : Batch) (total withAudio : nat)
  (lacking : list Summary) (b' : Batch) (ev ev' : list Event) :
  writes_of (batchId b) ev' = writes_of (batchId b) ev ->
  posts_of (batchId b) ev' = posts_of (batchId b) ev ->
  recovery_verdict b total withAudio lacking b' ev ->
  recovery_verdict b total withAudio lacking b' ev'.
Proof. unfold recovery_verdict. intros -> ->. tauto. Qed.

Section RecoverySteps.

Import AudioGenerationService BatchTimeoutService.

Variables (bs : list Batch) (ss : list Summary) (ms : list Mix).
Variables (t : Date) (n : nat).
Variable b : Batch.
Hypothesis fresh : lookup (batchId b) bs = Some b.
Hypothesis is_failed : status b = failed.

Let total := count_summaries (batchId b) false ss.
Let withAudio := count_summaries (batchId b) true ss.
Let lacking := summaries_without_audio (batchId b) ss.
Let b2 :=
  apply_update t [SetReceived total; SetStatus complete; StampCompletedAt] b.

Lemma recover_dispatch :
  withAudio < total ->
  run (checkOrphaned b) (mkWorld bs ss ms t n []) =
  let t' := t + 1000 * (List.length lacking - 1) in
  mkOutcome (Ok tt)
    (mkWorld (put (apply_update t' [SetStatus audio_requested; StampAudioRequestedAt] b2) bs)
       ss ms t' n [])
    ([EvLog (mkLog Info "Found orphaned summaries for failed batch ${batch.batchId}, recovering..." (batchId b));
      EvLog (mkLog Info "Recovering batch ${batch.batchId}" (batchId b));
      EvStatus (batchId b) failed complete]
     ++ events (trigger_outcome (batchId b) (mkWorld (put b2 bs) ss ms t n []))
     ++ [EvStatus (batchId b) complete audio_requested;
         EvLog (mkLog Info "Recovered failed batch ${batch.batchId} and triggered audio generation" (batchId b))]).
Proof.
  intros Lt. unfold checkOrphaned. run_norm. rewrite run_count. run_norm.
  fold total. assert (P : (0 <? total) = true) by (apply Nat.ltb_lt; lia).
  rewrite P. run_norm. unfold recoverFailedBatch. rewrite is_failed.
  cbn [negb Status_eqb]. run_norm. rewrite run_count. run_norm.
  fold withAudio.
  rewrite (run_update_hit bs ss ms t n (batchId b) _ _ _ b fresh)
    by (cbn [cond_holds]; rewrite is_failed; reflexivity).
  fold b2. run_norm.
  assert (N : (0 <? total - withAudio) = true) by (apply Nat.ltb_lt; lia).
  rewrite N. run_norm. rewrite run_triggerAudioGeneration by reflexivity.
  assert (L2 : lookup (batchId b) (put b2 bs) = Some b2)
    by (apply (lookup_put_id _ _ bs b fresh); reflexivity).
  assert (T2 : trigger_outcome (batchId b) (mkWorld (put b2 bs) ss ms t n []) =
     mkOutcome (Ok tt)
       (mkWorld (put b2 bs) ss ms (t + 1000 * (List.length lacking - 1)) n [])
       (events (trigger_outcome (batchId b) (mkWorld (put b2 bs) ss ms t n [])))).
  { unfold trigger_outcome. cbn [batches summaries clock]. rewrite L2.
    change (audio_already_processed (Some b2)) with false.
    fold lacking.
    assert (K : (List.length lacking =? 0) = false).
    { apply Nat.eqb_neq. unfold total, withAudio in Lt.
      rewrite count_split in Lt. fold lacking in Lt. lia. }
    rewrite K. reflexivity. }
  rewrite T2 at 1. run_norm.
  rewrite (run_update_hit _ ss ms _ n (batchId b) _ _ _ b2 L2) by reflexivity.
  run_norm. rewrite put_put by reflexivity.
  cbv zeta. rewrite is_failed. cbn [sets_status existsb orb].
  change (status b2) with complete.
  cbn [app]. rewrite <- ?app_assoc. reflexivity.
Qed.

Lemma recover_all_audio :
  0 < total -> total <= withAudio ->
  run (checkOrphaned b) (mkWorld bs ss ms t n []) =
  mkOutcome (Ok tt)
    (mkWorld (put (apply_update t [SetStatus audio_complete; StampAudioCompletedAt] b2) bs)
       ss ms t n [])
    [EvLog (mkLog Info "Found orphaned summaries for failed batch ${batch.batchId}, recovering..." (batchId b));
     EvLog (mkLog Info "Recovering batch ${batch.batchId}" (batchId b));
     EvStatus (batchId b) failed complete;
     EvStatus (batchId b) complete audio_complete;
     EvLog (mkLog Info "Recovered failed batch ${batch.batchId} - all summaries already have audio, marked as audio_complete" (batchId b))].
Proof.
  intros P Le. unfold checkOrphaned. run_norm. rewrite run_count. run_norm.
  fold total. apply Nat.ltb_lt in P. rewrite P. run_norm.
  unfold recoverFailedBatch. rewrite is_failed.
  cbn [negb Status_eqb]. run_norm. rewrite run_count. run_norm.
  fold withAudio.
  rewrite (run_update_hit bs ss ms t n (batchId b) _ _ _ b fresh)
    by (cbn [cond_holds]; rewrite is_failed; reflexivity).
  fold b2. run_norm.
  assert (N : (0 <? total - withAudio) = false) by (apply Nat.ltb_ge; lia).
  rewrite N. run_norm.
  assert (L2 : lookup (batchId b) (put b2 bs) = Some b2)
    by (apply (lookup_put_id _ _ bs b fresh); reflexivity).
  rewrite (run_update_hit _ ss ms _ n (batchId b) _ _ _ b2 L2) by reflexivity.
  run_norm. rewrite put_put by reflexivity.
  rewrite is_failed. cbn [sets_status existsb orb].
  change (status b2) with complete. reflexivity.
Qed.

End RecoverySteps.

Section RecoveryPass.

Import BatchTimeoutService.

Lemma checkOrphaned_spec (w : World) (b : Batch) :
  faults w = [] ->
  lookup (batchId b) (batches w) = Some b ->
  status b = failed ->
  0 < count_summaries (batchId b) false (summaries w) ->
  exists b',
    lookup (batchId b) (batches (world (run (checkOrphaned b) w))) = Some b' /\
    recovery_verdict b
      (count_summaries (batchId b) false (summaries w))
      (count_summaries (batchId b) true (summaries w))
      (summaries_without_audio (batchId b) (summaries w))
      b' (events (run (checkOrphaned b) w)).
Proof.
  destruct w as [bs ss ms t n fs]. cbn [faults batches summaries].
  intros -> L S P.
  set (total := count_summaries (batchId b) false ss) in *.
  set (withAudio := count_summaries (batchId b) true ss).
  destruct (Nat.lt_ge_cases withAudio total) as [Lt | Ge].
  - rewrite (recover_dispatch bs ss ms t n b L S Lt).
    cbv zeta. cbn [world batches events].
    eexists. split; [apply (lookup_put_id _ _ bs b L); reflexivity |].
    destruct (trigger_outcome_trace (batchId b)
                (mkWorld (put (apply_update t
                                 [SetReceived total; SetStatus complete;
                                  StampCompletedAt] b) bs) ss ms t n []))
      as [TP TW].
    { cbn [batches]. rewrite (lookup_put_id _ _ bs b L) by reflexivity.
      reflexivity. }
    unfold recovery_verdict. fold total. trace_norm. rewrite TW.
    split; [reflexivity |]. split; [| intros; lia].
    intros _. cbn [app]. rewrite ?app_nil_r.
    repeat split; try reflexivity.
    change (posts_of (batchId b) []) with (@nil AudioRequest).
    exact TP.
  - rewrite (recover_all_audio bs ss ms t n b L S P Ge).
    cbn [world batches events].
    eexists. split; [apply (lookup_put_id _ _ bs b L); reflexivity |].
    unfold recovery_verdict. trace_norm.
    split; [reflexivity |]. split; [intros; lia |].
    intros _. repeat split; reflexivity.
Qed.

Lemma checkOrphaned_total (b : Batch) (w : World) :
  faults w = [] -> result (run (checkOrphaned b) w) = Ok tt.
Proof.
  intro F. unfold checkOrphaned. rewrite run_bind, run_await_nf by exact F.
  rewrite andThen_ok. cbn [prepend result].
  match goal with |- context [when ?c _] => destruct c end;
    [| reflexivity].
  rewrite run_when_true, run_bind, run_log, andThen_ok. cbn [prepend result].
  apply try_log_never_throws.
Qed.

(** The recovery pass on one failed batch with late units. *)
Lemma orphan_pass_recovers (w : World) (b : Batch) :
  faults w = [] -> unique_ids (batches w) ->
  In b (batches w) ->
  status b = failed -> receivedCount b = 0 ->
  0 < count_summaries (batchId b) false (summaries w) ->
  let o := run processOrphanedSummaries w in
  exists b',
    lookup (batchId b) (batches (world o)) = Some b' /\
    summaries (world o) = summaries w /\
    faults (world o) = [] /\ unique_ids (batches (world o)) /\
    recovery_verdict b
      (count_summaries (batchId b) false (summaries w))
      (count_summaries (batchId b) true (summaries w))
      (summaries_without_audio (batchId b) (summaries w))
      b' (events o).
Proof.
  intros F U Hin Hst Hrc Hpos o.
  assert (Fo : faults (world o) = []) by (apply run_nofaults; exact F).
  assert (Uo : unique_ids (batches (world o))) by (apply run_unique; exact U).
  revert Fo Uo. subst o. unfold processOrphanedSummaries.
  run_norm. rewrite run_await_nf by exact F. cbn [perform fst snd]. run_norm.
  set (l := filter (query_match (clock w) QFailedEmpty) (batches w)).
  assert (Hl : In b l).
  { apply filter_In. split; auto. cbn [query_match].
    rewrite Hst, Hrc. reflexivity. }
  destruct (forEach_isolated checkOrphaned
              (fun x => acts_checkOrphaned _ false x eq_refl)
              checkOrphaned_total l w b F U
              (unique_ids_filter _ _ U) Hl)
    as (w1 & ev1 & ev2 & F1 & U1 & S1 & L1 & L2 & S2 & E & A1 & A2 & A3 & A4).
  rewrite (In_lookup _ _ U Hin) in L1.
  rewrite <- S1 in Hpos.
  destruct (checkOrphaned_spec w1 b F1 L1 Hst Hpos) as (b' & Lb & V).
  rewrite S1 in V.
  assert (R : result (run (forEach l checkOrphaned) w) = Ok tt)
    by (apply forEach_result; [apply checkOrphaned_total | exact F]).
  destruct (run (forEach l checkOrphaned) w) as [r wf evf] eqn:Ef.
  cbn [result world events] in *. subst r. run_norm. cbn [world events].
  intros Fo Uo.
  exists b'. split; [congruence |]. split; [exact S2 |].
  split; [exact Fo |]. split; [exact Uo |].
  eapply recovery_verdict_ext; [| | exact V].
  - rewrite E. trace_norm. rewrite A1, A3, app_nil_r. reflexivity.
  - rewrite E. trace_norm. rewrite A2, A4, app_nil_r. reflexivity.
Qed.

End RecoveryPass.

(** ** The operations of the engine *)

(** What reaches the engine: the three webhooks and the tick of the
    maintenance scheduler. *)
Inductive Request : Type :=
| PostSummary (req : WebhookController.SummaryRequest)
| PostSaveAudioUrl (req : WebhookController.SaveAudioRequest)
| PostAudioGenerationFailure (req : WebhookController.FailureRequest)
| MaintenanceTick.

Definition serve (r : Request) : Prog unit :=
  match r with
  | PostSummary req => WebhookController.handleSummaryWebhook req ;; Ret tt
  | PostSaveAudioUrl req => WebhookController.handleSaveAudioUrl req ;; Ret tt
  | PostAudioGenerationFailure req =>
      WebhookController.handleAudioGenerationFailure req ;; Ret tt
  | MaintenanceTick => BatchTimeoutService.runPeriodicMaintenance
  end.

(** Requests served one after the other, each under its own failure
    plan of the persistence layer. *)
Fixpoint serve_all (rs : list (list bool * Request)) (w : World) : World :=
  match rs with
  | [] => w
  | (plan, r) :: rest =>
      serve_all rest (world (run (serve r) (set_faults w plan)))
  end.

#[export] Hint Resolve acts_saveSummary acts_handleSummaryAudioGenerationSuccess
  acts_handleAudioGenerationSuccess acts_handleAudioGenerationFailure
  acts_runPeriodicMaintenance : acts.

Lemma acts_serve (r : Request) : all_acts (issues any_id true true) (serve r).
Proof.
  destruct r; cbn [serve];
    unfold WebhookController.handleSummaryWebhook,
           WebhookController.handleSaveAudioUrl,
           WebhookController.handleAudioGenerationFailure; acts.
Qed.

(** ** Statuses a batch never leaves for failed *)

(** The statuses from complete on. *)
Definition settled (s : Status) : bool :=
  status_in s [complete; audio_requested; audio_complete; audio_failed].

(** The tracker of [bid] exists and is settled. *)
Definition settled_in (bid : string) (w : World) : Prop :=
  unique_ids (batches w) /\
  exists b, lookup bid (batches w) = Some b /\ settled (status b) = true.

Lemma find_batch_unique (bid : string) (c : StatusCond) (bs : list Batch)
  (b x : Batch) :
  unique_ids bs -> lookup bid bs = Some b ->
  find_batch (mkFilter bid c) bs = Some x ->
  x = b /\ cond_holds c (status b) = true.
Proof.
  intros U L F. destruct (cond_holds c (status b)) eqn:C.
  - rewrite (find_batch_hit bid c bs b L C) in F. injection F as <-. auto.
  - rewrite (find_batch_miss bid c bs b U L C) in F. discriminate.
Qed.

Lemma perform_settled {X} (op : Op X) (w : World) (bid : string) :
  issues any_id true true X op ->
  settled_in bid w -> settled_in bid (snd (fst (perform op w))).
Proof.
  intros Hop [U (b & L & S)].
  split; [apply perform_unique; exact U |].
  destruct op; simpl; eauto.
  - simpl in Hop. destruct (find_batch f (batches w)) as [x |] eqn:E; simpl; eauto.
    destruct (String.eqb_spec bid (f_batchId f)) as [Eq | Ne].
    + destruct f as [fid c]. simpl in Eq. subst fid.
      destruct (find_batch_unique bid c _ b x U L E) as [-> C].
      exists (apply_update (clock w) u b). split.
      * apply lookup_update_same; auto. intro. apply apply_update_id.
      * inversion Hop; subst; simpl in C; cbn;
          destruct (status b); try discriminate; reflexivity.
    + exists b. split; auto.
      rewrite lookup_update_other; auto. intro. apply apply_update_id.
  - destruct (find (summary_match sid uid) (summaries w)); simpl; eauto.
Qed.

Lemma run_settled {A} (p : Prog A) (w : World) (bid : string) :
  all_acts (issues any_id true true) p ->
  settled_in bid w -> settled_in bid (world (run p w)).
Proof.
  intro H.
  apply (run_preserves (issues any_id true true) (settled_in bid)); auto.
  intros X op w0 Hop S. apply exec_keeps; auto.
  intros w1 S1. apply perform_settled; assumption.
Qed.

(** Once settled, the tracker is settled after any requests, whatever
    calls fail while they are served. *)
Lemma settled_forever (bid : string) (rs : list (list bool * Request))
  (w : World) :
  settled_in bid w -> settled_in bid (serve_all rs w).
Proof.
  revert w. induction rs as [| [plan r] rs IH]; intros w S; [exact S |].
  cbn [serve_all]. apply IH. apply run_settled; [apply acts_serve |].
  exact S.
Qed.

Lemma settled_not_failed (s : Status) : settled s = true -> s <> failed.
Proof. intros H ->. discriminate. Qed.

(** C5: the recovery pass moves a failed batch with receivedCount 0 whose
    units have arrived since to complete, then dispatches exactly its units
    lacking an artifact (ending audio_requested), or marks it
    audio_complete without dispatch when none lacks one; and after that no
    sequence of engine operations, whatever fails meanwhile, brings its
    status back to failed. *)
Theorem C5_recovery_then_never_failed_again (w : World) (b : Batch) :
  faults w = [] -> unique_ids (batches w) ->
  In b (batches w) ->
  status b = failed -> receivedCount b = 0 ->
  0 < count_summaries (batchId b) false (summaries w) ->
  let o := run BatchTimeoutService.processOrphanedSummaries w in
  exists b',
    lookup (batchId b) (batches (world o)) = Some b' /\
    recovery_verdict b
      (count_summaries (batchId b) false (summaries w))
      (count_summaries (batchId b) true (summaries w))
      (summaries_without_audio (batchId b) (summaries w))
      b' (events o) /\
    forall rs : list (list bool * Request),
      exists b'',
        lookup (batchId b) (batches (serve_all rs (world o))) = Some b'' /\
        status b'' <> failed.
Proof.
  intros F U Hin Hst Hrc Hpos o.
  destruct (orphan_pass_recovers w b F U Hin Hst Hrc Hpos)
    as (b' & L & _ & _ & Uo & V).
  fold o in L, Uo, V. exists b'. split; [exact L |]. split; [exact V |].
  assert (S : settled (status b') = true).
  { destruct V as (_ & V1 & V2).
    destruct (Nat.lt_ge_cases
                (count_summaries (batchId b) true (summaries w))
                (count_summaries (batchId b) false (summaries w))) as [Lt | Ge].
    - destruct (V1 Lt) as [-> _]. reflexivity.
    - destruct (V2 Ge) as [-> _]. reflexivity. }
  intro rs.
  destruct (settled_forever (batchId b) rs (world o)) as [_ (b'' & L'' & S'')].
  - split; [exact Uo |]. exists b'. auto.
  - exists b''. split; [exact L'' |]. apply settled_not_failed. exact S''.
Qed.

(** ** What the completion evaluation keeps of a tracker *)

(** [b'] is [b] up to status, timestamps and terminal payload. *)
Definition same_counts (b b' : Batch) : Prop :=
  batchId b' = batchId b /\
  receivedCount b' = receivedCount b /\
  expectedCount b' = expectedCount b /\
  timeoutAt b' = timeoutAt b.

Lemma same_counts_refl (b : Batch) : same_counts b b.
Proof. repeat split. Qed.

Lemma same_counts_trans (a b c : Batch) :
  same_counts a b -> same_counts b c -> same_counts a c.
Proof. unfold same_counts. intuition congruence. Qed.

Lemma lookup_update_cases (bid : string) (f : BFilter) (g : Batch -> Batch)
  (bs : list Batch) (b : Batch) :
  (forall x, batchId (g x) = batchId x) ->
  lookup bid bs = Some b ->
  lookup bid (update_batch f g bs) = Some b \/
  lookup bid (update_batch f g bs) = Some (g b).
Proof.
  intros G. induction bs as [| x bs IH]; [discriminate |].
  rewrite lookup_cons. simpl.
  destruct (filter_match f x) eqn:M; rewrite lookup_cons, ?G;
    destruct (String.eqb (batchId x) bid) eqn:E; auto;
    intros [= ->]; auto.
Qed.

Lemma engine_write_keeps_counts (ids : string -> Prop) (f : BFilter)
  (u : list BSet) (t : Date) (x : Batch) :
  engine_write ids false f u -> same_counts x (apply_update t u x).
Proof. intro W. inversion W; subst; try discriminate; repeat split. Qed.

Section KeepsCounts.

Variable ids : string -> Prop.
Variable units : bool.
Variables (bid : string) (b : Batch).

Definition counts_kept (w : World) : Prop :=
  exists b', lookup bid (batches w) = Some b' /\ same_counts b b'.

Lemma perform_counts_kept {X} (op : Op X) (w : World) :
  issues ids false units X op -> counts_kept w ->
  counts_kept (snd (fst (perform op w))).
Proof.
  intros Hop (b' & L & S). destruct op; simpl; try (exists b'; auto; fail).
  - simpl in Hop. destruct (find_batch f (batches w)); simpl;
      [| exists b'; auto].
    destruct (lookup_update_cases bid f (apply_update (clock w) u) _ b'
                (fun x => apply_update_id _ _ x) L) as [E | E].
    + exists b'. auto.
    + eexists. split; [exact E |].
      eapply same_counts_trans; [exact S |].
      eapply engine_write_keeps_counts. exact Hop.
  - destruct (find (summary_match sid uid) (summaries w)); simpl;
      exists b'; auto.
Qed.

Lemma run_counts_kept {A} (p : Prog A) (w : World) :
  all_acts (issues ids false units) p -> counts_kept w ->
  counts_kept (world (run p w)).
Proof.
  intro H. apply (run_preserves (issues ids false units) counts_kept); auto.
  intros X op w0 Hop S. apply exec_keeps; auto.
  intros w1 S1. apply perform_counts_kept; assumption.
Qed.

End KeepsCounts.

Lemma world_orElse_log {A} (o : Outcome A) (h : Err -> Prog A) :
  (forall e w, world (run (h e) w) = w) ->
  world (orElse o (fun e w' => run (h e) w')) = world o.
Proof.
  intro H. unfold orElse. destruct (result o); [reflexivity |].
  cbn [prepend world]. apply H.
Qed.

(** Worlds built by setters, as records. *)
Ltac world_norm :=
  unfold set_batches, set_summaries, set_mixes, set_clock, set_nextId,
         set_faults;
  cbn [batches summaries mixes clock nextId faults].

Section SummaryArrival.

Import WebhookServices.

(** The tracker after the [$inc] of one arrival. *)
Definition incremented (b : Batch) : Batch := apply_set 0 b IncReceived.

(** What serving POST /summary for a known batch does to the stores,
    whatever transitions the evaluation takes. *)
Lemma summary_arrival (w : World) (req : WebhookController.SummaryRequest)
  (bid : string) (b : Batch) :
  faults w = [] -> valid_unit req = true ->
  WebhookController.q_batchId req = Some bid -> bid <> "" ->
  lookup bid (batches w) = Some b ->
  let o := run (WebhookController.handleSummaryWebhook req) w in
  result o = Ok (WebhookController.mkResponse 200
                   (WebhookController.SummaryReceived (unit_of w req))) /\
  summaries (world o) = summaries w ++ [unit_of w req] /\
  counts_kept bid (incremented b) (world o).
Proof.
  destruct w as [bs ss ms t n fs]. cbn [faults batches summaries].
  intros -> V Q Hb L.
  unfold WebhookController.handleSummaryWebhook, saveSummary.
  create_valid V.
  run_norm. await_nf. world_norm. run_norm.
  rewrite Q, (truthy_Some bid Hb). run_norm.
  set (u := mkSummary n (WebhookController.q_userId req)
              (WebhookController.q_summary req)
              (WebhookController.q_summaryType req)
              (WebhookController.q_summaryTitle req) (Some bid) false None).
  assert (Eu : unit_of (mkWorld bs ss ms t n []) req = u)
    by (unfold unit_of, u; rewrite Q; reflexivity).
  rewrite Eu.
  set (w1 := mkWorld bs (ss ++ [u]) ms t (S n) []).
  assert (R : result (run (checkBatchCompletion bid) w1) = Ok tt)
    by apply checkBatchCompletion_never_throws.
  assert (W : summaries (world (run (checkBatchCompletion bid) w1)) = ss ++ [u]
              /\ counts_kept bid (incremented b)
                   (world (run (checkBatchCompletion bid) w1))).
  { unfold checkBatchCompletion, checkBatchCompletion_handler.
    rewrite run_try_catch, world_orElse_log by reflexivity.
    rewrite run_bind. unfold w1.
    rewrite (run_update_hit bs (ss ++ [u]) ms t (S n) bid AnyStatus _ _ b L eq_refl).
    rewrite andThen_ok. cbn [prepend world].
    split.
    - rewrite (run_summaries (eq bid) false) by (apply acts_afterIncrement; reflexivity).
      reflexivity.
    - apply (run_counts_kept (eq bid) false);
        [apply acts_afterIncrement; reflexivity |].
      exists (apply_update t [IncReceived] b). split.
      + cbn [batches]. apply (lookup_put_id _ _ bs b L).
        rewrite apply_update_id. apply (lookup_id _ _ _ L).
      + repeat split. }
  destruct (run (checkBatchCompletion bid) w1) as [r w2 ev2].
  cbn [result world] in R, W. subst r. run_norm. cbn [result world].
  destruct W as [W1 W2]. repeat split; assumption.
Qed.

End SummaryArrival.

(** ** Duplicate arrivals and the reconciliation *)

Lemma count_summaries_snoc (bid : string) (ss : list Summary) (u : Summary) :
  s_batchId u = Some bid ->
  count_summaries bid false (ss ++ [u]) = S (count_summaries bid false ss).
Proof.
  intro H. unfold count_summaries. rewrite filter_app, length_app.
  cbn [filter]. unfold in_batch. rewrite H, String.eqb_refl.
  cbn [andb List.length]. lia.
Qed.

Definition eligible_for_timeout (now : Date) (b : Batch) : bool :=
  query_match now QTimedOut b.

Section Reconciliation.

Import BatchTimeoutService.

(** A batch that the timeout query does not return is left alone. *)
Lemma timeout_pass_skips (w : World) (b : Batch) :
  faults w = [] -> unique_ids (batches w) ->
  lookup (batchId b) (batches w) = Some b ->
  eligible_for_timeout (clock w) b = false ->
  let o := run processTimeoutBatches w in
  lookup (batchId b) (batches (world o)) = Some b /\
  summaries (world o) = summaries w.
Proof.
  intros F U L E o. subst o.
  set (l := filter (query_match (clock w) QTimedOut) (batches w)).
  assert (Hout : ~ In (batchId b) (map batchId l)).
  { intro H. apply in_map_iff in H as (x & Ex & Hx).
    apply filter_In in Hx as [Hx Q].
    pose proof (In_lookup _ _ U Hx) as Lx. rewrite Ex, L in Lx.
    injection Lx as <-. unfold eligible_for_timeout in E. congruence. }
  assert (A : all_acts (issues (fun i => In i (map batchId l)) true false)
                (forEach l handleTimeoutBatch)).
  { apply forEach_footprint. intro x. apply acts_handleTimeoutBatch. reflexivity. }
  unfold processTimeoutBatches. rewrite run_try_catch.
  rewrite world_orElse_log by reflexivity.
  rewrite run_bind, run_await_nf by exact F. cbn [perform fst snd].
  rewrite andThen_ok. cbn [prepend world].
  rewrite run_bind, run_log, andThen_ok. cbn [prepend world]. fold l.
  split.
  - rewrite (run_lookup_other _ true false _ _ _ A Hout). exact L.
  - apply (run_summaries _ true _ _ A).
Qed.

(** The timeout pass, seen from one tracker: a batch the pass selects
    ends with receivedCount equal to the count of its persisted units, a
    batch it does not select is left as it is; no unit changes. *)
Lemma timeout_pass_reconciles (w : World) (bid : string) (b : Batch) :
  faults w = [] -> unique_ids (batches w) ->
  lookup bid (batches w) = Some b ->
  let w' := world (run processTimeoutBatches w) in
  exists b',
    lookup bid (batches w') = Some b' /\
    summaries w' = summaries w /\
    (eligible_for_timeout (clock w) b = true ->
       receivedCount b' = count_summaries bid false (summaries w')) /\
    (eligible_for_timeout (clock w) b = false -> b' = b).
Proof.
  intros F U L w'.
  assert (Eb : batchId b = bid) by (apply (lookup_id _ _ _ L)).
  destruct (eligible_for_timeout (clock w) b) eqn:E.
  - unfold eligible_for_timeout in E. cbn [query_match] in E.
    apply andb_true_iff in E as [E1 E2]. apply Nat.leb_le in E1.
    destruct (timeout_pass_spec w b F U (lookup_In _ _ _ L) E1 E2)
      as (b' & L' & S' & V).
    rewrite Eb in L', V. fold w' in L', S'.
    exists b'. split; [exact L' |]. split; [exact S' |].
    split; [| discriminate].
    intros _. rewrite S'. destruct V as [V _]. exact V.
  - rewrite <- Eb in L.
    destruct (timeout_pass_skips w b F U L E) as [L' S'].
    rewrite Eb in L'. fold w' in L', S'.
    exists b. split; [exact L' |]. split; [exact S' |].
    split; [discriminate | reflexivity].
Qed.

(** A unit that the validators of the schema reject is answered 500
    before any call to the store: nothing is persisted or counted. *)
Lemma invalid_unit_rejected (w : World) (req : WebhookController.SummaryRequest) :
  valid_unit req = false ->
  run (WebhookController.handleSummaryWebhook req) w
  = mkOutcome
      (Ok (WebhookController.mkResponse 500
             (WebhookController.Failed "Error in handleSummaryWebhook"
                ValidationFailed)))
      w
      [EvLog (mkLog Error "Error in handleSummaryWebhook:" "");
       EvLog (mkLog Error "Error in handleSummaryWebhook: ${error}" "")].
Proof.
  intro V.
  unfold WebhookController.handleSummaryWebhook, WebhookServices.saveSummary,
    AiSummaries.create.
  unfold valid_unit in V. rewrite V. run_norm. reflexivity.
Qed.

(** C6: the same unit event served twice counts twice in receivedCount
    and persists two units when the unit passes the validators of the
    schema, and is rejected twice, counting and persisting nothing, when
    it does not: either way the counter moves with the persisted count.
    After the timeout pass of the sweep, receivedCount equals the count
    of persisted units whenever the pass reconciles the batch (it is
    timed out and still pending or partial_complete), and also whenever
    the counter agreed with the persisted count before the two events. *)
Theorem C6_duplicate_event_does_not_diverge_after_sweep
  (w : World) (req : WebhookController.SummaryRequest) (bid : string)
  (b : Batch) :
  faults w = [] -> unique_ids (batches w) ->
  WebhookController.q_batchId req = Some bid -> bid <> "" ->
  lookup bid (batches w) = Some b ->
  let w1 := world (run (WebhookController.handleSummaryWebhook req) w) in
  let w2 := world (run (WebhookController.handleSummaryWebhook req) w1) in
  let w3 := world (run processTimeoutBatches w2) in
  let persisted := fun x => count_summaries bid false (summaries x) in
  let stored := if valid_unit req then 2 else 0 in
  exists b2 b3,
    lookup bid (batches w2) = Some b2 /\
    lookup bid (batches w3) = Some b3 /\
    receivedCount b2 = receivedCount b + stored /\
    persisted w2 = persisted w + stored /\
    persisted w3 = persisted w2 /\
    (eligible_for_timeout (clock w2) b2 = true ->
       receivedCount b3 = persisted w3) /\
    (receivedCount b = persisted w -> receivedCount b3 = persisted w3).
Proof.
  intros F U Q Hb L w1 w2 w3 persisted stored.
  assert (A : exists b2,
             faults w2 = [] /\ unique_ids (batches w2) /\
             lookup bid (batches w2) = Some b2 /\
             receivedCount b2 = receivedCount b + stored /\
             persisted w2 = persisted w + stored).
  { subst stored. destruct (valid_unit req) eqn:Vu.
    - destruct (summary_arrival w req bid b F Vu Q Hb L)
        as (_ & S1 & (b1 & L1 & I1 & R1 & _)).
      fold w1 in S1, L1.
      assert (F1 : faults w1 = []) by (apply run_nofaults; exact F).
      assert (U1 : unique_ids (batches w1)) by (apply run_unique; exact U).
      destruct (summary_arrival w1 req bid b1 F1 Vu Q Hb L1)
        as (_ & S2 & (b2 & L2 & I2 & R2 & _)).
      fold w2 in S2, L2.
      exists b2.
      split; [apply run_nofaults; exact F1 |].
      split; [apply run_unique; exact U1 |].
      split; [exact L2 |]. split.
      + rewrite R2. cbn [incremented apply_set receivedCount]. rewrite R1.
        cbn [incremented apply_set receivedCount]. lia.
      + unfold persisted. rewrite S2, S1.
        rewrite !count_summaries_snoc
          by (unfold unit_of; cbn [s_batchId]; exact Q).
        lia.
    - assert (E1 : w1 = w)
        by (unfold w1; rewrite (invalid_unit_rejected w req Vu); reflexivity).
      assert (E2 : w2 = w)
        by (unfold w2; rewrite E1, (invalid_unit_rejected w req Vu);
            reflexivity).
      exists b. rewrite E2.
      split; [exact F |]. split; [exact U |]. split; [exact L |].
      split; lia. }
  destruct A as (b2 & F2 & U2 & L2 & RC & C2).
  destruct (timeout_pass_reconciles w2 bid b2 F2 U2 L2)
    as (b3 & L3 & S3 & Vt & Vs).
  fold w3 in L3, S3.
  exists b2, b3.
  split; [exact L2 |]. split; [exact L3 |]. split; [exact RC |].
  split; [exact C2 |].
  split; [unfold persisted; rewrite S3; reflexivity |].
  split; [intro E; unfold persisted; exact (Vt E) |].
  intro H.
  destruct (eligible_for_timeout (clock w2) b2) eqn:E.
  - unfold persisted. exact (Vt eq_refl).
  - rewrite (Vs eq_refl). unfold persisted in *. rewrite S3. lia.
Qed.

End Reconciliation.

(** ** Arrivals at a fresh batch *)

Lemma count_audio_snoc (bid : string) (ss : list Summary) (u : Summary) :
  isAudioGenerated u = false ->
  count_summaries bid true (ss ++ [u]) = count_summaries bid true ss.
Proof.
  intro H. unfold count_summaries. rewrite filter_app, length_app.
  cbn [filter]. rewrite H, andb_false_r. cbn [List.length]. lia.
Qed.

Lemma dispatch_passes_app (e1 e2 : list Event) :
  dispatch_passes (e1 ++ e2) = dispatch_passes e1 + dispatch_passes e2.
Proof. unfold dispatch_passes. rewrite filter_app, length_app. reflexivity. Qed.

Lemma dispatch_passes_posts (t : Date) (l : list Summary) (bid : string) :
  dispatch_passes (posts_from t l bid) = 0.
Proof.
  revert t. induction l as [| s l IH]; intro t; [reflexivity |].
  cbn [posts_from]. unfold dispatch_passes in *. cbn [filter is_dispatch_pass].
  apply IH.
Qed.

Lemma dispatch_passes_trigger (bid : string) (w : World) :
  dispatch_passes (events (trigger_outcome bid w)) = 1.
Proof.
  unfold trigger_outcome.
  destruct (AudioGenerationService.audio_already_processed _); [reflexivity |].
  destruct (List.length _ =? 0); [reflexivity |].
  cbn [events]. rewrite !dispatch_passes_app, dispatch_passes_posts.
  destruct (0 <? _); reflexivity.
Qed.

Lemma posts_app (e1 e2 : list Event) : posts (e1 ++ e2) = posts e1 ++ posts e2.
Proof. apply flat_map_app. Qed.

Lemma posts_posts_from (t : Date) (l : list Summary) (bid : string) :
  map r_summaryId (posts (posts_from t l bid)) = map s_id l.
Proof.
  revert t. induction l as [| s l IH]; intro t; [reflexivity |].
  cbn [posts_from posts flat_map app map request_of r_summaryId].
  f_equal. apply IH.
Qed.

Lemma posts_trigger (bid : string) (w : World) :
  AudioGenerationService.audio_already_processed (lookup bid (batches w)) = false ->
  map r_summaryId (posts (events (trigger_outcome bid w)))
  = map s_id (summaries_without_audio bid (summaries w)).
Proof.
  intro H. unfold trigger_outcome. rewrite H.
  destruct (List.length (summaries_without_audio bid (summaries w)) =? 0) eqn:E.
  - apply Nat.eqb_eq in E. apply length_zero_iff_nil in E. rewrite E. reflexivity.
  - cbn [events]. rewrite !posts_app.
    destruct (0 <? _); cbn [posts flat_map log_triggering app];
      rewrite app_nil_r; apply posts_posts_from.
Qed.

Lemma trigger_outcome_sends (bid : string) (bs : list Batch)
  (ss : list Summary) (ms : list Mix) (t : Date) (n : nat) :
  AudioGenerationService.audio_already_processed (lookup bid bs) = false ->
  summaries_without_audio bid ss <> [] ->
  trigger_outcome bid (mkWorld bs ss ms t n []) =
  mkOutcome (Ok tt)
    (mkWorld bs ss ms
       (t + 1000 * (List.length (summaries_without_audio bid ss) - 1)) n [])
    (events (trigger_outcome bid (mkWorld bs ss ms t n []))).
Proof.
  intros H N. unfold trigger_outcome. cbn [batches summaries clock].
  rewrite H.
  destruct (List.length (summaries_without_audio bid ss) =? 0) eqn:E.
  - apply Nat.eqb_eq in E. apply length_zero_iff_nil in E. contradiction.
  - reflexivity.
Qed.

Lemma summaries_without_audio_snoc (bid : string) (ss : list Summary)
  (u : Summary) :
  s_batchId u = Some bid -> isAudioGenerated u = false ->
  summaries_without_audio bid (ss ++ [u]) = summaries_without_audio bid ss ++ [u].
Proof.
  intros H A. unfold summaries_without_audio. rewrite filter_app.
  cbn [filter]. unfold in_batch. rewrite H, A, String.eqb_refl. reflexivity.
Qed.

Section Arrivals.

Import AudioGenerationService WebhookServices.

Variables (bs : list Batch) (ss : list Summary) (ms : list Mix).
Variables (t : Date) (n : nat).
Variable req : WebhookController.SummaryRequest.
Variables (bid : string) (b : Batch).
Hypothesis fresh : lookup bid bs = Some b.
Hypothesis for_batch : WebhookController.q_batchId req = Some bid.
Hypothesis named : bid <> "".
Hypothesis no_audio : count_summaries bid true ss = 0.
Hypothesis valid : valid_unit req = true.

Let u := unit_of (mkWorld bs ss ms t n []) req.
Let bt := apply_update t [IncReceived] b.

Definition log_received (bid : string) : Event :=
  EvLog (mkLog Info "Batch ${batchId}: ${receivedCount}/${expectedCount} received" bid).

Lemma arrival_start :
  run (WebhookController.handleSummaryWebhook req) (mkWorld bs ss ms t n []) =
  orElse
    (andThen
       (orElse
          (andThen
             (orElse
                (prepend [log_received bid]
                   (run (evaluate bid bt 0)
                        (mkWorld (put bt bs) (ss ++ [u]) ms t (S n) [])))
                (fun e w' => run (checkBatchCompletion_handler bid e) w'))
             (fun _ w' => run (Ret u) w'))
          (fun e w' =>
             run (log Error "Error in handleSummaryWebhook:" "" ;; Throw e) w'))
       (fun a w' =>
          run (Ret (WebhookController.mkResponse 200
                      (WebhookController.SummaryReceived a))) w'))
    (fun e w' =>
       run (log Error "Error in handleSummaryWebhook: ${error}" "" ;;
            Ret (WebhookController.mkResponse 500
                   (WebhookController.Failed "Error in handleSummaryWebhook" e)))
           w').
Proof.
  unfold WebhookController.handleSummaryWebhook, saveSummary.
  create_valid valid.
  rewrite run_try_catch, run_bind, run_try_catch, run_bind.
  rewrite run_await_nf by reflexivity. cbn [perform fst snd]. world_norm.
  rewrite andThen_ok, prepend_nil, for_batch, (truthy_Some bid named).
  rewrite run_bind, run_when_true.
  unfold checkBatchCompletion. rewrite run_try_catch, run_bind.
  rewrite (run_update_hit bs _ ms t (S n) bid AnyStatus _ _ b fresh eq_refl).
  rewrite andThen_ok, prepend_nil. unfold afterIncrement.
  rewrite run_bind, run_log, andThen_ok, run_bind, run_count, andThen_ok,
    prepend_nil.
  assert (E : count_summaries bid true
                (ss ++ [mkSummary n (WebhookController.q_userId req)
                          (WebhookController.q_summary req)
                          (WebhookController.q_summaryType req)
                          (WebhookController.q_summaryTitle req)
                          (Some bid) false None]) = 0)
    by (rewrite count_audio_snoc by reflexivity; exact no_audio).
  rewrite E. unfold u, unit_of. cbn [nextId]. rewrite for_batch. reflexivity.
Qed.


(** An arrival that crosses no threshold only counts. *)
Lemma arrival_quiet :
  (reached_half (receivedCount b + 1) (expectedCount b)
   && Status_eqb (status b) pending) = false ->
  ((expectedCount b <=? receivedCount b + 1)
   && status_in (status b) [pending; partial_complete]) = false ->
  run (WebhookController.handleSummaryWebhook req) (mkWorld bs ss ms t n []) =
  mkOutcome
    (Ok (WebhookController.mkResponse 200 (WebhookController.SummaryReceived u)))
    (mkWorld (put bt bs) (ss ++ [u]) ms t (S n) [])
    [log_received bid].
Proof.
  intros C1 C2. rewrite arrival_start. unfold evaluate.
  change (receivedCount bt) with (receivedCount b + 1).
  change (expectedCount bt) with (expectedCount b).
  change (status bt) with (status b).
  rewrite C1, C2.
  replace (receivedCount b + 1 <=? 0) with false
    by (symmetry; apply Nat.leb_gt; lia).
  cbn [andb]. run_norm. reflexivity.
Qed.

Let b2 := apply_update t [SetStatus partial_complete; StampPartialCompletedAt] bt.
Let lacking := summaries_without_audio bid (ss ++ [u]).
Let t' := t + 1000 * (List.length lacking - 1).

(** The arrival that reaches half of the expected count of a pending
    batch, short of the full count. *)
Lemma arrival_half :
  status b = pending ->
  reached_half (receivedCount b + 1) (expectedCount b) = true ->
  (expectedCount b <=? receivedCount b + 1) = false ->
  run (WebhookController.handleSummaryWebhook req) (mkWorld bs ss ms t n []) =
  mkOutcome
    (Ok (WebhookController.mkResponse 200 (WebhookController.SummaryReceived u)))
    (mkWorld (put (apply_update t' [SetStatus audio_requested; StampAudioRequestedAt] b2) bs)
       (ss ++ [u]) ms t' (S n) [])
    ([log_received bid;
      EvLog (mkLog Info "Batch ${batchId} reached 50% completion, triggering partial audio generation" bid);
      EvStatus bid pending partial_complete]
     ++ events (trigger_outcome bid (mkWorld (put b2 bs) (ss ++ [u]) ms t (S n) []))
     ++ [EvStatus bid partial_complete audio_requested]).
Proof.
  intros St H F. rewrite arrival_start. unfold evaluate.
  change (receivedCount bt) with (receivedCount b + 1).
  change (expectedCount bt) with (expectedCount b).
  change (status bt) with (status b).
  rewrite St, H, F.
  replace (receivedCount b + 1 <=? 0) with false
    by (symmetry; apply Nat.leb_gt; lia).
  cbn [andb Status_eqb]. run_norm.
  unfold handlePartialCompletion. run_norm.
  assert (L1 : lookup bid (put bt bs) = Some bt).
  { apply (lookup_put_id _ _ bs b fresh). unfold bt.
    rewrite apply_update_id. apply (lookup_id _ _ _ fresh). }
  assert (S1 : status bt = pending) by exact St.
  rewrite (run_update_hit _ _ ms t (S n) bid _ _ _ bt L1)
    by (cbn [cond_holds]; rewrite S1; reflexivity).
  fold b2. run_norm. rewrite put_put by reflexivity.
  rewrite run_triggerAudioGeneration by reflexivity.
  assert (L2 : lookup bid (put b2 bs) = Some b2).
  { apply (lookup_put_id _ _ bs b fresh). unfold b2, bt.
    rewrite !apply_update_id. apply (lookup_id _ _ _ fresh). }
  rewrite trigger_outcome_sends at 1.
  2:{ rewrite L2. reflexivity. }
  2:{ unfold u, unit_of. rewrite summaries_without_audio_snoc.
      - intro E. apply app_eq_nil in E as [_ E]. discriminate.
      - cbn [s_batchId]. exact for_batch.
      - reflexivity. }
  fold lacking t'. run_norm.
  rewrite (run_update_hit _ _ ms _ (S n) bid _ _ _ b2 L2) by reflexivity.
  run_norm. rewrite put_put by reflexivity.
  rewrite S1. cbn [sets_status existsb orb].
  change (status b2) with partial_complete.
  cbn [app]. rewrite <- ?app_assoc. reflexivity.
Qed.

End Arrivals.

Lemma status_writes_app (e1 e2 : list Event) :
  status_writes (e1 ++ e2) = status_writes e1 ++ status_writes e2.
Proof. apply flat_map_app. Qed.

Lemma status_writes_posts (t : Date) (l : list Summary) (bid : string) :
  status_writes (posts_from t l bid) = [].
Proof.
  revert t. induction l as [| s l IH]; intro t; [reflexivity |]. apply IH.
Qed.

Lemma status_writes_trigger (bid : string) (w : World) :
  status_writes (events (trigger_outcome bid w)) = [].
Proof.
  unfold trigger_outcome.
  destruct (AudioGenerationService.audio_already_processed _); [reflexivity |].
  destruct (List.length _ =? 0); [reflexivity |].
  cbn [events]. rewrite !status_writes_app, status_writes_posts.
  destruct (0 <? _); reflexivity.
Qed.

Section FourArrivals.

Variable w : World.
Variables r1 r2 r3 r4 : WebhookController.SummaryRequest.
Variables (bid : string) (b : Batch).

Let o1 := run (WebhookController.handleSummaryWebhook r1) w.
Let o2 := run (WebhookController.handleSummaryWebhook r2) (world o1).
Let o3 := run (WebhookController.handleSummaryWebhook r3) (world o2).
Let o4 := run (WebhookController.handleSummaryWebhook r4) (world o3).

(** C2 (as amended): for a fresh pending batch expecting 4 units, the
    first arrival only counts; the second moves the batch from pending to
    partial_complete, runs one dispatch pass over the units then lacking
    an artifact and leaves the batch audio_requested; the third and the
    fourth only count: they write no status (the batch stays
    audio_requested, it does not become complete) and do not call the
    dispatcher.  The four units pass the validators of the schema. *)
Theorem C2_four_arrivals_dispatch_once :
  faults w = [] ->
  lookup bid (batches w) = Some b -> bid <> "" ->
  expectedCount b = 4 -> receivedCount b = 0 -> status b = pending ->
  count_summaries bid true (summaries w) = 0 ->
  WebhookController.q_batchId r1 = Some bid ->
  WebhookController.q_batchId r2 = Some bid ->
  WebhookController.q_batchId r3 = Some bid ->
  WebhookController.q_batchId r4 = Some bid ->
  valid_unit r1 = true -> valid_unit r2 = true ->
  valid_unit r3 = true -> valid_unit r4 = true ->
  (exists b1, lookup bid (batches (world o1)) = Some b1 /\
     status b1 = pending /\ receivedCount b1 = 1 /\
     status_writes (events o1) = [] /\ dispatch_passes (events o1) = 0) /\
  (exists b2, lookup bid (batches (world o2)) = Some b2 /\
     status b2 = audio_requested /\ receivedCount b2 = 2 /\
     status_writes (events o2) =
       [(bid, pending, partial_complete); (bid, partial_complete, audio_requested)] /\
     dispatch_passes (events o2) = 1 /\
     map r_summaryId (posts (events o2))
       = map s_id (summaries_without_audio bid (summaries (world o2)))) /\
  (exists b3, lookup bid (batches (world o3)) = Some b3 /\
     status b3 = audio_requested /\ receivedCount b3 = 3 /\
     status_writes (events o3) = [] /\ dispatch_passes (events o3) = 0) /\
  (exists b4, lookup bid (batches (world o4)) = Some b4 /\
     status b4 = audio_requested /\ receivedCount b4 = 4 /\
     status_writes (events o4) = [] /\ dispatch_passes (events o4) = 0).
Proof.
  destruct w as [bs ss ms t n fs] eqn:Ew. cbn [faults batches summaries].
  intros -> L Hb Ec Rc St A Q1 Q2 Q3 Q4 V1 V2 V3 V4.
  (* first arrival *)
  assert (E1 := arrival_quiet bs ss ms t n r1 bid b L Q1 Hb A V1).
  rewrite Ec, Rc, St in E1. specialize (E1 eq_refl eq_refl).
  set (u1 := unit_of (mkWorld bs ss ms t n []) r1) in *.
  set (c1 := apply_update t [IncReceived] b) in *.
  assert (L1 : lookup bid (put c1 bs) = Some c1).
  { apply (lookup_put_id _ _ bs b L). unfold c1. rewrite apply_update_id.
    apply (lookup_id _ _ _ L). }
  assert (A1 : count_summaries bid true (ss ++ [u1]) = 0)
    by (rewrite count_audio_snoc by reflexivity; exact A).
  (* second arrival *)
  assert (E2 := arrival_half (put c1 bs) (ss ++ [u1]) ms t (S n) r2 bid c1
                  L1 Q2 Hb A1 V2).
  change (status c1) with (status b) in E2.
  change (receivedCount c1) with (receivedCount b + 1) in E2.
  change (expectedCount c1) with (expectedCount b) in E2.
  rewrite Ec, Rc in E2. specialize (E2 St eq_refl eq_refl).
  rewrite !put_put in E2 by reflexivity.
  set (u2 := unit_of (mkWorld (put c1 bs) (ss ++ [u1]) ms t (S n) []) r2) in *.
  set (c2 := apply_update t [SetStatus partial_complete; StampPartialCompletedAt]
               (apply_update t [IncReceived] c1)) in *.
  set (t2 := t + 1000 * (List.length
                (summaries_without_audio bid ((ss ++ [u1]) ++ [u2])) - 1)) in *.
  set (c3 := apply_update t2 [SetStatus audio_requested; StampAudioRequestedAt] c2) in *.
  assert (L3 : lookup bid (put c3 bs) = Some c3).
  { apply (lookup_put_id _ _ bs b L). unfold c3, c2, c1.
    rewrite !apply_update_id. apply (lookup_id _ _ _ L). }
  assert (A2 : count_summaries bid true ((ss ++ [u1]) ++ [u2]) = 0)
    by (rewrite count_audio_snoc by reflexivity; exact A1).
  (* third arrival *)
  assert (E3 := arrival_quiet (put c3 bs) ((ss ++ [u1]) ++ [u2]) ms t2 (S (S n))
                  r3 bid c3 L3 Q3 Hb A2 V3).
  change (status c3) with audio_requested in E3.
  rewrite !andb_false_r in E3. specialize (E3 eq_refl eq_refl).
  rewrite put_put in E3 by reflexivity.
  set (u3 := unit_of (mkWorld (put c3 bs) ((ss ++ [u1]) ++ [u2]) ms t2
                        (S (S n)) []) r3) in *.
  set (c4 := apply_update t2 [IncReceived] c3) in *.
  assert (L4 : lookup bid (put c4 bs) = Some c4).
  { apply (lookup_put_id _ _ bs b L). unfold c4, c3, c2, c1.
    rewrite !apply_update_id. apply (lookup_id _ _ _ L). }
  assert (A3 : count_summaries bid true (((ss ++ [u1]) ++ [u2]) ++ [u3]) = 0)
    by (rewrite count_audio_snoc by reflexivity; exact A2).
  (* fourth arrival *)
  assert (E4 := arrival_quiet (put c4 bs) (((ss ++ [u1]) ++ [u2]) ++ [u3]) ms t2
                  (S (S (S n))) r4 bid c4 L4 Q4 Hb A3 V4).
  change (status c4) with audio_requested in E4.
  rewrite !andb_false_r in E4. specialize (E4 eq_refl eq_refl).
  rewrite put_put in E4 by reflexivity.
  (* assemble *)
  subst o1 o2 o3 o4. rewrite E1. cbn [world]. rewrite E2. cbn [world].
  rewrite E3. cbn [world]. rewrite E4. cbn [world batches summaries events].
  split; [| split; [| split]].
  - exists c1. split; [exact L1 |]. unfold c1.
    cbn [apply_update fold_left apply_set status receivedCount].
    rewrite St, Rc. repeat split; reflexivity.
  - exists c3. split; [exact L3 |].
    split; [reflexivity |]. split; [cbn; rewrite Rc; reflexivity |].
    assert (P : AudioGenerationService.audio_already_processed
                  (lookup bid (batches (mkWorld (put c2 bs) ((ss ++ [u1]) ++ [u2])
                                          ms t (S (S n)) []))) = false).
    { cbn [batches].
      rewrite (lookup_put_id bid c2 bs b L)
        by (unfold c2, c1; rewrite !apply_update_id; apply (lookup_id _ _ _ L)).
      reflexivity. }
    split; [| split].
    + rewrite !status_writes_app, status_writes_trigger. reflexivity.
    + rewrite !dispatch_passes_app, dispatch_passes_trigger. reflexivity.
    + rewrite !posts_app. cbn [posts flat_map app log_received].
      rewrite app_nil_r. apply (posts_trigger _ _ P).
  - exists c4. split; [exact L4 |]. unfold c4.
    repeat split; try reflexivity. cbn. rewrite Rc. reflexivity.
  - eexists. split.
    + apply (lookup_put_id _ _ bs b L). unfold c4, c3, c2, c1.
      rewrite !apply_update_id. apply (lookup_id _ _ _ L).
    + repeat split; try reflexivity. cbn. rewrite Rc. reflexivity.
Qed.

End FourArrivals.

(** * Concurrent handlers *)

(** ** Interleavings *)

(** One atomic action of a handler: the awaited call runs against the
    world and the handler resumes with its answer.  A finished handler
    does nothing. *)
Definition step_thread (p : Prog unit) (w : World)
  : Prog unit * World * list Event :=
  match p with
  | Act op k => let '(r, w', ev) := exec op w in (k r, w', ev)
  | _ => (p, w, [])
  end.

Definition finished (p : Prog unit) : Prop :=
  match p with
  | Act _ _ => False
  | _ => True
  end.

(** Handlers in flight over one world. *)
Record Pool : Type := mkPool {
  pool_world : World;
  pool_threads : list (Prog unit)
}.

Fixpoint replace_nth {A} (i : nat) (x : A) (l : list A) : list A :=
  match l, i with
  | [], _ => []
  | _ :: rest, 0 => x :: rest
  | y :: rest, S j => y :: replace_nth j x rest
  end.

(** The handler [i] takes one step; its events are tagged with [i]. *)
Definition pool_step (i : nat) (pl : Pool) : Pool * list (nat * Event) :=
  match nth_error (pool_threads pl) i with
  | Some p =>
      let '(p', w', ev) := step_thread p (pool_world pl) in
      (mkPool w' (replace_nth i p' (pool_threads pl)), map (pair i) ev)
  | None => (pl, [])
  end.

(** The pool after the steps of a schedule, and the tagged trace. *)
Fixpoint pool_run (sched : list nat) (pl : Pool) : Pool * list (nat * Event) :=
  match sched with
  | [] => (pl, [])
  | i :: rest =>
      let '(pl1, tr1) := pool_step i pl in
      let '(pl2, tr2) := pool_run rest pl1 in
      (pl2, tr1 ++ tr2)
  end.

(** ** Status moves *)

(** The transitions of the lifecycle table: pending to partial_complete;
    pending or partial_complete to complete; complete or partial_complete
    to audio_requested; audio_requested to audio_complete; a non-terminal
    status to failed; failed to complete. *)
Definition table_transition (old new : Status) : bool :=
  match old, new with
  | pending, partial_complete
  | pending, complete
  | partial_complete, complete
  | complete, audio_requested
  | partial_complete, audio_requested
  | audio_requested, audio_complete
  | pending, failed
  | partial_complete, failed
  | complete, failed
  | audio_requested, failed
  | failed, complete => true
  | _, _ => false
  end.

(** The status writes of the source: those of the table, and the writes
    of audio_requested, audio_complete and audio_failed, which do not
    look at the status they replace. *)
Definition allowed_write (old new : Status) : bool :=
  table_transition old new
  || status_in new [audio_requested; audio_complete; audio_failed].

Definition follows_table (e : Event) : Prop :=
  match e with
  | EvStatus _ old new => table_transition old new = true
  | _ => True
  end.

Definition event_allowed (e : Event) : Prop :=
  match e with
  | EvStatus _ old new => allowed_write old new = true
  | _ => True
  end.

(** The reading of the lifecycle invariant under which every status
    write of every engine operation follows the table. *)
Definition status_moves_along_table : Prop :=
  forall (r : Request) (w : World),
    Forall follows_table (events (run (serve r) w)).

Lemma find_batch_cond (f : BFilter) (bs : list Batch) (b : Batch) :
  find_batch f bs = Some b -> cond_holds (f_status f) (status b) = true.
Proof.
  intro H. apply find_some in H as [_ H]. unfold filter_match in H.
  apply andb_true_iff in H. tauto.
Qed.

Lemma perform_allowed {X} (op : Op X) (w : World) :
  issues any_id true true X op -> Forall event_allowed (snd (perform op w)).
Proof.
  destruct op; simpl; intro H; auto;
    try (repeat constructor; simpl; auto; fail).
  - destruct (find_batch f (batches w)) as [b |] eqn:E; simpl; auto.
    apply find_batch_cond in E.
    inversion H; subst; cbn [sets_status existsb orb]; auto;
      constructor; auto; cbn in *;
      destruct (status b); try discriminate; reflexivity.
  - destruct (find (summary_match sid uid) (summaries w)); simpl; auto.
Qed.

Lemma replace_nth_Forall {A} (P : A -> Prop) (i : nat) (x : A) (l : list A) :
  Forall P l -> P x -> Forall P (replace_nth i x l).
Proof.
  intros H Hx. revert i. induction H as [| y l Hy Hl IH]; intro i;
    [destruct i; constructor |].
  destruct i; simpl; constructor; auto.
Qed.

Section PoolInvariant.

Variable P : forall X, Op X -> Prop.
Variable Q : Event -> Prop.
Hypothesis P_events :
  forall X (op : Op X) w, P X op -> Forall Q (snd (exec op w)).

Lemma pool_step_events (i : nat) (pl : Pool) :
  Forall (all_acts P) (pool_threads pl) ->
  Forall (all_acts P) (pool_threads (fst (pool_step i pl))) /\
  Forall (fun ie => Q (snd ie)) (snd (pool_step i pl)).
Proof.
  intro H. unfold pool_step.
  destruct (nth_error (pool_threads pl) i) as [p |] eqn:E; [| simpl; auto].
  assert (Hp : all_acts P p).
  { apply nth_error_In in E. rewrite Forall_forall in H. auto. }
  destruct p as [a | e | X op k]; simpl.
  - split; [apply replace_nth_Forall; auto | constructor].
  - split; [apply replace_nth_Forall; auto | constructor].
  - destruct Hp as [H1 H2]. specialize (P_events X op (pool_world pl) H1).
    destruct (exec op (pool_world pl)) as [[r w'] ev]. simpl in *.
    split; [apply replace_nth_Forall; auto |].
    apply Forall_map. exact P_events.
Qed.

Lemma pool_run_events (sched : list nat) (pl : Pool) :
  Forall (all_acts P) (pool_threads pl) ->
  Forall (fun ie => Q (snd ie)) (snd (pool_run sched pl)).
Proof.
  revert pl. induction sched as [| i rest IH]; intros pl H; [constructor |].
  cbn [pool_run]. destruct (pool_step_events i pl H) as [H1 H2].
  destruct (pool_step i pl) as [pl1 tr1]. simpl in H1, H2.
  specialize (IH pl1 H1). destruct (pool_run rest pl1) as [pl2 tr2].
  simpl in *. apply Forall_app. auto.
Qed.

End PoolInvariant.

(** C1 (as amended): in every run of an engine operation, and in every
    interleaving of any engine operations, whatever calls fail, each write
    of a batch's status is a transition of the lifecycle table or sets the
    status to audio_requested, audio_complete or audio_failed. *)
Theorem C1_status_writes_are_table_moves_or_audio_states
  (rs : list Request) (sched : list nat) (w : World) :
  Forall (fun r => Forall event_allowed (events (run (serve r) w))) rs /\
  Forall (fun ie => event_allowed (snd ie))
    (snd (pool_run sched (mkPool w (map serve rs)))).
Proof.
  assert (E : forall X (op : Op X) w0,
             issues any_id true true X op ->
             Forall event_allowed (snd (exec op w0))).
  { intros X op w0 H. apply exec_events. intro w1.
    apply perform_allowed. exact H. }
  split.
  - apply Forall_forall. intros r _.
    apply (run_events_all (issues any_id true true)); [exact E |].
    apply acts_serve.
  - apply (pool_run_events (issues any_id true true)); [exact E |].
    cbn [pool_threads]. apply Forall_map, Forall_forall. intros r _.
    apply acts_serve.
Qed.

(** ** The race for the partial-completion transition *)

(** checkBatchCompletion once its [$inc] has answered [batchTracker]. *)
Definition evaluator_after_increment (bid : string) (batchTracker : Batch)
  : Prog unit :=
  try_catch (WebhookServices.afterIncrement bid batchTracker)
            (WebhookServices.checkBatchCompletion_handler bid).

(** Where an evaluator stands in the race. *)
Inductive Phase : Type :=
| Before     (* has not tried the pending -> partial_complete update *)
| Armed      (* won it, has not entered the dispatcher yet *)
| Spent      (* won it and entered the dispatcher *)
| Lost       (* tried it and did not win *)
| Broken.    (* won a second update from pending: excluded by the protocol *)

Inductive OpKind : Type :=
| KCasPartial | KCasComplete | KDispatchLog | KPost
| KWriteRequested | KWriteAudioComplete | KQuiet | KOther.

Definition update_kind (c : StatusCond) (u : list BSet) : OpKind :=
  match c, u with
  | StatusIs pending, [SetStatus partial_complete; StampPartialCompletedAt] =>
      KCasPartial
  | StatusIs pending, [SetStatus complete; StampCompletedAt] => KCasComplete
  | AnyStatus, [SetStatus audio_requested; StampAudioRequestedAt] =>
      KWriteRequested
  | StatusNe audio_complete, [SetStatus audio_complete; StampAudioCompletedAt] =>
      KWriteAudioComplete
  | _, _ => KOther
  end.

Definition kind_of (bid : string) {X} (op : Op X) : OpKind :=
  match op with
  | BT_findOneAndUpdate f u _ =>
      if String.eqb (f_batchId f) bid then update_kind (f_status f) u
      else KOther
  | LogOp l => if is_dispatch_pass (EvLog l) then KDispatchLog else KQuiet
  | PostOp _ _ => KPost
  | BT_findOne _ | BT_find _ | BT_aggregate | AS_countDocuments _ _
  | AS_find _ | NowOp | DelayOp _ => KQuiet
  | AS_insertOne _ _ _ _ _ | AS_findOneAndUpdate _ _ _ | UM_insertOne _ => KOther
  end.

(** The conditional update answered a document. *)
Definition cas_hit {X} (op : Op X) : Res X -> bool :=
  match op in Op X return Res X -> bool with
  | BT_findOneAndUpdate _ _ _ =>
      fun r => match r with Ok (Some _) => true | _ => false end
  | _ => fun _ => false
  end.

Definition ok_kind (ph : Phase) (k : OpKind) : Prop :=
  match ph, k with
  | Broken, _ => True
  | Before, (KCasPartial | KQuiet) => True
  | Armed, KDispatchLog => True
  | Spent, (KCasComplete | KPost | KWriteRequested | KWriteAudioComplete | KQuiet) => True
  | Lost, (KCasComplete | KWriteAudioComplete | KQuiet) => True
  | _, _ => False
  end.

Definition next_phase (ph : Phase) (k : OpKind) (hit : bool) : Phase :=
  match ph, k with
  | Before, KCasPartial => if hit then Armed else Lost
  | Spent, KCasComplete => if hit then Broken else Spent
  | Lost, KCasComplete => if hit then Broken else Lost
  | Armed, KDispatchLog => Spent
  | _, _ => ph
  end.

(** From phase [ph] the program only takes actions allowed in its phase,
    and ends in a phase (with a result) satisfying [K], as long as no
    call fails. *)
Fixpoint conf (bid : string) {A} (ph : Phase) (p : Prog A)
  (K : Phase -> Res A -> Prop) : Prop :=
  match p with
  | Ret a => K ph (Ok a)
  | Throw e => K ph (Fail e)
  | Act op k =>
      ok_kind ph (kind_of bid op) /\
      forall x,
        conf bid (next_phase ph (kind_of bid op) (cas_hit op (Ok x)))
          (k (Ok x)) K
  end.

Section Conf.

Variable bid : string.

Lemma conf_mono {A} (ph : Phase) (p : Prog A) (K K' : Phase -> Res A -> Prop) :
  (forall ph' r, K ph' r -> K' ph' r) -> conf bid ph p K -> conf bid ph p K'.
Proof.
  intro H. revert ph. induction p as [a | e | X op k IH]; intro ph; simpl; auto.
  intros [H1 H2]. split; auto.
Qed.

Lemma conf_bind {A B} (ph : Phase) (p : Prog A) (f : A -> Prog B)
  (K : Phase -> Res B -> Prop) :
  conf bid ph p (fun ph' r => match r with
                              | Ok a => conf bid ph' (f a) K
                              | Fail e => K ph' (Fail e)
                              end) ->
  conf bid ph (bind p f) K.
Proof.
  revert ph. induction p as [a | e | X op k IH]; intro ph; simpl; auto.
  intros [H1 H2]. split; auto.
Qed.

Lemma conf_try_catch {A} (ph : Phase) (p : Prog A) (h : Err -> Prog A)
  (K : Phase -> Res A -> Prop) :
  conf bid ph p (fun ph' r => match r with
                              | Ok a => K ph' (Ok a)
                              | Fail e => conf bid ph' (h e) K
                              end) ->
  conf bid ph (try_catch p h) K.
Proof.
  revert ph. induction p as [a | e | X op k IH]; intro ph; simpl; auto.
  intros [H1 H2]. split; auto.
Qed.

Lemma conf_await {X} (ph : Phase) (op : Op X) (K : Phase -> Res X -> Prop) :
  ok_kind ph (kind_of bid op) ->
  (forall x, K (next_phase ph (kind_of bid op) (cas_hit op (Ok x))) (Ok x)) ->
  conf bid ph (await op) K.
Proof.
  intros H1 H2. simpl. split; [exact H1 |]. intro x. apply H2.
Qed.

Lemma conf_Broken {A} (p : Prog A) (K : Phase -> Res A -> Prop) :
  (forall r, K Broken r) -> conf bid Broken p K.
Proof.
  intro H. induction p as [a | e | X op k IH]; simpl; auto.
Qed.

End Conf.

Ltac kind_norm :=
  cbn beta iota delta
    [next_phase kind_of update_kind cas_hit ok_kind is_dispatch_pass text
     f_batchId f_status];
  rewrite ?String.eqb_refl;
  cbn beta iota delta
    [next_phase kind_of update_kind cas_hit ok_kind is_dispatch_pass text
     f_batchId f_status String.eqb Ascii.eqb Bool.eqb].

Ltac conf_step :=
  lazymatch goal with
  | |- conf _ _ (bind _ _) _ => apply conf_bind
  | |- conf _ _ (try_catch _ _) _ => apply conf_try_catch
  | |- conf _ _ (await _) _ =>
      apply conf_await; [kind_norm; exact I | intros ?; kind_norm]
  | |- conf _ _ (log _ _ _) _ => unfold log
  | |- conf _ _ (when ?c _) _ => destruct c; cbn [when]
  | |- conf _ _ (Ret _) _ => cbn [conf]
  | |- conf _ _ (Throw _) _ => cbn [conf]
  | |- conf _ _ (match ?x with _ => _ end) _ => destruct x
  | |- conf _ _ (if ?c then _ else _) _ => destruct c
  end.

Section RaceConformance.

Import AudioGenerationService WebhookServices.

Variable bid : string.

Lemma conf_sendLoop (l : list Summary) (K : Phase -> Res unit -> Prop) :
  (forall r, K Spent r) -> conf bid Spent (sendLoop l bid) K.
Proof.
  intro HK. induction l as [| s rest IH]; [apply HK |].
  cbn [sendLoop]. unfold sendIndividualSummaryForAudio, delay.
  repeat conf_step; auto.
Qed.

Lemma conf_trigger_armed (K : Phase -> Res unit -> Prop) :
  (forall r, K Spent r) -> conf bid Armed (triggerAudioGeneration bid) K.
Proof.
  intro HK. unfold triggerAudioGeneration.
  repeat first [conf_step | apply conf_sendLoop; intros [? | ?]]; auto.
Qed.

Lemma conf_handlePartialCompletion (bt : Batch)
  (K : Phase -> Res unit -> Prop) :
  (forall r, K Spent r) -> (forall r, K Lost r) ->
  conf bid Before (handlePartialCompletion bid bt) K.
Proof.
  intros HS HL. unfold handlePartialCompletion.
  repeat first [conf_step | apply conf_trigger_armed; intros [? | ?]]; auto.
Qed.

Lemma conf_handleFullCompletion (bt : Batch) (ph : Phase)
  (K : Phase -> Res unit -> Prop) :
  status bt = pending -> ph = Spent \/ ph = Lost ->
  (forall r, K ph r) -> (forall r, K Broken r) ->
  conf bid ph (handleFullCompletion bid bt) K.
Proof.
  intros St Hph HK HB. unfold handleFullCompletion. rewrite St.
  cbn [Status_eqb].
  destruct Hph as [-> | ->];
    repeat first [conf_step | apply conf_Broken; intros [? | ?]]; auto.
Qed.

Lemma conf_checkBatchAudioCompletion (ph : Phase)
  (K : Phase -> Res unit -> Prop) :
  ph = Spent \/ ph = Lost \/ ph = Broken ->
  (forall r, K ph r) ->
  conf bid ph (checkBatchAudioCompletion bid) K.
Proof.
  intros Hph HK. unfold checkBatchAudioCompletion.
  destruct Hph as [-> | [-> | ->]];
    [| | apply conf_Broken; exact HK];
    repeat conf_step; auto.
Qed.

(** The phases in which an evaluator may end. *)
Definition final_phase (ph : Phase) : Prop :=
  ph = Spent \/ ph = Lost \/ ph = Broken.

Let handler_ok (ph' : Phase) (r : Res unit) : Prop :=
  match r with
  | Ok _ => final_phase ph'
  | Fail _ =>
      conf bid ph'
        (log Error "Error checking batch completion for ${batchId}" bid)
        (fun ph'' _ => final_phase ph'')
  end.

Lemma handler_ok_final (ph : Phase) (r : Res unit) :
  final_phase ph -> handler_ok ph r.
Proof.
  intros Hph. destruct r; [exact Hph |]. unfold handler_ok.
  destruct Hph as [-> | [-> | ->]]; unfold final_phase;
    repeat conf_step; auto.
Qed.

Lemma conf_audio_check (c : bool) (ph : Phase) :
  final_phase ph ->
  conf bid ph (when c (checkBatchAudioCompletion bid)) handler_ok.
Proof.
  intros Hph. destruct c; cbn [when].
  - apply conf_checkBatchAudioCompletion; [exact Hph |].
    intro r. apply handler_ok_final. exact Hph.
  - exact Hph.
Qed.

Lemma conf_full_then_audio (snap : Batch) (c1 c2 : bool) (ph : Phase) :
  status snap = pending -> ph = Spent \/ ph = Lost ->
  conf bid ph
    (when c1 (handleFullCompletion bid snap) ;;
     when c2 (checkBatchAudioCompletion bid))
    handler_ok.
Proof.
  intros St Hph.
  assert (Fin : final_phase ph) by (unfold final_phase; tauto).
  apply conf_bind. destruct c1; cbn [when].
  - apply conf_handleFullCompletion; auto.
    + intros [? | ?]; [apply conf_audio_check; exact Fin |].
      apply (handler_ok_final ph (Fail e)). exact Fin.
    + intros [? | ?];
        [apply conf_audio_check; unfold final_phase; auto |].
      apply (handler_ok_final Broken (Fail e)). unfold final_phase. auto.
  - apply conf_audio_check. exact Fin.
Qed.

Lemma conf_evaluator (snap : Batch) :
  status snap = pending ->
  reached_half (receivedCount snap) (expectedCount snap) = true ->
  conf bid Before (evaluator_after_increment bid snap)
    (fun ph _ => final_phase ph).
Proof.
  intros St H. unfold evaluator_after_increment, afterIncrement,
    checkBatchCompletion_handler, evaluate.
  rewrite St, H. cbn [andb Status_eqb status_in existsb orb].
  apply conf_try_catch. fold handler_ok.
  change (fun (ph' : Phase) (r : Res unit) =>
            match r with
            | Ok _ => final_phase ph'
            | Fail e =>
                conf bid ph'
                  (log Error "Error checking batch completion for ${batchId}" bid)
                  (fun (ph : Phase) (_ : Res unit) => final_phase ph)
            end) with handler_ok.
  apply conf_bind. conf_step. conf_step.
  apply conf_bind. conf_step.
  apply conf_bind. cbn [when].
  apply conf_handlePartialCompletion; intros [? | ?].
  - rewrite andb_true_r. apply conf_full_then_audio; auto.
  - apply (handler_ok_final Spent (Fail e)). unfold final_phase. auto.
  - rewrite andb_true_r. apply conf_full_then_audio; auto.
  - apply (handler_ok_final Lost (Fail e)). unfold final_phase. auto.
Qed.

End RaceConformance.

(** ** Lists of phases *)

Lemma replace_nth_same {A} (i : nat) (a : A) (l : list A) :
  nth_error l i = Some a -> replace_nth i a l = l.
Proof.
  revert i. induction l as [| y l IH]; intros [| i]; simpl; try discriminate.
  - intros [= ->]. reflexivity.
  - intro H. rewrite IH; auto.
Qed.

Lemma nth_error_replace_nth_eq {A} (i : nat) (x a : A) (l : list A) :
  nth_error l i = Some a -> nth_error (replace_nth i x l) i = Some x.
Proof.
  revert i. induction l as [| y l IH]; intros [| i]; simpl; try discriminate; auto.
Qed.

Lemma nth_error_replace_nth_neq {A} (i j : nat) (x : A) (l : list A) :
  i <> j -> nth_error (replace_nth i x l) j = nth_error l j.
Proof.
  revert i j. induction l as [| y l IH]; intros [| i] [| j] N; simpl; auto;
    try contradiction.
Qed.

Lemma Forall2_replace_nth {A B} (R : A -> B -> Prop) (i : nat) (a : A) (b : B)
  (l1 : list A) (l2 : list B) :
  Forall2 R l1 l2 -> R a b ->
  Forall2 R (replace_nth i a l1) (replace_nth i b l2).
Proof.
  intros H Hab. revert i. induction H as [| x y l1 l2 Hxy H IH]; intro i;
    [destruct i; constructor |].
  destruct i; simpl; constructor; auto.
Qed.

Lemma Forall2_nth_error {A B} (R : A -> B -> Prop) (i : nat) (b : B)
  (l1 : list A) (l2 : list B) :
  Forall2 R l1 l2 -> nth_error l2 i = Some b ->
  exists a, nth_error l1 i = Some a /\ R a b.
Proof.
  intro H. revert i. induction H as [| x y l1 l2 Hxy H IH]; intros [| i];
    simpl; try discriminate.
  - intros [= ->]. eauto.
  - apply IH.
Qed.

Lemma In_replace_nth {A} (i : nat) (x y : A) (l : list A) :
  In y (replace_nth i x l) -> y = x \/ In y l.
Proof.
  revert i. induction l as [| z l IH]; intros [| i]; simpl; auto.
  - intros [H | H]; auto.
  - intros [H | H]; auto. destruct (IH i H); auto.
Qed.

(** The number of elements of [l] that satisfy [f]. *)
Definition count_if {A} (f : A -> bool) (l : list A) : nat :=
  List.length (filter f l).

Lemma count_if_replace_nth {A} (f : A -> bool) (i : nat) (x a : A) (l : list A) :
  nth_error l i = Some a ->
  count_if f (replace_nth i x l) + (if f a then 1 else 0)
  = count_if f l + (if f x then 1 else 0).
Proof.
  unfold count_if. revert i. induction l as [| y l IH]; intros [| i]; simpl;
    try discriminate.
  - intros [= ->]. destruct (f a), (f x); simpl; lia.
  - intro H. specialize (IH i H). destruct (f y); simpl; lia.
Qed.

Lemma count_if_app {A} (f : A -> bool) (l1 l2 : list A) :
  count_if f (l1 ++ l2) = count_if f l1 + count_if f l2.
Proof. unfold count_if. rewrite filter_app, length_app. reflexivity. Qed.

Lemma count_if_zero {A} (f : A -> bool) (l : list A) :
  Forall (fun x => f x = false) l -> count_if f l = 0.
Proof.
  unfold count_if. induction 1 as [| x l Hx _ IH]; simpl; [reflexivity |].
  rewrite Hx. exact IH.
Qed.

Lemma count_if_pos {A} (f : A -> bool) (l : list A) (i : nat) (a : A) :
  nth_error l i = Some a -> f a = true -> 1 <= count_if f l.
Proof.
  unfold count_if. revert i. induction l as [| y l IH]; intros [| i]; simpl;
    try discriminate.
  - intros [= ->] ->. simpl. lia.
  - intros H F. specialize (IH i H F). destruct (f y); simpl; lia.
Qed.

Lemma count_if_two {A} (f : A -> bool) (l : list A) (i j : nat) (a b : A) :
  nth_error l i = Some a -> nth_error l j = Some b ->
  f a = true -> f b = true -> i <> j -> 2 <= count_if f l.
Proof.
  revert i j.
  induction l as [| y l IH]; intros i j Hi Hj Fa Fb N;
    [destruct i; discriminate |].
  unfold count_if. cbn [filter].
  destruct i as [| i], j as [| j]; simpl in Hi, Hj.
  - contradiction.
  - injection Hi as ->. rewrite Fa. cbn [List.length].
    pose proof (count_if_pos f l j b Hj Fb). unfold count_if in *. lia.
  - injection Hj as ->. rewrite Fb. cbn [List.length].
    pose proof (count_if_pos f l i a Hi Fa). unfold count_if in *. lia.
  - assert (Nij : i <> j) by lia.
    specialize (IH i j Hi Hj Fa Fb Nij). unfold count_if in IH.
    destruct (f y); cbn [List.length]; lia.
Qed.

Lemma count_if_le {A} (f g : A -> bool) (l : list A) :
  (forall x, f x = true -> g x = true) -> count_if f l <= count_if g l.
Proof.
  intro H. unfold count_if. induction l as [| y l IH]; simpl; [lia |].
  destruct (f y) eqn:F; [rewrite (H y F); simpl; lia |].
  destruct (g y); simpl; lia.
Qed.

Lemma count_if_ext_in {A} (f g : A -> bool) (l : list A) :
  Forall (fun x => f x = g x) l -> count_if f l = count_if g l.
Proof.
  unfold count_if. induction 1 as [| x l Hx _ IH]; simpl; [reflexivity |].
  rewrite Hx. destruct (g x); simpl; congruence.
Qed.

(** ** The race invariant *)

Definition is_winner (ph : Phase) : bool :=
  match ph with Armed | Spent => true | _ => false end.

Definition is_spent (ph : Phase) : bool :=
  match ph with Spent => true | _ => false end.

(** The write that wins the race. *)
Definition is_partial_win (e : Event) : bool :=
  match e with
  | EvStatus _ pending partial_complete => true
  | _ => false
  end.

(** The side effects of the transition: entering the dispatcher, a
    request to the audio worker, a status write other than the
    audio_complete mark of the audio-completion check. *)
Definition noisy (e : Event) : bool :=
  match e with
  | EvStatus _ _ new => negb (Status_eqb new audio_complete)
  | EvPost _ => true
  | EvLog _ => is_dispatch_pass e
  end.

Definition partial_wins (tr : list (nat * Event)) : nat :=
  count_if (fun ie => is_partial_win (snd ie)) tr.

Definition dispatches (tr : list (nat * Event)) : nat :=
  count_if (fun ie => is_dispatch_pass (snd ie)) tr.

Lemma update_kind_inv (c : StatusCond) (u : list BSet) :
  match update_kind c u with
  | KCasPartial =>
      c = StatusIs pending /\
      u = [SetStatus partial_complete; StampPartialCompletedAt]
  | KCasComplete =>
      c = StatusIs pending /\ u = [SetStatus complete; StampCompletedAt]
  | KWriteRequested =>
      c = AnyStatus /\ u = [SetStatus audio_requested; StampAudioRequestedAt]
  | KWriteAudioComplete =>
      c = StatusNe audio_complete /\
      u = [SetStatus audio_complete; StampAudioCompletedAt]
  | KOther => True
  | KQuiet | KDispatchLog | KPost => False
  end.
Proof.
  unfold update_kind.
  repeat match goal with
         | |- context [match ?x with _ => _ end] => is_var x; destruct x
         end; try exact I; split; reflexivity.
Qed.

Lemma count_if_map_pair (i : nat) (f : Event -> bool) (ev : list Event) :
  count_if (fun ie : nat * Event => f (snd ie)) (map (pair i) ev) = count_if f ev.
Proof.
  unfold count_if. induction ev as [| e ev IH]; simpl; [reflexivity |].
  destruct (f e); simpl; congruence.
Qed.

Section Race.

Variable bid : string.

Definition final_ok (ph : Phase) (_ : Res unit) : Prop := final_phase ph.

(** What holds of a pool of racing evaluators with its ghost phases and
    the trace so far. *)
Record RaceInv (phases : list Phase) (pl : Pool) (tr : list (nat * Event))
  : Prop := {
  ri_conf :
    Forall2 (fun ph p => conf bid ph p final_ok) phases (pool_threads pl);
  ri_sound : ~ In Broken phases;
  ri_nofaults : faults (pool_world pl) = [];
  ri_unique : unique_ids (batches (pool_world pl));
  ri_status :
    exists b, lookup bid (batches (pool_world pl)) = Some b /\
      (status b = pending -> Forall (eq Before) phases) /\
      (status b <> pending -> count_if is_winner phases = 1);
  ri_wins : partial_wins tr = count_if is_winner phases;
  ri_dispatches : dispatches tr = count_if is_spent phases;
  ri_attribution :
    forall i e, In (i, e) tr -> noisy e = true ->
      exists ph, nth_error phases i = Some ph /\ is_winner ph = true
}.

(** What one action of an evaluator in phase [ph] must ensure. *)
Definition step_ok (ph ph' : Phase) (b : Batch) (w' : World)
  (ev : list Event) : Prop :=
  ph' <> Broken /\ faults w' = [] /\ unique_ids (batches w') /\
  (exists b', lookup bid (batches w') = Some b' /\
     (status b' = pending -> ph' = Before /\ status b = pending) /\
     (status b' <> pending ->
        (status b <> pending /\ is_winner ph' = is_winner ph) \/
        (status b = pending /\ ph = Before /\ ph' = Armed))) /\
  count_if is_partial_win ev = (if is_winner ph' && negb (is_winner ph) then 1 else 0) /\
  count_if is_dispatch_pass ev = (if is_spent ph' && negb (is_spent ph) then 1 else 0) /\
  (is_winner ph = true -> is_winner ph' = true) /\
  (is_spent ph = true -> is_spent ph' = true) /\
  (forall e, In e ev -> noisy e = true -> is_winner ph' = true).

Lemma Forall_Before_nth (phases : list Phase) (i : nat) (ph : Phase) :
  Forall (eq Before) phases -> nth_error phases i = Some ph -> ph = Before.
Proof.
  intros H E. apply nth_error_In in E. rewrite Forall_forall in H.
  symmetry. auto.
Qed.

Lemma race_step_gen (phases : list Phase) (pl : Pool) (tr : list (nat * Event))
  (i : nat) (p p' : Prog unit) (ph ph' : Phase) (b : Batch) (w' : World)
  (ev : list Event) :
  RaceInv phases pl tr ->
  nth_error (pool_threads pl) i = Some p ->
  nth_error phases i = Some ph ->
  lookup bid (batches (pool_world pl)) = Some b ->
  conf bid ph' p' final_ok ->
  step_ok ph ph' b w' ev ->
  RaceInv (replace_nth i ph' phases)
          (mkPool w' (replace_nth i p' (pool_threads pl)))
          (tr ++ map (pair i) ev).
Proof.
  intros [Hc Hs Hf Hu (b0 & L0 & P0 & Q0) Hw Hd Ha] Ep Eph L Hconf
    (NB & F' & U' & (b' & L' & P' & Q') & Dw & Dd & Mw & Ms & Hn).
  rewrite L in L0. injection L0 as <-.
  pose proof (count_if_replace_nth is_winner i ph' ph phases Eph) as Cw.
  pose proof (count_if_replace_nth is_spent i ph' ph phases Eph) as Cs.
  constructor; cbn [pool_world pool_threads].
  - apply Forall2_replace_nth; assumption.
  - intro H. apply In_replace_nth in H as [H | H]; [congruence | contradiction].
  - exact F'.
  - exact U'.
  - exists b'. split; [exact L' |]. split.
    + intro S'. destruct (P' S') as [-> Sb].
      apply replace_nth_Forall; auto.
    + intro S'. destruct (Q' S') as [[Sb Ew] | (Sb & -> & ->)].
      * specialize (Q0 Sb). rewrite Ew in Cw. destruct (is_winner ph); lia.
      * specialize (P0 Sb). rewrite (count_if_zero is_winner phases) in Cw.
        -- simpl in Cw. lia.
        -- eapply Forall_impl; [| exact P0]. intros x <-. reflexivity.
  - unfold partial_wins in *. rewrite count_if_app, count_if_map_pair, Hw, Dw.
    destruct (is_winner ph) eqn:E1; [rewrite (Mw eq_refl) in *; simpl; lia |].
    destruct (is_winner ph'); simpl; lia.
  - unfold dispatches in *. rewrite count_if_app, count_if_map_pair, Hd, Dd.
    destruct (is_spent ph) eqn:E1; [rewrite (Ms eq_refl) in *; simpl; lia |].
    destruct (is_spent ph'); simpl; lia.
  - intros j e Hin Hnoisy. apply in_app_or in Hin as [Hin | Hin].
    + destruct (Ha j e Hin Hnoisy) as (phj & Ej & Wj).
      destruct (Nat.eq_dec i j) as [<- | Nij].
      * exists ph'. split; [eapply nth_error_replace_nth_eq; eauto |].
        apply Mw. congruence.
      * exists phj. rewrite nth_error_replace_nth_neq by exact Nij. auto.
    + apply in_map_iff in Hin as (e' & [= <- <-] & Hin).
      exists ph'. split; [eapply nth_error_replace_nth_eq; eauto |].
      eapply Hn; eauto.
Qed.


Lemma step_ok_still (ph : Phase) (b : Batch) (w' : World) (ev : list Event) :
  ph <> Broken -> faults w' = [] -> unique_ids (batches w') ->
  lookup bid (batches w') = Some b ->
  (status b = pending -> ph = Before) ->
  count_if is_partial_win ev = 0 -> count_if is_dispatch_pass ev = 0 ->
  (forall e, In e ev -> noisy e = true -> is_winner ph = true) ->
  step_ok ph ph b w' ev.
Proof.
  intros NB F U L P Cw Cd Hn. unfold step_ok.
  split; [exact NB |]. split; [exact F |]. split; [exact U |].
  split; [exists b; split; [exact L |]; split; [auto | left; auto] |].
  rewrite Cw, Cd. destruct ph; simpl; repeat split; auto.
Qed.

Lemma next_phase_quiet (ph : Phase) (hit : bool) : next_phase ph KQuiet hit = ph.
Proof. destruct ph; reflexivity. Qed.

Lemma perform_race {X} (op : Op X) (ph : Phase) (w : World) (b : Batch) :
  faults w = [] -> unique_ids (batches w) ->
  lookup bid (batches w) = Some b ->
  (status b = pending -> ph = Before) ->
  ph <> Broken -> ok_kind ph (kind_of bid op) ->
  step_ok ph
    (next_phase ph (kind_of bid op) (cas_hit op (Ok (fst (fst (perform op w))))))
    b (snd (fst (perform op w))) (snd (perform op w)).
Proof.
  intros F U L P NB Hok.
  assert (Quiet : forall w' ev,
            faults w' = [] -> unique_ids (batches w') ->
            lookup bid (batches w') = Some b ->
            count_if is_partial_win ev = 0 -> count_if is_dispatch_pass ev = 0 ->
            (forall e, In e ev -> noisy e = true -> is_winner ph = true) ->
            step_ok ph ph b w' ev).
  { intros. apply step_ok_still; auto. }
  destruct op; cbn [kind_of] in *; cbn [perform fst snd];
    rewrite ?next_phase_quiet;
    try (apply Quiet; auto; try reflexivity; intros ? []; fail);
    try (destruct ph; contradiction).
  - (* findOneAndUpdate *)
    destruct f as [fid c]. cbn [f_batchId f_status] in *.
    destruct (String.eqb fid bid) eqn:Efid; [| destruct ph; contradiction].
    apply String.eqb_eq in Efid. subst fid.
    pose proof (update_kind_inv c u) as Inv.
    destruct (update_kind c u) eqn:Ku; try contradiction;
      try (destruct ph; contradiction).
    + (* the partial-completion update *)
      destruct Inv as [-> ->].
      assert (ph = Before) as -> by (destruct ph; try contradiction; reflexivity).
      destruct (cond_holds (StatusIs pending) (status b)) eqn:Sb.
      * rewrite (find_batch_hit bid _ _ b L Sb). cbn [fst snd cas_hit next_phase].
        assert (Sp : status b = pending) by (apply Status_eqb_eq; exact Sb).
        unfold step_ok.
        split; [discriminate |]. split; [exact F |].
        split; [apply update_batch_unique; exact U |].
        split.
        { eexists. split.
          - cbn [batches set_batches]. apply lookup_update_same;
              [intro; apply apply_update_id | exact L | assumption || reflexivity].
          - split; [discriminate |]. intros _. right. auto. }
        rewrite Sp. cbn. repeat split; auto.
      * rewrite (find_batch_miss bid _ _ b U L Sb).
        cbn [fst snd cas_hit next_phase]. unfold step_ok.
        assert (Sn : status b <> pending).
        { intro E. rewrite E in Sb. discriminate. }
        split; [discriminate |]. split; [exact F |]. split; [exact U |].
        split; [exists b; split; [exact L |]; split; [contradiction | left; auto] |].
        cbn; repeat split; auto; intros ? [].
    + (* the completion update from pending *)
      destruct Inv as [-> ->].
      assert (Sn : status b <> pending).
      { intro E. specialize (P E). subst ph. contradiction. }
      assert (Sb : cond_holds (StatusIs pending) (status b) = false).
      { cbn. destruct (status b); try reflexivity. contradiction. }
      rewrite (find_batch_miss bid _ _ b U L Sb).
      cbn [fst snd cas_hit].
      replace (next_phase ph KCasComplete false) with ph
        by (destruct ph; reflexivity).
      apply Quiet; auto; intros ? [].
    + (* the write of audio_requested *)
      destruct Inv as [-> ->].
      assert (ph = Spent) as -> by (destruct ph; try contradiction; reflexivity).
      assert (Sn : status b <> pending).
      { intro E. specialize (P E). discriminate. }
      rewrite (find_batch_hit bid AnyStatus _ b L eq_refl).
      cbn [fst snd cas_hit next_phase]. unfold step_ok.
      split; [discriminate |]. split; [exact F |].
      split; [apply update_batch_unique; exact U |].
      split.
      { eexists. split.
        - cbn [batches set_batches]. apply lookup_update_same;
              [intro; apply apply_update_id | exact L | assumption || reflexivity].
        - split; [discriminate |]. intros _. left. auto. }
      cbn. destruct (status b); repeat split; auto.
    + (* the mark of the audio-completion check *)
      destruct Inv as [-> ->].
      assert (Sn : status b <> pending).
      { intro E. specialize (P E). subst ph. contradiction. }
      assert (NP : forall h, next_phase ph KWriteAudioComplete h = ph)
        by (intro; destruct ph; try reflexivity; contradiction).
      rewrite NP.
      cbn [perform].
      destruct (cond_holds (StatusNe audio_complete) (status b)) eqn:Sb.
      * rewrite (find_batch_hit bid _ _ b L Sb). cbn [fst snd]. unfold step_ok.
        split; [exact NB |]. split; [exact F |].
        split; [apply update_batch_unique; exact U |].
        split.
        { eexists. split.
          - cbn [batches set_batches]. apply lookup_update_same;
              [intro; apply apply_update_id | exact L | assumption || reflexivity].
          - split; [discriminate |]. intros _. left. auto. }
        cbn. destruct (status b), ph; repeat split; auto;
          intros ? [<- | []]; discriminate.
      * rewrite (find_batch_miss bid _ _ b U L Sb). cbn [fst snd].
        apply Quiet; auto; intros ? [].
  - (* logger *)
    destruct (is_dispatch_pass (EvLog l)) eqn:D.
    + assert (ph = Armed) as -> by (destruct ph; try contradiction; reflexivity).
      cbn [next_phase]. unfold step_ok.
      assert (Sn : status b <> pending).
      { intro E. specialize (P E). discriminate. }
      split; [discriminate |]. split; [exact F |]. split; [exact U |].
      split; [exists b; split; [exact L |]; split; [contradiction | left; auto] |].
      unfold count_if. cbn [filter is_partial_win]. rewrite D.
      cbn. repeat split; auto.
    + rewrite next_phase_quiet. apply Quiet; auto.
      * unfold count_if. cbn [filter]. rewrite D. reflexivity.
      * intros e [<- | []]. cbn [noisy]. rewrite D. discriminate.
  - (* request to the audio worker *)
    assert (ph = Spent) as -> by (destruct ph; try contradiction; reflexivity).
    cbn [next_phase]. apply Quiet; auto.
Qed.

End Race.

(** ** The race, step by step *)

Section RaceRun.

Variable bid : string.

Lemma pool_eta (pl : Pool) : mkPool (pool_world pl) (pool_threads pl) = pl.
Proof. destruct pl; reflexivity. Qed.

Lemma race_step (phases : list Phase) (pl : Pool) (tr : list (nat * Event))
  (i : nat) :
  RaceInv bid phases pl tr ->
  exists phases',
    RaceInv bid phases' (fst (pool_step i pl)) (tr ++ snd (pool_step i pl)).
Proof.
  intro Inv. unfold pool_step.
  destruct (nth_error (pool_threads pl) i) as [p |] eqn:Ep;
    [| exists phases; cbn [fst snd]; rewrite app_nil_r; exact Inv].
  destruct (Forall2_nth_error _ i p _ _ (ri_conf _ _ _ _ Inv) Ep)
    as (ph & Eph & Hc).
  destruct p as [a | e | X op k].
  - exists phases. cbn [step_thread fst snd map].
    rewrite (replace_nth_same i _ _ Ep), app_nil_r, pool_eta. exact Inv.
  - exists phases. cbn [step_thread fst snd map].
    rewrite (replace_nth_same i _ _ Ep), app_nil_r, pool_eta. exact Inv.
  - cbn [step_thread]. rewrite (exec_nofaults op _ (ri_nofaults _ _ _ _ Inv)).
    cbn [fst snd].
    destruct Hc as [Hok Hk].
    destruct (ri_status _ _ _ _ Inv) as (b & L & P0 & Q0).
    assert (NB : ph <> Broken).
    { intros ->. apply (ri_sound _ _ _ _ Inv).
      eapply nth_error_In. exact Eph. }
    assert (Pb : status b = pending -> ph = Before).
    { intro Sb. eapply Forall_Before_nth; [exact (P0 Sb) | exact Eph]. }
    eexists.
    eapply (race_step_gen bid phases pl tr i _ _ ph _ b _ _ Inv Ep Eph L).
    + apply Hk.
    + apply perform_race; auto.
      * exact (ri_nofaults _ _ _ _ Inv).
      * exact (ri_unique _ _ _ _ Inv).
Qed.

Lemma race_run (sched : list nat) :
  forall (phases : list Phase) (pl : Pool) (tr : list (nat * Event)),
  RaceInv bid phases pl tr ->
  exists phases',
    RaceInv bid phases' (fst (pool_run sched pl)) (tr ++ snd (pool_run sched pl)).
Proof.
  induction sched as [| i rest IH]; intros phases pl tr Inv.
  - exists phases. cbn. rewrite app_nil_r. exact Inv.
  - destruct (race_step phases pl tr i Inv) as (ph1 & Inv1).
    cbn [pool_run].
    destruct (pool_step i pl) as [pl1 tr1]. cbn [fst snd] in Inv1.
    destruct (IH ph1 pl1 (tr ++ tr1) Inv1) as (ph2 & Inv2).
    destruct (pool_run rest pl1) as [pl2 tr2]. cbn [fst snd] in *.
    exists ph2. rewrite app_assoc. exact Inv2.
Qed.

Lemma race_start (w : World) (b : Batch) (snaps : list Batch) :
  faults w = [] -> unique_ids (batches w) ->
  lookup bid (batches w) = Some b -> status b = pending ->
  Forall (fun s => status s = pending /\
            reached_half (receivedCount s) (expectedCount s) = true) snaps ->
  RaceInv bid (map (fun _ => Before) snaps)
    (mkPool w (map (evaluator_after_increment bid) snaps)) [].
Proof.
  intros F U L Sb Hs.
  assert (AllB : Forall (eq Before) (map (fun _ : Batch => Before) snaps)).
  { apply Forall_forall. intros x H. apply in_map_iff in H as (? & <- & _).
    reflexivity. }
  assert (Zero : forall f, f Before = false ->
            count_if f (map (fun _ : Batch => Before) snaps) = 0).
  { intros f Hf. apply count_if_zero. eapply Forall_impl; [| exact AllB].
    intros a <-. exact Hf. }
  constructor; cbn [pool_world pool_threads].
  - clear AllB Zero.
    induction Hs as [| s l [S1 S2] _ IH]; cbn [map]; constructor;
      [apply conf_evaluator; assumption | exact IH].
  - intro H. apply in_map_iff in H as (? & E & _). discriminate.
  - exact F.
  - exact U.
  - exists b. split; [exact L |]. split; [intros _; exact AllB |].
    intro N. contradiction.
  - rewrite Zero; reflexivity.
  - rewrite Zero; reflexivity.
  - intros i e [].
Qed.

Lemma final_phases (phases : list Phase) (ps : list (Prog unit)) :
  Forall2 (fun ph p => conf bid ph p (final_ok)) phases ps ->
  ~ In Broken phases -> Forall finished ps ->
  Forall (fun ph => ph = Spent \/ ph = Lost) phases.
Proof.
  induction 1 as [| ph p phs ps Hp Hc IH]; intros Hs Fin; [constructor |].
  inversion Fin as [| ? ? Fp Fps]; subst.
  constructor.
  - assert (FP : final_phase ph).
    { destruct p; cbn in Hp, Fp; [exact Hp | exact Hp | contradiction]. }
    destruct FP as [-> | [-> | ->]]; auto.
    exfalso. apply Hs. left. reflexivity.
  - apply IH; [| exact Fps]. intro H. apply Hs. right. exact H.
Qed.

(** When every evaluator has returned, each one is a winner that went
    through the dispatcher or a loser. *)
Lemma race_end (phases : list Phase) (pl : Pool) (tr : list (nat * Event)) :
  RaceInv bid phases pl tr ->
  Forall finished (pool_threads pl) -> pool_threads pl <> [] ->
  partial_wins tr = 1 /\ dispatches tr = 1.
Proof.
  intros Inv Fin NE.
  assert (Final : Forall (fun ph => ph = Spent \/ ph = Lost) phases).
  { exact (final_phases phases (pool_threads pl) (ri_conf _ _ _ _ Inv)
             (ri_sound _ _ _ _ Inv) Fin). }
  assert (Same : count_if is_spent phases = count_if is_winner phases).
  { apply count_if_ext_in. eapply Forall_impl; [| exact Final].
    intros a [-> | ->]; reflexivity. }
  rewrite (ri_wins _ _ _ _ Inv), (ri_dispatches _ _ _ _ Inv), Same.
  destruct (ri_status _ _ _ _ Inv) as (b & _ & P0 & Q0).
  assert (N : status b <> pending).
  { intro Sb. specialize (P0 Sb).
    pose proof (ri_conf _ _ _ _ Inv) as Hc.
    destruct Hc as [| ph p phs ps _ _]; [contradiction |].
    inversion P0 as [| ? ? E _]; subst.
    inversion Final as [| ? ? [E | E] _]; discriminate. }
  rewrite (Q0 N). auto.
Qed.

End RaceRun.

(** ** Every pool can be run to completion *)

Lemma replace_nth_length {A} (i : nat) (x : A) (l : list A) :
  List.length (replace_nth i x l) = List.length l.
Proof.
  revert i. induction l as [| y l IH]; intros [| i]; simpl; auto.
Qed.

Lemma pool_run_app (s1 s2 : list nat) (pl : Pool) :
  pool_run (s1 ++ s2) pl =
  (fst (pool_run s2 (fst (pool_run s1 pl))),
   snd (pool_run s1 pl) ++ snd (pool_run s2 (fst (pool_run s1 pl)))).
Proof.
  revert pl. induction s1 as [| i s1 IH]; intro pl; cbn [app pool_run fst snd].
  - destruct (pool_run s2 pl); reflexivity.
  - destruct (pool_step i pl) as [pl1 tr1]. rewrite IH.
    destruct (pool_run s1 pl1) as [pl2 tr2]. cbn [fst snd].
    rewrite app_assoc. reflexivity.
Qed.

Lemma thread_finishes (p : Prog unit) :
  forall (i : nat) (pl : Pool),
  nth_error (pool_threads pl) i = Some p ->
  exists n p',
    nth_error (pool_threads (fst (pool_run (repeat i n) pl))) i = Some p' /\
    finished p' /\
    forall j, j <> i ->
      nth_error (pool_threads (fst (pool_run (repeat i n) pl))) j
      = nth_error (pool_threads pl) j.
Proof.
  induction p as [a | e | X op k IH]; intros i pl Ep.
  - exists 0, (Ret a). cbn. auto.
  - exists 0, (Throw e). cbn. auto.
  - destruct (exec op (pool_world pl)) as [[r w'] ev] eqn:Ex.
    set (pl1 := mkPool w' (replace_nth i (k r) (pool_threads pl))).
    assert (E1 : nth_error (pool_threads pl1) i = Some (k r)).
    { unfold pl1. cbn. exact (nth_error_replace_nth_eq i (k r) _ _ Ep). }
    destruct (IH r i pl1 E1) as (n & p' & En & Fp & Oth).
    exists (S n), p'. cbn [repeat pool_run].
    unfold pool_step. rewrite Ep. cbn [step_thread]. rewrite Ex. fold pl1.
    destruct (pool_run (repeat i n) pl1) as [pl2 tr2]. cbn [fst] in *.
    split; [exact En |]. split; [exact Fp |].
    intros j Nj. rewrite (Oth j Nj). unfold pl1. cbn.
    apply nth_error_replace_nth_neq. auto.
Qed.

Lemma pool_can_finish_upto (n : nat) :
  forall pl : Pool,
  exists sched,
    forall j p, j < n ->
      nth_error (pool_threads (fst (pool_run sched pl))) j = Some p ->
      finished p.
Proof.
  induction n as [| n IH]; intro pl.
  - exists []. intros j p H. lia.
  - destruct (IH pl) as (s1 & H1).
    set (pl1 := fst (pool_run s1 pl)) in *.
    destruct (nth_error (pool_threads pl1) n) as [p |] eqn:Ep.
    + destruct (thread_finishes p n pl1 Ep) as (m & p' & En & Fp & Oth).
      exists (s1 ++ repeat n m). rewrite pool_run_app. cbn [fst]. fold pl1.
      intros j q Hj Eq.
      destruct (Nat.eq_dec j n) as [-> | Nj].
      * rewrite En in Eq. injection Eq as <-. exact Fp.
      * rewrite (Oth j Nj) in Eq. apply (H1 j q); [lia | exact Eq].
    + exists s1. fold pl1. intros j q Hj Eq.
      destruct (Nat.eq_dec j n) as [-> | Nj]; [congruence |].
      apply (H1 j q); [lia | exact Eq].
Qed.

Lemma pool_run_length (sched : list nat) :
  forall pl : Pool,
  List.length (pool_threads (fst (pool_run sched pl)))
  = List.length (pool_threads pl).
Proof.
  induction sched as [| i rest IH]; intro pl; [reflexivity |].
  cbn [pool_run]. unfold pool_step.
  destruct (nth_error (pool_threads pl) i) as [p |].
  - destruct (step_thread p (pool_world pl)) as [[p' w'] ev].
    specialize (IH (mkPool w' (replace_nth i p' (pool_threads pl)))).
    destruct (pool_run rest _) as [pl2 tr2]. cbn [fst] in *.
    rewrite IH. cbn. apply replace_nth_length.
  - specialize (IH pl). destruct (pool_run rest pl). exact IH.
Qed.

(** Handlers are finite programs: some schedule lets all of them return. *)
Lemma pool_can_finish (pl : Pool) :
  exists sched, Forall finished (pool_threads (fst (pool_run sched pl))).
Proof.
  assert (G : forall n, exists sched,
            List.length (pool_threads (fst (pool_run sched pl))) <= n ->
            Forall finished (pool_threads (fst (pool_run sched pl)))).
  { intro n. destruct (pool_can_finish_upto n pl) as (s & H).
    exists s. intro Len. apply Forall_forall. intros p Hp.
    apply In_nth_error in Hp as (j & Ej).
    apply (H j p); [| exact Ej].
    assert (j < List.length (pool_threads (fst (pool_run s pl)))).
    { apply nth_error_Some. rewrite Ej. discriminate. }
    lia. }
  destruct (G (List.length (pool_threads pl))) as (s & H).
  exists s. apply H. rewrite pool_run_length. lia.
Qed.

(** ** The evaluator is the handler after its increment *)

Lemma checkBatchCompletion_reaches_evaluator (bid : string) (w : World) (b : Batch) :
  faults w = [] -> lookup bid (batches w) = Some b ->
  exists w' snap,
    step_thread (WebhookServices.checkBatchCompletion bid) w
    = (evaluator_after_increment bid snap, w', []) /\
    receivedCount snap = S (receivedCount b) /\ status snap = status b /\
    expectedCount snap = expectedCount b /\
    lookup bid (batches w') = Some snap /\ faults w' = [].
Proof.
  intros F L. unfold WebhookServices.checkBatchCompletion.
  cbn [try_catch bind await step_thread].
  rewrite (exec_nofaults _ w F). cbn [perform fst snd].
  rewrite (find_batch_hit bid AnyStatus _ b L eq_refl).
  cbn [fst snd sets_status].
  eexists. eexists. split; [reflexivity |].
  split; [cbn; lia |]. split; [reflexivity |]. split; [reflexivity |].
  split; [| exact F].
  cbn [batches set_batches].
  apply lookup_update_same; [intro; apply apply_update_id | exact L | reflexivity].
Qed.

(** ** N evaluators that saw the batch pending at the threshold *)

(** What an evaluator saw in the tracker its increment returned. *)
Definition observes_pending_at_half (snap : Batch) : bool :=
  Status_eqb (status snap) pending
  && reached_half (receivedCount snap) (expectedCount snap).

(** The evaluators in flight, one per snapshot, over the world [w]. *)
Definition racing (bid : string) (w : World) (snaps : list Batch) : Pool :=
  mkPool w (map (evaluator_after_increment bid) snaps).

(** Entering the dispatcher, a request to the audio worker, or any write
    of the status. *)
Definition side_effect (e : Event) : bool :=
  match e with
  | EvStatus _ _ _ => true
  | EvPost _ => true
  | EvLog _ => is_dispatch_pass e
  end.

(** Every side effect of a race is the winner's. *)
Definition losers_have_no_side_effects : Prop :=
  forall (bid : string) (w : World) (b : Batch) (snaps : list Batch)
         (sched : list nat),
    faults w = [] -> unique_ids (batches w) ->
    lookup bid (batches w) = Some b -> status b = pending ->
    forallb observes_pending_at_half snaps = true ->
    forall i j e e',
      In (i, e) (snd (pool_run sched (racing bid w snaps))) ->
      is_partial_win e = true ->
      In (j, e') (snd (pool_run sched (racing bid w snaps))) ->
      side_effect e' = true ->
      j = i.

(** Two evaluators over a batch of two units that both carry audio. *)
Definition race_batch : Batch :=
  mkBatch "b1" 2 2 pending 0 None None None None None 100 ["u1"; "u2"] None None.

Definition race_units : list Summary :=
  [mkSummary 1 "u1" "s1" "user" "t1" (Some "b1") true (Some "a1");
   mkSummary 2 "u2" "s2" "user" "t2" (Some "b1") true (Some "a2")].

Definition race_world : World := mkWorld [race_batch] race_units [] 5 3 [].

Definition race_snaps : list Batch :=
  [mkBatch "b1" 2 1 pending 0 None None None None None 100 ["u1"; "u2"] None None;
   race_batch].

(** The first evaluator wins the conditional update, then the second one
    runs to its end. *)
Definition race_schedule : list nat := repeat 0 4 ++ repeat 1 13.

Lemma forallb_observes (snaps : list Batch) :
  forallb observes_pending_at_half snaps = true ->
  Forall (fun s => status s = pending /\
            reached_half (receivedCount s) (expectedCount s) = true) snaps.
Proof.
  intro H. apply Forall_forall. intros s Hs.
  rewrite forallb_forall in H. specialize (H s Hs).
  unfold observes_pending_at_half in H. apply andb_prop in H as [H1 H2].
  split; [apply Status_eqb_eq; exact H1 | exact H2].
Qed.

(** C3 (as amended): N evaluators race from the point where each holds a
    snapshot of the batch in status pending at or above the 50% threshold,
    no database call failing.  Under every interleaving at most one
    pending to partial_complete update succeeds and the dispatcher is
    entered at most once; every dispatcher entry, request to the audio
    worker and status write other than a write of audio_complete is made
    by one and the same evaluator; once all evaluators have returned there
    was exactly one winning update and exactly one dispatcher entry; and
    every interleaving can be continued until all of them have returned.
    A loser may still write audio_complete. *)
Theorem C3_one_winner_and_one_dispatch_in_a_race
  (bid : string) (w : World) (b : Batch) (snaps : list Batch) :
  faults w = [] -> unique_ids (batches w) ->
  lookup bid (batches w) = Some b -> status b = pending ->
  snaps <> [] ->
  forallb observes_pending_at_half snaps = true ->
  (forall sched : list nat,
     partial_wins (snd (pool_run sched (racing bid w snaps))) <= 1 /\
     dispatches (snd (pool_run sched (racing bid w snaps))) <= 1 /\
     (forall i j e e',
        In (i, e) (snd (pool_run sched (racing bid w snaps))) ->
        In (j, e') (snd (pool_run sched (racing bid w snaps))) ->
        noisy e = true -> noisy e' = true -> i = j) /\
     (Forall finished (pool_threads (fst (pool_run sched (racing bid w snaps)))) ->
      partial_wins (snd (pool_run sched (racing bid w snaps))) = 1 /\
      dispatches (snd (pool_run sched (racing bid w snaps))) = 1)) /\
  (forall sched : list nat, exists more : list nat,
     Forall finished
       (pool_threads (fst (pool_run (sched ++ more) (racing bid w snaps))))).
Proof.
  intros F U L Sb NE Obs. split.
  - intro sched.
    pose proof (race_start bid w b snaps F U L Sb (forallb_observes snaps Obs))
      as Inv0.
    destruct (race_run bid sched _ _ _ Inv0) as (phases & Inv).
    fold (racing bid w snaps) in Inv. cbn [app] in Inv.
    set (tr := snd (pool_run sched (racing bid w snaps))) in *.
    set (pl := fst (pool_run sched (racing bid w snaps))) in *.
    assert (W1 : count_if is_winner phases <= 1).
    { destruct (ri_status _ _ _ _ Inv) as (b' & _ & P0 & Q0).
      destruct (Status_eqb (status b') pending) eqn:E.
      - apply Status_eqb_eq in E. rewrite count_if_zero; [lia |].
        eapply Forall_impl; [| exact (P0 E)]. intros a <-. reflexivity.
      - rewrite Q0; [lia |]. intro E'. rewrite E' in E. discriminate. }
    split; [rewrite (ri_wins _ _ _ _ Inv); exact W1 |].
    split.
    { rewrite (ri_dispatches _ _ _ _ Inv).
      eapply Nat.le_trans; [| exact W1].
      apply count_if_le. intros [] H; try discriminate; reflexivity. }
    split.
    { intros i j e e' Hi Hj Ne Ne'.
      destruct (ri_attribution _ _ _ _ Inv i e Hi Ne) as (phi & Ei & Wi).
      destruct (ri_attribution _ _ _ _ Inv j e' Hj Ne') as (phj & Ej & Wj).
      destruct (Nat.eq_dec i j) as [E | N]; [exact E |].
      pose proof (count_if_two is_winner phases i j phi phj Ei Ej Wi Wj N).
      lia. }
    intro Fin. apply (race_end bid phases pl tr Inv Fin).
    unfold pl. intro E.
    pose proof (pool_run_length sched (racing bid w snaps)) as Len.
    rewrite E in Len. cbn in Len. rewrite length_map in Len.
    destruct snaps; [contradiction | discriminate].
  - intro sched.
    destruct (pool_can_finish (fst (pool_run sched (racing bid w snaps))))
      as (more & H).
    exists more. rewrite pool_run_app. exact H.
Qed.

Lemma C3_race_witness :
  partial_wins (snd (pool_run (race_schedule ++ 1 :: repeat 0 30)
                       (racing "b1" race_world race_snaps))) = 1 /\
  dispatches (snd (pool_run (race_schedule ++ 1 :: repeat 0 30)
                     (racing "b1" race_world race_snaps))) = 1.
Proof.
  assert (U : unique_ids (batches race_world)).
  { repeat constructor. simpl. tauto. }
  assert (NE : race_snaps <> []) by discriminate.
  destruct (C3_one_winner_and_one_dispatch_in_a_race "b1" race_world
              race_batch race_snaps eq_refl U eq_refl eq_refl NE eq_refl)
    as [H _].
  destruct (H (race_schedule ++ 1 :: repeat 0 30)) as (_ & _ & _ & Hf).
  apply Hf. vm_compute. repeat constructor.
Defined.

Lemma C3_loser_writes_audio_complete : ~ losers_have_no_side_effects.
Proof.
  intro H.
  assert (U : unique_ids (batches race_world)).
  { repeat constructor. simpl. tauto. }
  specialize (H "b1" race_world race_batch race_snaps race_schedule
                eq_refl U eq_refl eq_refl eq_refl
                0 1 (EvStatus "b1" pending partial_complete)
                (EvStatus "b1" partial_complete audio_complete)).
  assert (E : 1 = 0); [| discriminate E].
  apply H.
  - vm_compute. do 2 right. left. reflexivity.
  - reflexivity.
  - vm_compute. do 9 right. left. reflexivity.
  - reflexivity.
Qed.

(** * Concrete runs *)

(** A tracker for batch b1 of two users, timing out at 100. *)
Definition demo_batch (st : Status) (received expected : nat) : Batch :=
  mkBatch "b1" expected received st 0 None None None None None 100
    ["u1"; "u2"] None None.

Definition demo_unit (id : nat) (uid : string) (audio : bool) : Summary :=
  mkSummary id uid "text" "user" "title" (Some "b1") audio
    (if audio then Some "url" else None).

Definition demo_world (st : Status) (received expected : nat)
  (units : list Summary) (now : Date) : World :=
  mkWorld [demo_batch st received expected] units [] now 10 [].

Definition demo_request (uid : string) : WebhookController.SummaryRequest :=
  WebhookController.mkSummaryRequest "text" uid "user" "title" (Some "b1").

(** The world after the unit of user [uid] arrived for batch b1. *)
Definition arrive (uid : string) (w : World) : World :=
  world (run (WebhookController.handleSummaryWebhook (demo_request uid)) w).

Lemma demo_unique (st : Status) (received expected : nat)
  (units : list Summary) (now : Date) :
  unique_ids (batches (demo_world st received expected units now)).
Proof. repeat constructor. simpl. tauto. Qed.

(** The reading of C2 under which the batch rests in partial_complete
    after the second arrival and in complete after the fourth. *)
Definition arrivals_end_partial_then_complete : Prop :=
  forall (w : World) (r1 r2 r3 r4 : WebhookController.SummaryRequest)
         (bid : string) (b : Batch),
    faults w = [] -> lookup bid (batches w) = Some b -> bid <> "" ->
    expectedCount b = 4 -> receivedCount b = 0 -> status b = pending ->
    count_summaries bid true (summaries w) = 0 ->
    WebhookController.q_batchId r1 = Some bid ->
    WebhookController.q_batchId r2 = Some bid ->
    WebhookController.q_batchId r3 = Some bid ->
    WebhookController.q_batchId r4 = Some bid ->
    valid_unit r1 = true -> valid_unit r2 = true ->
    valid_unit r3 = true -> valid_unit r4 = true ->
    let w2 := world (run (WebhookController.handleSummaryWebhook r2)
                (world (run (WebhookController.handleSummaryWebhook r1) w))) in
    let w4 := world (run (WebhookController.handleSummaryWebhook r4)
                (world (run (WebhookController.handleSummaryWebhook r3) w2))) in
    (exists b2, lookup bid (batches w2) = Some b2 /\ status b2 = partial_complete) /\
    (exists b4, lookup bid (batches w4) = Some b4 /\ status b4 = complete).

(** The reading of C4 under which every timed-out batch with units has
    its units lacking an artifact dispatched. *)
Definition timeout_dispatches_lacking_units : Prop :=
  forall (w : World) (b : Batch),
    faults w = [] -> unique_ids (batches w) -> In b (batches w) ->
    timeoutAt b <= clock w ->
    status_in (status b) [pending; partial_complete] = true ->
    0 < count_summaries (batchId b) false (summaries w) ->
    map r_summaryId
      (posts_of (batchId b) (events (run BatchTimeoutService.processTimeoutBatches w)))
    = map s_id (summaries_without_audio (batchId b) (summaries w)).

(** ** C1 *)

Lemma C1_failure_report_leaves_the_table : ~ status_moves_along_table.
Proof.
  intro H.
  specialize (H (PostAudioGenerationFailure (failure_request "b1" "boom" "u1"))
                (demo_world pending 0 4 [] 5)).
  rewrite Forall_forall in H.
  specialize (H (EvStatus "b1" pending audio_failed)).
  assert (E : table_transition pending audio_failed = true); [| discriminate E].
  apply H. vm_compute. tauto.
Qed.

(** ** C2 *)

Lemma C2_four_arrivals_witness :
  exists b4,
    lookup "b1" (batches (arrive "u4" (arrive "u3" (arrive "u2" (arrive "u1"
      (demo_world pending 0 4 [] 5))))))
    = Some b4 /\ status b4 = audio_requested /\ receivedCount b4 = 4.
Proof.
  assert (N : "b1" <> "") by discriminate.
  destruct (C2_four_arrivals_dispatch_once (demo_world pending 0 4 [] 5)
              (demo_request "u1") (demo_request "u2") (demo_request "u3")
              (demo_request "u4") "b1" (demo_batch pending 0 4)
              eq_refl eq_refl N eq_refl eq_refl eq_refl eq_refl
              eq_refl eq_refl eq_refl eq_refl eq_refl eq_refl eq_refl eq_refl)
    as (_ & _ & _ & b4 & L & S4 & R4 & _).
  exists b4. split; [exact L |]. split; [exact S4 | exact R4].
Defined.

Lemma C2_batch_ends_audio_requested : ~ arrivals_end_partial_then_complete.
Proof.
  intro H.
  assert (N : "b1" <> "") by discriminate.
  destruct (H (demo_world pending 0 4 [] 5)
              (demo_request "u1") (demo_request "u2") (demo_request "u3")
              (demo_request "u4") "b1" (demo_batch pending 0 4)
              eq_refl eq_refl N eq_refl eq_refl eq_refl eq_refl
              eq_refl eq_refl eq_refl eq_refl eq_refl eq_refl eq_refl eq_refl)
    as [(b2 & L & St) _].
  vm_compute in L. injection L as <-. discriminate St.
Qed.

(** ** C4 *)

Lemma C4_timeout_witness :
  exists b',
    lookup "b1"
      (batches (world (run BatchTimeoutService.processTimeoutBatches
         (demo_world pending 0 4 [demo_unit 1 "u1" false] 200))))
    = Some b' /\
    receivedCount b' = 1 /\ status b' = audio_requested.
Proof.
  assert (T : timeoutAt (demo_batch pending 0 4) <= 200) by (simpl; lia).
  destruct (C4_timeout_pass_reconciles_and_forces_completion
              (demo_world pending 0 4 [demo_unit 1 "u1" false] 200)
              (demo_batch pending 0 4)
              eq_refl (demo_unique _ _ _ _ _) (or_introl eq_refl) T eq_refl)
    as (b' & L & _ & R & _ & V & _).
  exists b'. split; [exact L |]. split; [exact R |].
  apply V; [vm_compute; lia | reflexivity | vm_compute; lia].
Defined.

Lemma C4_partial_batch_is_not_dispatched : ~ timeout_dispatches_lacking_units.
Proof.
  intro H.
  assert (T : timeoutAt (demo_batch partial_complete 1 4) <= 200) by (simpl; lia).
  assert (P : 0 < count_summaries "b1" false [demo_unit 1 "u1" false])
    by (vm_compute; lia).
  specialize (H (demo_world partial_complete 1 4 [demo_unit 1 "u1" false] 200)
                (demo_batch partial_complete 1 4)
                eq_refl (demo_unique _ _ _ _ _) (or_introl eq_refl) T eq_refl P).
  vm_compute in H. discriminate H.
Qed.

(** ** C5 *)

Lemma C5_recovery_witness :
  exists b',
    lookup "b1"
      (batches (world (run BatchTimeoutService.processOrphanedSummaries
         (demo_world failed 0 4 [demo_unit 1 "u1" false] 200))))
    = Some b' /\
    status b' = audio_requested.
Proof.
  assert (P : 0 < count_summaries "b1" false [demo_unit 1 "u1" false])
    by (vm_compute; lia).
  destruct (C5_recovery_then_never_failed_again
              (demo_world failed 0 4 [demo_unit 1 "u1" false] 200)
              (demo_batch failed 0 4)
              eq_refl (demo_unique _ _ _ _ _) (or_introl eq_refl)
              eq_refl eq_refl P)
    as (b' & L & (_ & V & _) & _).
  exists b'. split; [exact L |].
  apply V. vm_compute. lia.
Defined.

(** ** C6 *)

Lemma C6_duplicate_witness :
  exists b3,
    lookup "b1"
      (batches (world (run BatchTimeoutService.processTimeoutBatches
         (arrive "u1" (arrive "u1" (demo_world pending 0 8 [] 200))))))
    = Some b3 /\
    receivedCount b3 = 2.
Proof.
  assert (N : "b1" <> "") by discriminate.
  destruct (C6_duplicate_event_does_not_diverge_after_sweep
              (demo_world pending 0 8 [] 200) (demo_request "u1") "b1"
              (demo_batch pending 0 8)
              eq_refl (demo_unique _ _ _ _ _) eq_refl N eq_refl)
    as (b2 & b3 & _ & L3 & _ & P2 & P3 & _ & V).
  exists b3. split; [exact L3 |].
  rewrite (V eq_refl), P3, P2. reflexivity.
Defined.

(** ** C7 *)

Lemma C7_skip_witness :
  posts (events (run (AudioGenerationService.triggerAudioGeneration "b1")
                   (demo_world audio_requested 2 4 [demo_unit 1 "u1" false] 5)))
  = [].
Proof.
  apply (C7_dispatcher_skips_processed_batch
           (demo_world audio_requested 2 4 [demo_unit 1 "u1" false] 5) "b1"
           (demo_batch audio_requested 2 4)); reflexivity.
Defined.

(** ** C8 *)

Lemma C8_failure_witness :
  exists b2,
    lookup "b1"
      (batches (world (run (WebhookController.handleAudioGenerationFailure
                              (failure_request "b1" "again" "u1"))
        (world (run (WebhookController.handleAudioGenerationFailure
                       (failure_request "b1" "boom" "u1"))
                  (demo_world audio_complete 4 4 [] 5)))))) = Some b2 /\
    status b2 = audio_failed /\ failureReason b2 = Some "again".
Proof.
  assert (N1 : "b1" <> "") by discriminate.
  assert (N2 : "boom" <> "") by discriminate.
  assert (N3 : "u1" <> "") by discriminate.
  assert (N4 : "again" <> "") by discriminate.
  destruct (C8_failure_report_is_unconditional
              (demo_world audio_complete 4 4 [] 5) "b1" "boom" "u1" "again" "u1"
              (demo_batch audio_complete 4 4) N1 N2 N3 N4 N3 eq_refl eq_refl)
    as (_ & _ & H & _).
  exact H.
Defined.

(** ** C9 *)

Lemma C9_evaluator_failure_is_swallowed : ~ ingress_failures_propagate.
Proof.
  intro H.
  destruct (H (demo_request "u1")
              (mkWorld [demo_batch pending 0 4] [] [] 5 10 [false; true])
              eq_refl eq_refl) as [body E].
  vm_compute in E. discriminate E.
Qed.

(** ** C10 *)

(** A unit for batch b9 arrives while only batch b1 has a tracker. *)
Lemma C10_unknown_batch_witness :
  let w := demo_world pending 1 4 [demo_unit 1 "u1" false] 5 in
  let req := WebhookController.mkSummaryRequest "text" "u9" "user" "title"
               (Some "b9") in
  let o := run (WebhookController.handleSummaryWebhook req) w in
  result o = Ok (WebhookController.mkResponse 200
                   (WebhookController.SummaryReceived (unit_of w req))) /\
  summaries (world o) = summaries w ++ [unit_of w req] /\
  batches (world o) = batches w /\
  status_writes (events o) = [] /\
  posts (events o) = [].
Proof.
  exact (C10_unknown_batch_still_persists_unit
           (demo_world pending 1 4 [demo_unit 1 "u1" false] 5)
           (WebhookController.mkSummaryRequest "text" "u9" "user" "title"
              (Some "b9"))
           "b9" eq_refl eq_refl eq_refl eq_refl).
Defined.

(** * Further properties of the handlers *)

(** ** Validation in the controllers *)

(** The requests POST /save-audio-url answers with 400. *)
Definition save_audio_invalid (req : WebhookController.SaveAudioRequest) : bool :=
  negb (truthy (WebhookController.a_audioUrl req))
  || negb (truthy (WebhookController.a_userId req))
  || (match WebhookController.a_summaryId req with
      | Some _ => false
      | None => negb (truthy (WebhookController.a_batchId req))
      end).

(** The requests POST /audio-generation-failure answers with 400. *)
Definition failure_invalid (req : WebhookController.FailureRequest) : bool :=
  negb (truthy (WebhookController.x_batchId req))
  || negb (truthy (WebhookController.x_errorMessage req))
  || negb (truthy (WebhookController.x_userId req)).

(** A controller body of the shape
    [try { x = await p; res.status(200).json(f x) } catch (e) { log; res.status(500).json(g e) }]
    answers 200 or 500. *)
Lemma answer_200_or_500 {A} (p : Prog A) (f : A -> WebhookController.Body)
  (msg : string) (g : Err -> WebhookController.Body) (w : World) :
  exists r,
    result (run (try (x <- p ;; Ret (WebhookController.mkResponse 200 (f x)))
                 catch (fun error =>
                   log Error msg "" ;;
                   Ret (WebhookController.mkResponse 500 (g error)))) w) = Ok r /\
    (WebhookController.code r = 200 \/ WebhookController.code r = 500).
Proof.
  run_norm. destruct (run p w) as [[a | e] w1 ev1]; run_norm;
    eexists; (split; [reflexivity |]); cbn; auto.
Qed.

(** POST /save-audio-url answers 400 exactly when audioUrl or userId is
    missing or empty, or neither summaryId nor a non-empty batchId is
    given; it then makes no database call, logs nothing and leaves the
    stores as they were.  Every other request is answered 200 or 500. *)
Theorem save_audio_url_400_iff_invalid
  (req : WebhookController.SaveAudioRequest) (w : World) :
  (save_audio_invalid req = true ->
     exists msg,
       run (WebhookController.handleSaveAudioUrl req) w
       = mkOutcome (Ok (WebhookController.mkResponse 400
                          (WebhookController.Message msg))) w []) /\
  (save_audio_invalid req = false ->
     exists r,
       result (run (WebhookController.handleSaveAudioUrl req) w) = Ok r /\
       (WebhookController.code r = 200 \/ WebhookController.code r = 500)).
Proof.
  unfold save_audio_invalid, WebhookController.handleSaveAudioUrl.
  destruct (negb (truthy (WebhookController.a_audioUrl req))
            || negb (truthy (WebhookController.a_userId req))) eqn:V;
    cbn [orb].
  - split; [| discriminate]. intros _. eexists. reflexivity.
  - destruct (WebhookController.a_summaryId req) as [sid |].
    + split; [discriminate |]. intros _. apply answer_200_or_500.
    + destruct (truthy (WebhookController.a_batchId req)); cbn [negb].
      * split; [discriminate |]. intros _. apply answer_200_or_500.
      * split; [| discriminate]. intros _. eexists. reflexivity.
Qed.

(** POST /audio-generation-failure answers 400 exactly when batchId,
    errorMessage or userId is missing or empty; it then makes no database
    call, logs nothing and leaves the stores as they were.  Every other
    request is answered 200 or 500. *)
Theorem failure_report_400_iff_invalid
  (req : WebhookController.FailureRequest) (w : World) :
  (failure_invalid req = true ->
     exists msg,
       run (WebhookController.handleAudioGenerationFailure req) w
       = mkOutcome (Ok (WebhookController.mkResponse 400
                          (WebhookController.Message msg))) w []) /\
  (failure_invalid req = false ->
     exists r,
       result (run (WebhookController.handleAudioGenerationFailure req) w) = Ok r /\
       (WebhookController.code r = 200 \/ WebhookController.code r = 500)).
Proof.
  unfold failure_invalid, WebhookController.handleAudioGenerationFailure.
  destruct (negb (truthy (WebhookController.x_batchId req))
            || negb (truthy (WebhookController.x_errorMessage req))
            || negb (truthy (WebhookController.x_userId req))).
  - split; [| discriminate]. intros _. eexists. reflexivity.
  - split; [discriminate |]. intros _.
    apply (answer_200_or_500
             (WebhookServices.handleAudioGenerationFailure
                (WebhookController.str (WebhookController.x_batchId req))
                (WebhookController.str (WebhookController.x_errorMessage req))
                (WebhookController.str (WebhookController.x_userId req)))
             (fun _ => WebhookController.FailureProcessed
                         (WebhookController.str (WebhookController.x_batchId req)))).
Qed.

(** ** An audio report for a unit that does not exist *)

Definition save_audio_request (url uid : string) (sid : option nat)
  (bid : option string) : WebhookController.SaveAudioRequest :=
  WebhookController.mkSaveAudioRequest (Some url) (Some uid) bid sid.

(** POST /save-audio-url naming a summaryId that no unit of that user
    carries (the id is unknown, or it is the unit of another user) is
    answered 500 with the not-found error; no mix is created, no unit is
    marked and no tracker is touched, whatever batchId the request names. *)
Theorem save_audio_url_for_unknown_unit
  (w : World) (url uid : string) (sid : nat) (bid : option string) :
  url <> "" -> uid <> "" ->
  find (summary_match sid uid) (summaries w) = None ->
  next_call_ok w = true ->
  let o := run (WebhookController.handleSaveAudioUrl
                  (save_audio_request url uid (Some sid) bid)) w in
  result o = Ok (WebhookController.mkResponse 500
                   (WebhookController.Failed "Error in handleSaveAudioUrl"
                      (SummaryNotFound sid uid))) /\
  summaries (world o) = summaries w /\
  mixes (world o) = mixes w /\
  batches (world o) = batches w.
Proof.
  intros Hu Hi Miss N o. subst o.
  unfold WebhookController.handleSaveAudioUrl, save_audio_request.
  cbn [WebhookController.a_audioUrl WebhookController.a_userId
       WebhookController.a_summaryId WebhookController.a_batchId
       WebhookController.str].
  rewrite !truthy_Some by assumption. cbn [negb orb].
  unfold WebhookServices.handleSummaryAudioGenerationSuccess.
  run_norm. rewrite run_await_ok by auto. cbn [perform fst snd].
  change (summaries (after_call w)) with (summaries w). rewrite Miss.
  cbn [fst snd]. run_norm.
  cbn [result world summaries mixes batches after_call set_faults].
  repeat split; reflexivity.
Qed.

Lemma save_audio_url_for_unknown_unit_example :
  mixes (world (run (WebhookController.handleSaveAudioUrl
                       (save_audio_request "url" "u2" (Some 1) (Some "b1")))
                  (demo_world audio_requested 1 2 [demo_unit 1 "u1" false] 5)))
  = [].
Proof.
  assert (N1 : "url" <> "") by discriminate.
  assert (N2 : "u2" <> "") by discriminate.
  apply (save_audio_url_for_unknown_unit
           (demo_world audio_requested 1 2 [demo_unit 1 "u1" false] 5)
           "url" "u2" 1 (Some "b1") N1 N2 eq_refl eq_refl).
Defined.

(** ** A failure report for a batch that does not exist *)

(** POST /audio-generation-failure for a batchId that matches no tracker
    is still answered 200; no tracker is created or changed and no status
    write is made. *)
Theorem failure_report_for_unknown_batch
  (w : World) (bid msg uid : string) :
  bid <> "" -> msg <> "" -> uid <> "" ->
  lookup bid (batches w) = None ->
  next_call_ok w = true ->
  let o := run (WebhookController.handleAudioGenerationFailure
                  (failure_request bid msg uid)) w in
  result o = Ok (WebhookController.mkResponse 200
                   (WebhookController.FailureProcessed bid)) /\
  batches (world o) = batches w /\
  summaries (world o) = summaries w /\
  status_writes (events o) = [].
Proof.
  intros Hb Hm Hu L N o. subst o.
  unfold WebhookController.handleAudioGenerationFailure, failure_request.
  cbn [WebhookController.x_batchId WebhookController.x_errorMessage
       WebhookController.x_userId WebhookController.str].
  rewrite !truthy_Some by assumption. cbn [negb orb].
  unfold WebhookServices.handleAudioGenerationFailure.
  run_norm. rewrite run_await_ok by auto. cbn [perform fst snd].
  change (batches (after_call w)) with (batches w).
  fold (lookup bid (batches w)). rewrite L.
  cbn [fst snd]. run_norm.
  cbn [result world events batches summaries after_call set_faults].
  repeat split; reflexivity.
Qed.

Lemma failure_report_for_unknown_batch_example :
  batches (world (run (WebhookController.handleAudioGenerationFailure
                         (failure_request "b9" "boom" "u1"))
                    (demo_world pending 0 4 [] 5)))
  = [demo_batch pending 0 4].
Proof.
  assert (N1 : "b9" <> "") by discriminate.
  assert (N2 : "boom" <> "") by discriminate.
  assert (N3 : "u1" <> "") by discriminate.
  apply (failure_report_for_unknown_batch (demo_world pending 0 4 [] 5)
           "b9" "boom" "u1" N1 N2 N3 eq_refl eq_refl).
Defined.

(** ** A unit that names no batch *)

(** POST /summary without a batchId (absent or empty), for a unit that
    passes the validators of the schema, persists the unit and answers 200
    with it; the completion evaluator is not run: the create is the only
    database call, no tracker is read or written, even one whose batchId
    is the empty string, and nothing is dispatched. *)
Theorem summary_without_batch_only_persists
  (w : World) (req : WebhookController.SummaryRequest) :
  valid_unit req = true ->
  truthy (WebhookController.q_batchId req) = false ->
  next_call_ok w = true ->
  run (WebhookController.handleSummaryWebhook req) w
  = mkOutcome
      (Ok (WebhookController.mkResponse 200
             (WebhookController.SummaryReceived (unit_of w req))))
      (mkWorld (batches w) (summaries w ++ [unit_of w req]) (mixes w)
         (clock w) (S (nextId w)) (tl (faults w)))
      [].
Proof.
  intros V Q N.
  unfold WebhookController.handleSummaryWebhook, WebhookServices.saveSummary.
  create_valid V.
  run_norm. rewrite run_await_ok by auto. cbn [perform fst snd]. run_norm.
  rewrite Q. run_norm. reflexivity.
Qed.

Lemma summary_without_batch_example :
  let w := mkWorld [mkBatch "" 1 0 pending 0 None None None None None
                      100 [] None None] [] [] 5 10 [] in
  let req := WebhookController.mkSummaryRequest "text" "u1" "user" "title"
               (Some "") in
  let o := run (WebhookController.handleSummaryWebhook req) w in
  result o = Ok (WebhookController.mkResponse 200
                   (WebhookController.SummaryReceived (unit_of w req))) /\
  summaries (world o) = [unit_of w req] /\
  batches (world o) = batches w /\
  events o = [].
Proof.
  cbv zeta.
  rewrite (summary_without_batch_only_persists
             (mkWorld [mkBatch "" 1 0 pending 0 None None None None None
                         100 [] None None] [] [] 5 10 [])
             (WebhookController.mkSummaryRequest "text" "u1" "user" "title"
                (Some "")) eq_refl eq_refl eq_refl).
  repeat split.
Defined.

(** ** A unit that the schema rejects *)

Lemma nonempty_false (x : string) : x = "" -> nonempty x = false.
Proof. intros ->. reflexivity. Qed.

(** POST /summary with an empty summary, userId or summaryTitle, or with
    a summaryType other than user and category, is answered 500 with the
    validation error: no call reaches the store, so nothing is persisted,
    no tracker is counted or written even when the batch exists, and
    nothing is dispatched; the error is logged twice, by the service and
    by the controller. *)
Theorem rejected_unit_changes_nothing
  (w : World) (req : WebhookController.SummaryRequest) :
  WebhookController.q_summary req = "" \/
  WebhookController.q_userId req = "" \/
  WebhookController.q_summaryTitle req = "" \/
  (WebhookController.q_summaryType req <> "user" /\
   WebhookController.q_summaryType req <> "category") ->
  run (WebhookController.handleSummaryWebhook req) w
  = mkOutcome
      (Ok (WebhookController.mkResponse 500
             (WebhookController.Failed "Error in handleSummaryWebhook"
                ValidationFailed)))
      w
      [EvLog (mkLog Error "Error in handleSummaryWebhook:" "");
       EvLog (mkLog Error "Error in handleSummaryWebhook: ${error}" "")].
Proof.
  intro H. apply invalid_unit_rejected.
  unfold valid_unit, AiSummaries.validate.
  destruct H as [H | [H | [H | [H1 H2]]]].
  - rewrite (nonempty_false _ H). reflexivity.
  - rewrite (nonempty_false _ H), andb_false_r. reflexivity.
  - rewrite (nonempty_false _ H), andb_false_r. reflexivity.
  - apply String.eqb_neq in H1, H2. rewrite H1, H2. apply andb_false_r.
Qed.

(** A unit of type daily for a pending batch that waits for it. *)
Lemma rejected_unit_example :
  let w := demo_world pending 0 4 [] 5 in
  let o := run (WebhookController.handleSummaryWebhook
                  (WebhookController.mkSummaryRequest "text" "u1" "daily"
                     "title" (Some "b1"))) w in
  WebhookController.code
    (match result o with
     | Ok r => r
     | Fail _ => WebhookController.mkResponse 0 (WebhookController.Message "")
     end) = 500 /\
  world o = w.
Proof.
  assert (T : "daily" <> "user" /\ "daily" <> "category")
    by (split; discriminate).
  cbv zeta.
  rewrite (rejected_unit_changes_nothing (demo_world pending 0 4 [] 5)
             (WebhookController.mkSummaryRequest "text" "u1" "daily" "title"
                (Some "b1"))
             (or_intror (or_intror (or_intror T)))).
  split; reflexivity.
Defined.

(** ** Audio reports *)

(** The mix name and type for the hour of [now] (getMixInfoByTimeOfDay). *)
Definition mix_info (now : Date) : string * string :=
  let hours := N.to_nat ((N.of_nat now / 3600000) mod 24) in
  if (5 <=? hours) && (hours <? 12) then ("Your Morning Mix", "morning")
  else if (12 <=? hours) && (hours <? 18) then ("Your Afternoon Mix", "afternoon")
  else if (18 <=? hours) && (hours <? 23) then ("Your Evening Mix", "evening")
  else ("Your Night Mix", "night").

(** The document given to [userMixes.create] for an audio URL at [now]. *)
Definition mix_of (now : Date) (url uid : string) : Mix :=
  mkMix url uid (fst (mix_info now)) WebhookServices.google_logo
    (snd (mix_info now)).

Lemma run_getMixInfoByTimeOfDay (w : World) :
  run WebhookServices.getMixInfoByTimeOfDay w
  = mkOutcome (Ok (mix_info (clock w))) w [].
Proof.
  unfold WebhookServices.getMixInfoByTimeOfDay. run_norm.
  rewrite run_await_pure by reflexivity. cbn [perform fst snd]. run_norm.
  reflexivity.
Qed.

Lemma mix_info_eta (now : Date) :
  (let '(name, type) := mix_info now in (name, type)) = mix_info now.
Proof. destruct (mix_info now); reflexivity. Qed.

(** The mix built for a non-empty URL and user passes the validators of
    the userMixes schema, at any time of day. *)
Lemma create_mix_valid (now : Date) (url uid name type : string) :
  mix_info now = (name, type) -> url <> "" -> uid <> "" ->
  UserMixes.create (mkMix url uid name WebhookServices.google_logo type)
  = await (UM_insertOne (mkMix url uid name WebhookServices.google_logo type)).
Proof.
  intros MI Hu Hi. unfold UserMixes.create, UserMixes.validate, nonempty.
  cbn [m_userId m_audioUrl mixName mixType].
  apply String.eqb_neq in Hu, Hi. rewrite Hu, Hi.
  unfold mix_info in MI.
  repeat match type of MI with
         | (if ?c then _ else _) = _ => destruct c
         end;
    injection MI as <- <-; reflexivity.
Qed.

(** The tracker after a batch-level audio report taken at [now]. *)
Definition mark_audio_complete (now : Date) (url : string) (b : Batch) : Batch :=
  apply_update now
    [SetStatus audio_complete; StampAudioCompletedAt; SetAudioUrl url] b.

(** POST /save-audio-url with a batchId and no summaryId (the batch-level
    report kept for backward compatibility) stores one mix for the URL and
    answers 200 with it; a tracker of that batch is set to audio_complete
    with audioCompletedAt and the URL, whatever its status was; no unit of
    the batch is marked as having audio. *)
Theorem batch_level_report_completes_batch
  (w : World) (url uid bid : string) (b : Batch) :
  url <> "" -> uid <> "" -> bid <> "" ->
  faults w = [] ->
  lookup bid (batches w) = Some b ->
  let o := run (WebhookController.handleSaveAudioUrl
                  (save_audio_request url uid None (Some bid))) w in
  result o = Ok (WebhookController.mkResponse 200
                   (WebhookController.AudioCompleted (mix_of (clock w) url uid))) /\
  mixes (world o) = mixes w ++ [mix_of (clock w) url uid] /\
  summaries (world o) = summaries w /\
  lookup bid (batches (world o)) = Some (mark_audio_complete (clock w) url b) /\
  status (mark_audio_complete (clock w) url b) = audio_complete /\
  audioUrl (mark_audio_complete (clock w) url b) = Some url /\
  audioCompletedAt (mark_audio_complete (clock w) url b) = Some (clock w) /\
  status_writes (events o) = [(bid, status b, audio_complete)].
Proof.
  intros Hu Hi Hb F L o. subst o.
  destruct w as [bs ss ms t n fs]. cbn [faults] in F. subst fs.
  cbn [batches clock mixes summaries] in *.
  unfold WebhookController.handleSaveAudioUrl, save_audio_request.
  cbn [WebhookController.a_audioUrl WebhookController.a_userId
       WebhookController.a_summaryId WebhookController.a_batchId
       WebhookController.str].
  rewrite !truthy_Some by assumption. cbn [negb orb].
  unfold WebhookServices.handleAudioGenerationSuccess.
  run_norm. rewrite run_getMixInfoByTimeOfDay. run_norm.
  cbn [clock].
  destruct (mix_info t) as [name type] eqn:MI.
  rewrite (create_mix_valid t url uid name type MI Hu Hi).
  run_norm. await_nf. run_norm.
  cbn [set_mixes batches summaries mixes clock nextId faults].
  rewrite (run_update_hit bs ss (ms ++ [mkMix url uid name WebhookServices.google_logo type])
             t n bid AnyStatus _ false b L eq_refl).
  run_norm.
  cbn [result world events mixes summaries batches sets_status existsb orb
       status_writes flat_map app].
  unfold mix_of. rewrite MI. cbn [fst snd].
  split; [reflexivity |]. split; [reflexivity |]. split; [reflexivity |].
  split.
  { apply (lookup_put_id bid _ bs b L).
    unfold mark_audio_complete. rewrite apply_update_id.
    exact (lookup_id _ _ _ L). }
  repeat split; reflexivity.
Qed.

Lemma batch_level_report_example :
  exists b',
    lookup "b1"
      (batches (world (run (WebhookController.handleSaveAudioUrl
                              (save_audio_request "url" "u1" None (Some "b1")))
                         (demo_world failed 0 2 [demo_unit 1 "u1" false] 5))))
    = Some b' /\ status b' = audio_complete /\ audioUrl b' = Some "url".
Proof.
  assert (N1 : "url" <> "") by discriminate.
  assert (N2 : "u1" <> "") by discriminate.
  assert (N3 : "b1" <> "") by discriminate.
  destruct (batch_level_report_completes_batch
              (demo_world failed 0 2 [demo_unit 1 "u1" false] 5)
              "url" "u1" "b1" (demo_batch failed 0 2) N1 N2 N3 eq_refl eq_refl)
    as (_ & _ & _ & L & S & A & _).
  eexists. split; [exact L |]. split; [exact S | exact A].
Defined.

(** ** The audio-completion check *)

(** What checkBatchAudioCompletion does to the tracker [b] of its batch
    when no call fails. *)
Definition all_units_have_audio (bid : string) (ss : list Summary) : bool :=
  (count_summaries bid false ss <=? count_summaries bid true ss)
  && (0 <? count_summaries bid false ss).

Definition log_audio_progress (bid : string) : Event :=
  EvLog (mkLog Info "Batch ${batchId} audio progress" bid).

Definition log_all_audio (bid : string) : Event :=
  EvLog (mkLog Info "All summaries in batch ${batchId} have audio generated, marked batch as audio_complete" bid).

Definition audio_check_outcome (bs : list Batch) (ss : list Summary)
  (ms : list Mix) (t : Date) (n : nat) (bid : string) (b : Batch)
  : Outcome unit :=
  if all_units_have_audio bid ss then
    if Status_eqb (status b) audio_complete then
      mkOutcome (Ok tt) (mkWorld bs ss ms t n [])
        [log_audio_progress bid; log_all_audio bid]
    else
      mkOutcome (Ok tt)
        (mkWorld (put (apply_update t [SetStatus audio_complete;
                                        StampAudioCompletedAt] b) bs)
           ss ms t n [])
        [log_audio_progress bid; EvStatus bid (status b) audio_complete;
         log_all_audio bid]
  else mkOutcome (Ok tt) (mkWorld bs ss ms t n []) [log_audio_progress bid].

Lemma run_checkBatchAudioCompletion (bs : list Batch) (ss : list Summary)
  (ms : list Mix) (t : Date) (n : nat) (bid : string) (b : Batch) :
  unique_ids bs -> lookup bid bs = Some b ->
  run (WebhookServices.checkBatchAudioCompletion bid) (mkWorld bs ss ms t n [])
  = audio_check_outcome bs ss ms t n bid b.
Proof.
  intros U L. unfold WebhookServices.checkBatchAudioCompletion, audio_check_outcome,
    all_units_have_audio.
  run_norm. rewrite (run_findOne bs ss ms t n bid), L. run_norm.
  rewrite (run_count bs ss ms t n). run_norm.
  rewrite (run_count bs ss ms t n). run_norm.
  destruct ((count_summaries bid false ss <=? count_summaries bid true ss)
            && (0 <? count_summaries bid false ss)).
  - run_norm. destruct (Status_eqb (status b) audio_complete) eqn:Sb.
    + rewrite (run_update_miss bs ss ms t n bid (StatusNe audio_complete) _ false b U L)
        by (cbn; rewrite Sb; reflexivity).
      run_norm. reflexivity.
    + rewrite (run_update_hit bs ss ms t n bid (StatusNe audio_complete) _ false b L)
        by (cbn; rewrite Sb; reflexivity).
      run_norm. reflexivity.
  - run_norm. reflexivity.
Qed.

(** The audio-completion check of a batch marks it audio_complete exactly
    when at least one unit is persisted for the batch and all of them
    carry audio; it then does so from any status, and it is the only
    write it makes.  It never throws. *)
Theorem audio_check_marks_complete_iff_all_units_have_audio
  (w : World) (bid : string) (b : Batch) :
  faults w = [] -> unique_ids (batches w) ->
  lookup bid (batches w) = Some b ->
  let o := run (WebhookServices.checkBatchAudioCompletion bid) w in
  result o = Ok tt /\
  summaries (world o) = summaries w /\
  (all_units_have_audio bid (summaries w) = true ->
     (exists b', lookup bid (batches (world o)) = Some b' /\
                 status b' = audio_complete) /\
     status_writes (events o)
     = if Status_eqb (status b) audio_complete then []
       else [(bid, status b, audio_complete)]) /\
  (all_units_have_audio bid (summaries w) = false ->
     batches (world o) = batches w /\ status_writes (events o) = []).
Proof.
  intros F U L o. subst o.
  destruct w as [bs ss ms t n fs]. cbn [faults] in F. subst fs.
  cbn [batches summaries] in *.
  rewrite (run_checkBatchAudioCompletion bs ss ms t n bid b U L).
  unfold audio_check_outcome.
  destruct (all_units_have_audio bid ss).
  - destruct (Status_eqb (status b) audio_complete) eqn:Sb;
      cbn [result world events summaries batches status_writes flat_map app
           log_audio_progress log_all_audio].
    + split; [reflexivity |]. split; [reflexivity |].
      split; [| discriminate]. intros _. split; [| reflexivity].
      exists b. split; [exact L |]. apply Status_eqb_eq. exact Sb.
    + split; [reflexivity |]. split; [reflexivity |].
      split; [| discriminate]. intros _. split; [| reflexivity].
      eexists. split.
      * apply (lookup_put_id bid _ bs b L). rewrite apply_update_id.
        exact (lookup_id _ _ _ L).
      * reflexivity.
  - cbn [result world events summaries batches status_writes flat_map app
         log_audio_progress].
    split; [reflexivity |]. split; [reflexivity |].
    split; [discriminate |]. intros _. split; reflexivity.
Qed.

Lemma audio_check_example :
  exists b',
    lookup "b1"
      (batches (world (run (WebhookServices.checkBatchAudioCompletion "b1")
                         (demo_world pending 1 4 [demo_unit 1 "u1" true] 5))))
    = Some b' /\ status b' = audio_complete.
Proof.
  destruct (audio_check_marks_complete_iff_all_units_have_audio
              (demo_world pending 1 4 [demo_unit 1 "u1" true] 5) "b1"
              (demo_batch pending 1 4) eq_refl (demo_unique _ _ _ _ _) eq_refl)
    as (_ & _ & H & _).
  apply H. reflexivity.
Defined.

(** ** An audio report for one unit *)

(** POST /save-audio-url with a summaryId marks that unit of that user as
    having audio with the URL, stores one mix and answers 200 with both;
    no other unit changes.  This holds whether the request names no
    batch, a batch without a tracker or a batch with one.  When the
    request names a batch, the audio-completion check of that batch then
    runs over the units as they are after the mark, and what it does is
    all that happens to the trackers. *)
Theorem summary_audio_report_marks_unit
  (w : World) (url uid : string) (sid : nat) (bid : option string)
  (s : Summary) :
  url <> "" -> uid <> "" ->
  faults w = [] ->
  find (summary_match sid uid) (summaries w) = Some s ->
  let units := update_summary sid uid url (summaries w) in
  let marked := mkWorld (batches w) units
                  (mixes w ++ [mix_of (clock w) url uid]) (clock w) (nextId w)
                  [] in
  let check :=
    if truthy bid then
      run (WebhookServices.checkBatchAudioCompletion (WebhookController.str bid))
        marked
    else mkOutcome (Ok tt) marked [] in
  let o := run (WebhookController.handleSaveAudioUrl
                  (save_audio_request url uid (Some sid) bid)) w in
  result o = Ok (WebhookController.mkResponse 200
                   (WebhookController.SummaryAudioCompleted
                      (mix_of (clock w) url uid) (mark_audio url s))) /\
  world o = world check /\
  summaries (world o) = units /\
  mixes (world o) = mixes w ++ [mix_of (clock w) url uid] /\
  status_writes (events o) = status_writes (events check).
Proof.
  intros Hu Hi F Fs units marked check o. subst o check marked units.
  destruct w as [bs ss ms t n fs]. cbn [faults] in F. subst fs.
  cbn [batches clock mixes summaries nextId] in *.
  unfold WebhookController.handleSaveAudioUrl, save_audio_request.
  cbn [WebhookController.a_audioUrl WebhookController.a_userId
       WebhookController.a_summaryId WebhookController.a_batchId
       WebhookController.str].
  rewrite !truthy_Some by assumption. cbn [negb orb].
  unfold WebhookServices.handleSummaryAudioGenerationSuccess.
  run_norm. await_nf. rewrite Fs. cbn [fst snd]. run_norm.
  rewrite run_getMixInfoByTimeOfDay. run_norm. world_norm.
  unfold mix_of.
  destruct (mix_info t) as [name type] eqn:MI. cbn [fst snd].
  rewrite (create_mix_valid t url uid name type MI Hu Hi).
  run_norm. await_nf. run_norm. world_norm.
  destruct (truthy bid) eqn:T.
  - run_norm. unfold WebhookController.str.
    set (p := WebhookServices.checkBatchAudioCompletion
                match bid with Some b => b | None => "" end).
    set (marked := mkWorld bs (update_summary sid uid url ss)
                     (ms ++ [mkMix url uid name WebhookServices.google_logo type])
                     t n []).
    assert (A : all_acts (issues any_id false false) p)
      by (apply acts_checkBatchAudioCompletion; exact I).
    assert (R : result (run p marked) = Ok tt) by apply try_log_never_throws.
    assert (Su : summaries (world (run p marked)) = summaries marked)
      by (apply (run_summaries any_id false _ _ A)).
    assert (Mu : mixes (world (run p marked)) = mixes marked).
    { apply (run_preserves (issues any_id false false)
               (fun w' => mixes w' = mixes marked)); [| exact A | reflexivity].
      intros X op w0 Hop E. apply exec_keeps; auto.
      intros w1 E1. rewrite <- E1.
      apply (perform_summaries any_id false op w1 Hop). }
    destruct (run p marked) as [r wc evc]. cbn [result world events] in *.
    subst r. run_norm. cbn [result world events fst snd].
    split; [reflexivity |]. split; [reflexivity |].
    split; [exact Su |]. split; [exact Mu |].
    unfold status_writes. rewrite !flat_map_app. cbn [flat_map app].
    rewrite ?app_nil_r. reflexivity.
  - run_norm. cbn [result world events fst snd summaries mixes].
    repeat split; reflexivity.
Qed.

(** The report of the last unit lacking audio: the unit is marked and the
    check then marks the batch audio_complete. *)
Lemma summary_audio_report_example :
  let w := demo_world audio_requested 2 2
             [demo_unit 1 "u1" true; demo_unit 2 "u2" false] 5 in
  let o := run (WebhookController.handleSaveAudioUrl
                  (save_audio_request "url" "u2" (Some 2) (Some "b1"))) w in
  summaries (world o)
  = [demo_unit 1 "u1" true; mark_audio "url" (demo_unit 2 "u2" false)] /\
  status_writes (events o) = [("b1", audio_requested, audio_complete)].
Proof.
  assert (N1 : "url" <> "") by discriminate.
  assert (N2 : "u2" <> "") by discriminate.
  destruct (summary_audio_report_marks_unit
              (demo_world audio_requested 2 2
                 [demo_unit 1 "u1" true; demo_unit 2 "u2" false] 5)
              "url" "u2" 2 (Some "b1") (demo_unit 2 "u2" false)
              N1 N2 eq_refl eq_refl)
    as (_ & _ & H & _ & W).
  split; [exact H | exact W].
Defined.

(** ** The dispatcher reads, and sends *)

(** Calls that write none of the stores. *)
Definition reads_only (X : Type) (op : Op X) : Prop :=
  match op with
  | BT_findOneAndUpdate _ _ _ | AS_insertOne _ _ _ _ _
  | AS_findOneAndUpdate _ _ _ | UM_insertOne _ => False
  | _ => True
  end.

Definition same_stores (w w' : World) : Prop :=
  batches w' = batches w /\ summaries w' = summaries w /\ mixes w' = mixes w.

Definition not_a_status_write (e : Event) : Prop :=
  match e with EvStatus _ _ _ => False | _ => True end.

Lemma status_writes_none (ev : list Event) :
  Forall not_a_status_write ev -> status_writes ev = [].
Proof.
  induction 1 as [| e ev He _ IH]; [reflexivity |].
  destruct e; cbn in *; [contradiction | exact IH | exact IH].
Qed.

Lemma run_reads_only {A} (p : Prog A) (w : World) :
  all_acts reads_only p ->
  same_stores w (world (run p w)) /\ status_writes (events (run p w)) = [].
Proof.
  intro H. split.
  - apply (run_preserves reads_only (same_stores w)); auto.
    + intros X op w0 Hop Hw. apply exec_keeps.
      * intro fs. exact Hw.
      * intros w1 Hw1. destruct op; cbn in Hop; try contradiction; exact Hw1.
    + repeat split.
  - apply status_writes_none.
    apply (run_events_all reads_only not_a_status_write); auto.
    intros X op w0 Hop. apply exec_events. intro w1.
    destruct op; cbn in Hop; try contradiction; cbn; repeat constructor.
Qed.

Ltac reads :=
  repeat first
    [ apply all_acts_bind
    | apply all_acts_try_catch
    | (apply all_acts_await; exact I)
    | apply all_acts_when
    | intro
    | exact I
    | match goal with
      | |- all_acts _ (match ?x with _ => _ end) => destruct x
      | |- all_acts _ (if ?x then _ else _) => destruct x
      end ].

Lemma reads_only_sendLoop (l : list Summary) (bid : string) :
  all_acts reads_only (AudioGenerationService.sendLoop l bid).
Proof.
  induction l as [| s rest IH]; [exact I |].
  cbn [AudioGenerationService.sendLoop].
  unfold AudioGenerationService.sendIndividualSummaryForAudio,
    AudioGenerationService.delay.
  apply all_acts_bind; [apply all_acts_await; exact I |]. intros _.
  apply all_acts_bind; [apply all_acts_when; apply all_acts_await; exact I |].
  intros _. exact IH.
Qed.

Lemma reads_only_triggerAudioGeneration (bid : string) :
  all_acts reads_only (AudioGenerationService.triggerAudioGeneration bid).
Proof.
  unfold AudioGenerationService.triggerAudioGeneration, log.
  apply all_acts_try_catch; [| reads].
  apply all_acts_bind; [reads |]. intros _.
  apply all_acts_bind; [reads |]. intro batchStatus.
  destruct (AudioGenerationService.audio_already_processed batchStatus); [reads |].
  apply all_acts_bind; [reads |]. intro l.
  destruct (List.length l =? 0); [reads |].
  apply all_acts_bind; [reads |]. intro total.
  apply all_acts_bind; [reads |]. intros _.
  apply all_acts_bind; [reads |]. intros _.
  apply all_acts_bind; [apply reads_only_sendLoop |]. intros _.
  reads.
Qed.

(** The dispatcher only reads the stores. *)
Lemma triggerAudioGeneration_keeps_stores (w : World) (bid : string) :
  batches (world (run (AudioGenerationService.triggerAudioGeneration bid) w))
  = batches w /\
  summaries (world (run (AudioGenerationService.triggerAudioGeneration bid) w))
  = summaries w /\
  mixes (world (run (AudioGenerationService.triggerAudioGeneration bid) w))
  = mixes w /\
  status_writes (events (run (AudioGenerationService.triggerAudioGeneration bid) w))
  = [].
Proof.
  destruct (run_reads_only (AudioGenerationService.triggerAudioGeneration bid) w
              (reads_only_triggerAudioGeneration bid)) as [(B & S & M) E].
  repeat split; assumption.
Qed.

(** Whatever the persistence layer answers, a call of the dispatcher
    changes no tracker, no unit and no mix, and writes no status: all it
    does is read, log, wait and send. *)
Theorem dispatcher_writes_nothing (w : World) (bid : string) :
  batches (world (run (AudioGenerationService.triggerAudioGeneration bid) w))
  = batches w /\
  summaries (world (run (AudioGenerationService.triggerAudioGeneration bid) w))
  = summaries w /\
  mixes (world (run (AudioGenerationService.triggerAudioGeneration bid) w))
  = mixes w /\
  status_writes (events (run (AudioGenerationService.triggerAudioGeneration bid) w))
  = [].
Proof. exact (triggerAudioGeneration_keeps_stores w bid). Qed.

Lemma posts_from_batch (t : Date) (l : list Summary) (bid : string) :
  Forall (fun r => r_batchId r = bid) (posts (posts_from t l bid)).
Proof.
  revert t. induction l as [| s l IH]; intro t; [constructor |].
  cbn [posts_from posts flat_map app]. constructor; [reflexivity | apply IH].
Qed.

Lemma posts_from_times (t : Date) (l : list Summary) (bid : string) :
  map r_timestamp (posts (posts_from t l bid))
  = map (fun i => t + 1000 * i) (seq 0 (List.length l)).
Proof.
  revert t. induction l as [| s l IH]; intro t; [reflexivity |].
  cbn [posts_from posts flat_map app map List.length seq request_of r_timestamp].
  f_equal; [lia |].
  change (flat_map _ (posts_from (t + 1000) l bid))
    with (posts (posts_from (t + 1000) l bid)).
  rewrite IH, <- seq_shift, map_map. apply map_ext. intro i. lia.
Qed.

(** When no call fails and the batch is not already audio_requested,
    audio_complete or audio_failed (or has no tracker at all), the
    dispatcher sends one request for each unit of the batch that lacks
    audio, in the order of the store, each naming the batch, one second
    apart; it sends nothing for units that carry audio. *)
Theorem dispatcher_sends_units_lacking_audio (w : World) (bid : string) :
  faults w = [] ->
  AudioGenerationService.audio_already_processed (lookup bid (batches w)) = false ->
  let lacking := summaries_without_audio bid (summaries w) in
  let o := run (AudioGenerationService.triggerAudioGeneration bid) w in
  result o = Ok tt /\
  map r_summaryId (posts (events o)) = map s_id lacking /\
  map r_userId (posts (events o)) = map s_userId lacking /\
  Forall (fun r => r_batchId r = bid) (posts (events o)) /\
  map r_timestamp (posts (events o))
  = map (fun i => clock w + 1000 * i) (seq 0 (List.length lacking)) /\
  clock (world o) = clock w + 1000 * (List.length lacking - 1).
Proof.
  intros F H lacking o. subst o lacking.
  rewrite (run_triggerAudioGeneration bid w F).
  unfold trigger_outcome. rewrite H.
  destruct (summaries_without_audio bid (summaries w)) as [| s l] eqn:E.
  - cbn. repeat split; try reflexivity; try constructor. lia.
  - cbn [List.length Nat.eqb result world events clock set_clock].
    set (pre := if 0 <? count_summaries bid false (summaries w) - S (List.length l)
                then _ else _).
    assert (Pre : posts pre = []) by (unfold pre; destruct (0 <? _); reflexivity).
    assert (Q : posts ([log_triggering bid] ++ pre
                       ++ [EvLog (mkLog Info "Found summaries without audio for batch ${batchId}. Sending individually with delays." bid)]
                       ++ posts_from (clock w) (s :: l) bid
                       ++ [EvLog (mkLog Info "All audio generation requests sent for batch: ${batchId}" bid)])
                = posts (posts_from (clock w) (s :: l) bid)).
    { rewrite !posts_app, Pre. cbn [posts flat_map app log_triggering].
      rewrite app_nil_r. reflexivity. }
    rewrite Q.
    split; [reflexivity |].
    split; [apply posts_posts_from |].
    split.
    { clear. generalize (clock w). induction (s :: l) as [| x r IH]; intro t;
        [reflexivity |].
      cbn [posts_from posts flat_map app map request_of r_userId].
      f_equal. apply IH. }
    split; [apply posts_from_batch |].
    split; [apply posts_from_times |].
    reflexivity.
Qed.

Lemma dispatcher_sends_example :
  map r_summaryId
    (posts (events (run (AudioGenerationService.triggerAudioGeneration "b1")
                      (demo_world complete 3 3
                         [demo_unit 1 "u1" false; demo_unit 2 "u2" true;
                          demo_unit 3 "u3" false] 5))))
  = [1; 3].
Proof.
  apply (dispatcher_sends_units_lacking_audio
           (demo_world complete 3 3
              [demo_unit 1 "u1" false; demo_unit 2 "u2" true;
               demo_unit 3 "u3" false] 5) "b1" eq_refl eq_refl).
Defined.

(** ** A dispatch that fails *)

(** The dispatcher can only fail before it has sent anything. *)
Lemma failed_dispatch_sent_nothing (w : World) (bid : string) (e : Err) :
  result (run (AudioGenerationService.triggerAudioGeneration bid) w) = Fail e ->
  posts (events (run (AudioGenerationService.triggerAudioGeneration bid) w)) = [].
Proof.
  unfold AudioGenerationService.triggerAudioGeneration. run_norm.
  destruct (next_call_ok w) eqn:N1;
    [rewrite run_await_ok by auto | rewrite run_await_fail by auto; run_norm;
                                    intros _; reflexivity].
  cbn [perform fst snd]. run_norm.
  destruct (AudioGenerationService.audio_already_processed _);
    [run_norm; discriminate |].
  run_norm.
  destruct (next_call_ok (after_call w)) eqn:N2;
    [rewrite run_await_ok by auto | rewrite run_await_fail by auto; run_norm;
                                    intros _; reflexivity].
  cbn [perform fst snd]. run_norm.
  destruct (List.length _ =? 0); [run_norm; discriminate |].
  run_norm.
  destruct (next_call_ok (after_call (after_call w))) eqn:N3;
    [rewrite run_await_ok by auto | rewrite run_await_fail by auto; run_norm;
                                    intros _; reflexivity].
  cbn [perform fst snd]. run_norm.
  destruct (0 <? _); run_norm; rewrite run_sendLoop; run_norm; discriminate.
Qed.

(** The tracker after the 50% transition taken at [now]. *)
Definition mark_partial (now : Date) (b : Batch) : Batch :=
  apply_update now [SetStatus partial_complete; StampPartialCompletedAt] b.

(** If the dispatcher throws after a batch has won the pending to
    partial_complete update (a query of the dispatcher failed),
    handlePartialCompletion swallows the error: it returns normally, the
    batch is left in partial_complete, audio_requested is not written and
    no request has been sent. *)
Theorem failed_dispatch_leaves_batch_partial
  (w : World) (bid : string) (snapshot b : Batch) (e : Err) :
  next_call_ok w = true ->
  lookup bid (batches w) = Some b -> status b = pending ->
  result (run (AudioGenerationService.triggerAudioGeneration bid)
            (set_batches (after_call w)
               (put (mark_partial (clock w) b) (batches w)))) = Fail e ->
  let o := run (WebhookServices.handlePartialCompletion bid snapshot) w in
  result o = Ok tt /\
  lookup bid (batches (world o)) = Some (mark_partial (clock w) b) /\
  status (mark_partial (clock w) b) = partial_complete /\
  status_writes (events o) = [(bid, pending, partial_complete)] /\
  posts (events o) = [].
Proof.
  intros N L Sb T o. subst o.
  assert (Id : batchId (mark_partial (clock w) b) = bid).
  { unfold mark_partial. rewrite apply_update_id. exact (lookup_id _ _ _ L). }
  unfold WebhookServices.handlePartialCompletion.
  run_norm. rewrite run_await_ok by auto. cbn [perform fst snd].
  change (batches (after_call w)) with (batches w).
  change (clock (after_call w)) with (clock w).
  rewrite (find_batch_hit bid (StatusIs pending) _ b L)
    by (cbn; rewrite Sb; reflexivity).
  rewrite (update_batch_put bid (StatusIs pending) _ _ b L)
    by (first [exact Id | cbn; rewrite Sb; reflexivity]).
  fold (mark_partial (clock w) b).
  cbn [fst snd sets_status existsb orb]. run_norm.
  pose proof (triggerAudioGeneration_keeps_stores
                (set_batches (after_call w)
                   (put (mark_partial (clock w) b) (batches w))) bid)
    as (B & _ & _ & W).
  pose proof (failed_dispatch_sent_nothing _ bid e T) as P.
  destruct (run (AudioGenerationService.triggerAudioGeneration bid)
              (set_batches (after_call w)
                 (put (mark_partial (clock w) b) (batches w))))
    as [r w2 ev2].
  cbn [result world events] in *. subst r. run_norm.
  cbn [result world events].
  split; [reflexivity |].
  split.
  { rewrite B. cbn [batches set_batches].
    apply (lookup_put_id bid _ _ b L Id). }
  split; [reflexivity |].
  rewrite (lookup_id _ _ _ L), Sb.
  split.
  - unfold status_writes in *. cbn [flat_map app].
    rewrite !flat_map_app, W. reflexivity.
  - unfold posts in *. cbn [flat_map app].
    rewrite !flat_map_app, P. reflexivity.
Qed.

Lemma failed_dispatch_example :
  exists b',
    lookup "b1"
      (batches (world (run (WebhookServices.handlePartialCompletion "b1"
                              (demo_batch pending 2 4))
                         (mkWorld [demo_batch pending 2 4]
                            [demo_unit 1 "u1" false; demo_unit 2 "u2" false]
                            [] 5 10 [false; true]))))
    = Some b' /\ status b' = partial_complete.
Proof.
  destruct (failed_dispatch_leaves_batch_partial
              (mkWorld [demo_batch pending 2 4]
                 [demo_unit 1 "u1" false; demo_unit 2 "u2" false]
                 [] 5 10 [false; true])
              "b1" (demo_batch pending 2 4) (demo_batch pending 2 4) DbFailure
              eq_refl eq_refl eq_refl eq_refl)
    as (_ & L & S & _).
  eexists. split; [exact L | exact S].
Defined.

(** ** Units that arrive late *)

(** A unit (one that passes the validators of the schema) that arrives
    for a batch that has left pending and partial_complete (it is
    complete, audio_requested, audio_complete, audio_failed or failed) is
    persisted and counted: receivedCount grows by one even past
    expectedCount, the status is not written and nothing is dispatched. *)
Theorem late_arrival_only_counts
  (w : World) (req : WebhookController.SummaryRequest) (bid : string)
  (b : Batch) :
  faults w = [] -> unique_ids (batches w) ->
  valid_unit req = true ->
  WebhookController.q_batchId req = Some bid -> bid <> "" ->
  lookup bid (batches w) = Some b ->
  status_in (status b) [pending; partial_complete] = false ->
  let o := run (WebhookController.handleSummaryWebhook req) w in
  result o = Ok (WebhookController.mkResponse 200
                   (WebhookController.SummaryReceived (unit_of w req))) /\
  summaries (world o) = summaries w ++ [unit_of w req] /\
  lookup bid (batches (world o)) = Some (apply_update (clock w) [IncReceived] b) /\
  receivedCount (apply_update (clock w) [IncReceived] b) = receivedCount b + 1 /\
  status (apply_update (clock w) [IncReceived] b) = status b /\
  status_writes (events o) = [] /\
  posts (events o) = [].
Proof.
  intros F U V Q Hb L St o. subst o.
  destruct w as [bs ss ms t n fs]. cbn [faults] in F. subst fs.
  cbn [batches clock summaries] in *.
  set (u := unit_of (mkWorld bs ss ms t n []) req).
  set (bt := apply_update t [IncReceived] b).
  assert (Id : batchId bt = bid).
  { unfold bt. rewrite apply_update_id. exact (lookup_id _ _ _ L). }
  assert (Lb : lookup bid (put bt bs) = Some bt)
    by (apply (lookup_put_id bid bt bs b L Id)).
  assert (E : run (WebhookController.handleSummaryWebhook req)
                (mkWorld bs ss ms t n [])
              = mkOutcome
                  (Ok (WebhookController.mkResponse 200
                         (WebhookController.SummaryReceived u)))
                  (mkWorld (put bt bs) (ss ++ [u]) ms t (S n) [])
                  (log_received bid
                   :: (if (receivedCount b + 1 <=? count_summaries bid true ss)
                       then [log_audio_progress bid] else []))).
  { unfold WebhookController.handleSummaryWebhook, WebhookServices.saveSummary.
    create_valid V.
    rewrite run_try_catch, run_bind, run_try_catch, run_bind.
    rewrite run_await_nf by reflexivity. cbn [perform fst snd]. world_norm.
    rewrite andThen_ok, prepend_nil, Q, (truthy_Some bid Hb).
    rewrite run_bind, run_when_true.
    unfold WebhookServices.checkBatchCompletion.
    rewrite run_try_catch, run_bind.
    rewrite (run_update_hit bs _ ms t (S n) bid AnyStatus _ _ b L eq_refl).
    fold bt.
    rewrite andThen_ok, prepend_nil. unfold WebhookServices.afterIncrement.
    rewrite run_bind, run_log, andThen_ok, run_bind, run_count, andThen_ok,
      prepend_nil.
    assert (Eu : mkSummary n (WebhookController.q_userId req)
                   (WebhookController.q_summary req)
                   (WebhookController.q_summaryType req)
                   (WebhookController.q_summaryTitle req) (Some bid) false None
                 = u)
      by (unfold u, unit_of; cbn [nextId]; rewrite Q; reflexivity).
    rewrite Eu.
    rewrite (count_audio_snoc bid ss u) by reflexivity.
    unfold WebhookServices.evaluate.
    change (receivedCount bt) with (receivedCount b + 1).
    change (expectedCount bt) with (expectedCount b).
    change (status bt) with (status b).
    rewrite St, andb_false_r.
    replace (Status_eqb (status b) pending) with false
      by (destruct (status b); try reflexivity; discriminate St).
    rewrite andb_false_r.
    replace (0 <? receivedCount b + 1) with true
      by (symmetry; apply Nat.ltb_lt; lia).
    rewrite andb_true_r.
    destruct (receivedCount b + 1 <=? count_summaries bid true ss).
    - run_norm.
      rewrite (run_checkBatchAudioCompletion (put bt bs) (ss ++ [u]) ms t (S n)
                 bid bt (put_unique bt bs U) Lb).
      unfold audio_check_outcome, all_units_have_audio.
      rewrite (count_summaries_snoc bid ss u)
        by (unfold u, unit_of; cbn; exact Q).
      rewrite (count_audio_snoc bid ss u) by reflexivity.
      replace (S (count_summaries bid false ss) <=? count_summaries bid true ss)
        with false
        by (symmetry; apply Nat.leb_gt;
            pose proof (count_split bid ss); lia).
      cbn [andb]. run_norm. reflexivity.
    - run_norm. reflexivity. }
  rewrite E. cbn [result world events summaries batches].
  split; [reflexivity |]. split; [reflexivity |]. split; [exact Lb |].
  split; [unfold bt; cbn; lia |]. split; [reflexivity |].
  destruct (receivedCount b + 1 <=? count_summaries bid true ss);
    split; reflexivity.
Qed.

Lemma late_arrival_example :
  exists b',
    lookup "b1"
      (batches (world (run (WebhookController.handleSummaryWebhook
                              (demo_request "u3"))
                         (demo_world failed 0 2 [] 200))))
    = Some b' /\ receivedCount b' = 1 /\ status b' = failed.
Proof.
  assert (N : "b1" <> "") by discriminate.
  destruct (late_arrival_only_counts (demo_world failed 0 2 [] 200)
              (demo_request "u3") "b1" (demo_batch failed 0 2)
              eq_refl (demo_unique _ _ _ _ _) eq_refl eq_refl N eq_refl eq_refl)
    as (_ & _ & L & R & S & _).
  eexists. split; [exact L |]. split; [exact R | exact S].
Defined.

(** ** The partial-completion sweep *)

Lemma trigger_outcome_fresh (bs : list Batch) (ss : list Summary)
  (ms : list Mix) (t : Date) (n : nat) (bid : string) :
  AudioGenerationService.audio_already_processed (lookup bid bs) = false ->
  trigger_outcome bid (mkWorld bs ss ms t n []) =
  mkOutcome (Ok tt)
    (mkWorld bs ss ms
       (t + 1000 * (List.length (summaries_without_audio bid ss) - 1)) n [])
    (events (trigger_outcome bid (mkWorld bs ss ms t n []))).
Proof.
  intro H. unfold trigger_outcome. cbn [batches summaries clock]. rewrite H.
  destruct (summaries_without_audio bid ss) as [| s l]; [| reflexivity].
  cbn [List.length Nat.eqb Nat.sub Nat.mul]. rewrite Nat.add_0_r. reflexivity.
Qed.

Section PartialSweepSteps.

Import AudioGenerationService BatchTimeoutService.

Variables (bs : list Batch) (ss : list Summary) (ms : list Mix).
Variables (t : Date) (n : nat).
Variable b : Batch.
Hypothesis fresh : lookup (batchId b) bs = Some b.
Hypothesis is_pending : status b = pending.

Let lacking := summaries_without_audio (batchId b) ss.
Let t' := t + 1000 * (List.length lacking - 1).
Let b2 := mark_partial t b.
Let b3 := apply_update t' [SetStatus audio_requested; StampAudioRequestedAt] b2.

Lemma checkPartial_below_half :
  reached_half (receivedCount b) (expectedCount b) = false ->
  run (checkPartial b) (mkWorld bs ss ms t n []) =
  mkOutcome (Ok tt) (mkWorld bs ss ms t n []) [].
Proof. intro H. unfold checkPartial. rewrite H. reflexivity. Qed.

Lemma checkPartial_at_half :
  reached_half (receivedCount b) (expectedCount b) = true ->
  run (checkPartial b) (mkWorld bs ss ms t n []) =
  mkOutcome (Ok tt) (mkWorld (put b3 bs) ss ms t' n [])
    ([EvLog (mkLog Info "Batch ${batch.batchId} has reached 50% completion, triggering audio generation" (batchId b));
      EvStatus (batchId b) pending partial_complete]
     ++ events (trigger_outcome (batchId b) (mkWorld (put b2 bs) ss ms t n []))
     ++ [EvStatus (batchId b) partial_complete audio_requested;
         EvLog (mkLog Info "Triggered audio generation for partial completion of batch ${batch.batchId}" (batchId b))]).
Proof.
  intro H. unfold checkPartial. rewrite H. unfold triggerPartialCompletion.
  rewrite is_pending. cbn [negb Status_eqb].
  run_norm.
  rewrite (run_update_hit bs ss ms t n (batchId b) _ _ _ b fresh)
    by (cbn [cond_holds]; rewrite is_pending; reflexivity).
  fold (mark_partial t b). fold b2. run_norm.
  rewrite run_triggerAudioGeneration by reflexivity.
  assert (L2 : lookup (batchId b) (put b2 bs) = Some b2)
    by (apply (lookup_put b2 bs b); exact fresh).
  rewrite (trigger_outcome_fresh (put b2 bs) ss ms t n (batchId b)) at 1
    by (rewrite L2; reflexivity).
  fold lacking. fold t'. run_norm.
  rewrite (run_update_hit _ ss ms t' n (batchId b) _ _ _ b2 L2) by reflexivity.
  fold b3. run_norm. rewrite put_put by reflexivity.
  rewrite is_pending. cbn [sets_status existsb orb].
  change (status b2) with partial_complete.
  change (status b3) with audio_requested.
  cbn [app]. rewrite <- ?app_assoc. reflexivity.
Qed.

End PartialSweepSteps.

Section PartialSweep.

Import BatchTimeoutService.

Lemma checkPartial_total (b : Batch) (w : World) :
  faults w = [] -> result (run (checkPartial b) w) = Ok tt.
Proof.
  intros _. unfold checkPartial.
  destruct (reached_half (receivedCount b) (expectedCount b)); [| reflexivity].
  rewrite run_when_true, run_bind, run_log, andThen_ok. cbn [prepend result].
  unfold triggerPartialCompletion. apply try_log_never_throws.
Qed.

Lemma checkPartial_spec (w : World) (b : Batch) :
  faults w = [] ->
  lookup (batchId b) (batches w) = Some b ->
  status b = pending ->
  reached_half (receivedCount b) (expectedCount b) = true ->
  exists b',
    lookup (batchId b) (batches (world (run (checkPartial b) w))) = Some b' /\
    status b' = audio_requested /\ receivedCount b' = receivedCount b /\
    writes_of (batchId b) (events (run (checkPartial b) w))
    = [(pending, partial_complete); (partial_complete, audio_requested)] /\
    map r_summaryId (posts_of (batchId b) (events (run (checkPartial b) w)))
    = map s_id (summaries_without_audio (batchId b) (summaries w)).
Proof.
  destruct w as [bs ss ms t n fs]. cbn [faults batches summaries].
  intros -> L S H.
  rewrite (checkPartial_at_half bs ss ms t n b L S H).
  cbn [world batches events].
  eexists. split; [apply (lookup_put_id _ _ bs b L); reflexivity |].
  split; [reflexivity |]. split; [reflexivity |].
  destruct (trigger_outcome_trace (batchId b)
              (mkWorld (put (mark_partial t b) bs) ss ms t n []))
    as [TP TW].
  { cbn [batches]. rewrite (lookup_put_id _ _ bs b L) by reflexivity.
    reflexivity. }
  trace_norm. rewrite TW. cbn [app]. rewrite ?app_nil_r.
  split; [reflexivity |].
  change (posts_of (batchId b) []) with (@nil AudioRequest).
  rewrite ?app_nil_r. exact TP.
Qed.

(** The partial-completion sweep, seen from a pending batch that has
    received something: if its receivedCount is at least half of its
    expectedCount the sweep moves it to partial_complete, runs one
    dispatch over its units lacking audio and leaves it audio_requested
    with its receivedCount untouched; below the half it leaves the batch
    as it is and sends nothing for it. *)
Theorem partial_sweep_dispatches_batches_at_half (w : World) (b : Batch) :
  faults w = [] -> unique_ids (batches w) ->
  In b (batches w) ->
  status b = pending -> 0 < receivedCount b ->
  let o := run checkPartialCompletionBatches w in
  (reached_half (receivedCount b) (expectedCount b) = true ->
     exists b',
       lookup (batchId b) (batches (world o)) = Some b' /\
       status b' = audio_requested /\ receivedCount b' = receivedCount b /\
       writes_of (batchId b) (events o)
       = [(pending, partial_complete); (partial_complete, audio_requested)] /\
       map r_summaryId (posts_of (batchId b) (events o))
       = map s_id (summaries_without_audio (batchId b) (summaries w))) /\
  (reached_half (receivedCount b) (expectedCount b) = false ->
     lookup (batchId b) (batches (world o)) = Some b /\
     writes_of (batchId b) (events o) = [] /\
     posts_of (batchId b) (events o) = []).
Proof.
  intros F U Hin Hst Hrc o. subst o. unfold checkPartialCompletionBatches.
  run_norm. rewrite run_await_nf by exact F. cbn [perform fst snd]. run_norm.
  set (l := filter (query_match (clock w) QPendingStarted) (batches w)).
  assert (Hl : In b l).
  { apply filter_In. split; auto. cbn [query_match].
    apply andb_true_iff. split; [apply Status_eqb_eq; exact Hst |].
    apply Nat.ltb_lt. exact Hrc. }
  destruct (forEach_isolated checkPartial
              (fun x => acts_checkPartial _ false x eq_refl)
              checkPartial_total l w b F U
              (unique_ids_filter _ _ U) Hl)
    as (w1 & ev1 & ev2 & F1 & U1 & S1 & L1 & L2 & S2 & E & A1 & A2 & A3 & A4).
  rewrite (In_lookup _ _ U Hin) in L1.
  assert (R : result (run (forEach l checkPartial) w) = Ok tt)
    by (apply forEach_result; [apply checkPartial_total | exact F]).
  destruct (run (forEach l checkPartial) w) as [r wf evf] eqn:Ef.
  cbn [result world events] in *. subst r. run_norm. cbn [world events].
  split.
  - intro H.
    destruct (checkPartial_spec w1 b F1 L1 Hst H) as (b' & Lb & Sb & Rb & Wb & Pb).
    rewrite S1 in Pb.
    exists b'. split; [congruence |]. split; [exact Sb |]. split; [exact Rb |].
    rewrite E. trace_norm. rewrite A1, A2, A3, A4, Wb, !app_nil_r.
    split; [reflexivity | exact Pb].
  - intro H.
    assert (Q : run (checkPartial b) w1 = mkOutcome (Ok tt) w1 []).
    { destruct w1 as [bs1 ss1 ms1 t1 n1 fs1]. cbn [faults] in F1. subst fs1.
      apply checkPartial_below_half. exact H. }
    rewrite Q in L2, E. cbn [world events] in L2, E.
    split; [congruence |].
    rewrite E. trace_norm. rewrite A1, A2, A3, A4. split; reflexivity.
Qed.

Lemma partial_sweep_example :
  exists b',
    lookup "b1"
      (batches (world (run checkPartialCompletionBatches
                         (demo_world pending 2 4
                            [demo_unit 1 "u1" false; demo_unit 2 "u2" false] 5))))
    = Some b' /\ status b' = audio_requested.
Proof.
  assert (P : 0 < receivedCount (demo_batch pending 2 4)) by (simpl; lia).
  destruct (partial_sweep_dispatches_batches_at_half
              (demo_world pending 2 4
                 [demo_unit 1 "u1" false; demo_unit 2 "u2" false] 5)
              (demo_batch pending 2 4)
              eq_refl (demo_unique _ _ _ _ _) (or_introl eq_refl) eq_refl P)
    as [H _].
  destruct (H eq_refl) as (b' & L & S & _).
  exists b'. split; [exact L | exact S].
Defined.

(** The partial-completion sweep leaves alone every batch that is not
    pending or has received nothing: its tracker is as before, whatever
    the sweep does to the other batches. *)
Theorem partial_sweep_skips_other_batches (w : World) (b : Batch) :
  faults w = [] -> unique_ids (batches w) ->
  lookup (batchId b) (batches w) = Some b ->
  status b <> pending \/ receivedCount b = 0 ->
  lookup (batchId b) (batches (world (run checkPartialCompletionBatches w)))
  = Some b /\
  summaries (world (run checkPartialCompletionBatches w)) = summaries w.
Proof.
  intros F U L E.
  set (l := filter (query_match (clock w) QPendingStarted) (batches w)).
  assert (Hout : ~ In (batchId b) (map batchId l)).
  { intro H. apply in_map_iff in H as (x & Ex & Hx).
    apply filter_In in Hx as [Hx Q].
    pose proof (In_lookup _ _ U Hx) as Lx. rewrite Ex, L in Lx.
    injection Lx as <-. cbn [query_match] in Q.
    apply andb_prop in Q as [Q1 Q2].
    apply Status_eqb_eq in Q1. apply Nat.ltb_lt in Q2.
    destruct E as [E | E]; [contradiction | lia]. }
  assert (A : all_acts (issues (fun i => In i (map batchId l)) true false)
                (forEach l checkPartial)).
  { apply forEach_footprint. intro x. apply acts_checkPartial. reflexivity. }
  unfold checkPartialCompletionBatches. rewrite run_try_catch.
  rewrite world_orElse_log by reflexivity.
  rewrite run_bind, run_await_nf by exact F. cbn [perform fst snd].
  rewrite andThen_ok. cbn [prepend world].
  rewrite run_bind, run_log, andThen_ok. cbn [prepend world]. fold l.
  split.
  - rewrite (run_lookup_other _ true false _ _ _ A Hout). exact L.
  - apply (run_summaries _ true _ _ A).
Qed.

Lemma partial_sweep_skip_example :
  lookup "b1"
    (batches (world (run checkPartialCompletionBatches
                       (demo_world partial_complete 2 4 [] 5))))
  = Some (demo_batch partial_complete 2 4).
Proof.
  assert (N : status (demo_batch partial_complete 2 4) <> pending
              \/ receivedCount (demo_batch partial_complete 2 4) = 0)
    by (left; discriminate).
  apply (partial_sweep_skips_other_batches
           (demo_world partial_complete 2 4 [] 5)
           (demo_batch partial_complete 2 4)
           eq_refl (demo_unique _ _ _ _ _) eq_refl N).
Defined.

End PartialSweep.

(** * services/commonFunctions.ts *)

(** Strings are sequences of code units below 256; [wordCount] is a
    natural number, as at every call site. *)

Module CommonFunctions.

(** The code units matched by [\s]: tab, line feed, vertical tab, form
    feed, carriage return, space and no-break space. *)
Definition is_space (c : Ascii.ascii) : bool :=
  let n := Ascii.nat_of_ascii c in
  ((9 <=? n) && (n <=? 13)) || (n =? 32) || (n =? 160).

(** [text.split(/\s+/)] read from left to right: the head of the result
    is the word being read; [in_gap] tells that the last code unit read
    was a separator. *)
Fixpoint split_from (in_gap : bool) (text : string) : list string :=
  match text with
  | EmptyString => [EmptyString]
  | String c rest =>
      if is_space c then
        if in_gap then split_from true rest
        else EmptyString :: split_from true rest
      else
        match split_from false rest with
        | w :: ws => String c w :: ws
        | [] => [String c EmptyString]
        end
  end.

Definition split_spaces (text : string) : list string := split_from false text.

(** [words.join(' ')]. *)
Fixpoint join (words : list string) : string :=
  match words with
  | [] => EmptyString
  | [w] => w
  | w :: rest => append w (String Ascii.Space (join rest))
  end.

Definition truncateToWordCount (text : string) (wordCount : nat) : string :=
  if String.eqb text "" then ""
  else
    let words := split_spaces text in
    if List.length words <=? wordCount then text
    else append (join (firstn wordCount words)) "...".

End CommonFunctions.

Section TruncateToWordCount.

Import CommonFunctions.

Fixpoint no_space (w : string) : Prop :=
  match w with
  | EmptyString => True
  | String c rest => is_space c = false /\ no_space rest
  end.

(** Every word but the last is non-empty. *)
Fixpoint inner_words (ws : list string) : Prop :=
  match ws with
  | [] => True
  | w :: rest =>
      match rest with
      | [] => True
      | _ :: _ => w <> EmptyString /\ inner_words rest
      end
  end.

Lemma split_from_cons (g : bool) (s : string) :
  exists w ws, split_from g s = w :: ws.
Proof.
  revert g. induction s as [| c rest IH]; intro g; cbn [split_from].
  - eauto.
  - destruct (is_space c).
    + destruct g; [apply IH | eauto].
    + destruct (IH false) as (w & ws & E). rewrite E. eauto.
Qed.

Lemma split_from_no_space (g : bool) (s : string) :
  Forall no_space (split_from g s).
Proof.
  revert g. induction s as [| c rest IH]; intro g; cbn [split_from].
  - repeat constructor.
  - destruct (is_space c) eqn:E.
    + destruct g; [apply IH |]. constructor; [exact I | apply IH].
    + specialize (IH false). destruct (split_from false rest) as [| w ws].
      * repeat constructor. exact E.
      * inversion IH; subst. constructor; [split; assumption | assumption].
Qed.

Lemma split_from_inner (g : bool) (s : string) :
  if g then inner_words (split_from g s)
  else inner_words (tl (split_from g s)).
Proof.
  revert g. induction s as [| c rest IH]; intro g; cbn [split_from].
  - destruct g; exact I.
  - destruct (is_space c).
    + destruct g; [exact (IH true) | exact (IH true)].
    + pose proof (IH false) as H.
      destruct (split_from false rest) as [| w ws]; [destruct g; exact I |].
      cbn [tl] in H. destruct g; cbn [tl]; [| exact H].
      cbn [inner_words]. destruct ws; [exact I |]. split; [discriminate | exact H].
Qed.

Lemma inner_words_firstn (ws : list string) (k : nat) :
  inner_words ws -> k < List.length ws ->
  Forall (fun w => w <> EmptyString) (firstn k ws).
Proof.
  revert k. induction ws as [| w rest IH]; intros k H Hk; [inversion Hk |].
  destruct k as [| k]; [constructor |].
  cbn [firstn]. cbn [inner_words] in H. cbn [List.length] in Hk.
  destruct rest as [| w2 rest']; [cbn in Hk; lia |].
  destruct H as [Hw Hr]. constructor; [exact Hw |].
  apply IH; [exact Hr | lia].
Qed.

Lemma no_space_append (a b : string) :
  no_space a -> no_space b -> no_space (append a b).
Proof.
  induction a as [| c a IH]; cbn; [auto |]. intros [H1 H2] Hb. auto.
Qed.

Lemma split_from_word (g : bool) (w : string) :
  no_space w -> split_from g w = [w].
Proof.
  revert g. induction w as [| c w IH]; intros g H; [reflexivity |].
  destruct H as [Hc Hw]. cbn [split_from]. rewrite Hc, (IH false Hw).
  reflexivity.
Qed.

Lemma split_from_word_gap (g : bool) (w rest : string) (sp : Ascii.ascii) :
  g = false \/ w <> EmptyString ->
  no_space w -> is_space sp = true ->
  split_from g (append w (String sp rest)) = w :: split_from true rest.
Proof.
  revert g. induction w as [| c w IH]; intros g Hg Hw Hsp.
  - destruct Hg as [-> | Hg]; [| contradiction].
    cbn [append split_from]. rewrite Hsp. reflexivity.
  - destruct Hw as [Hc Hw]. cbn [append split_from]. rewrite Hc.
    rewrite (IH false) by auto. reflexivity.
Qed.

(** The words of [join ws ++ tail]: those of [ws], the last one extended
    by [tail]. *)
Fixpoint glue (ws : list string) (tail : string) : list string :=
  match ws with
  | [] => [tail]
  | w :: rest =>
      match rest with
      | [] => [append w tail]
      | _ :: _ => w :: glue rest tail
      end
  end.

Lemma append_assoc (a b c : string) :
  append (append a b) c = append a (append b c).
Proof. induction a as [| x a IH]; cbn; [reflexivity | rewrite IH; reflexivity]. Qed.

Lemma split_join (ws : list string) (tail : string) :
  no_space tail ->
  forall g,
    Forall no_space ws ->
    Forall (fun w => w <> EmptyString) (tl ws) ->
    (g = false \/ Forall (fun w => w <> EmptyString) ws) ->
    split_from g (append (join ws) tail) = glue ws tail.
Proof.
  intro Ht. induction ws as [| w rest IH]; intros g Hs Hn Hg.
  - cbn [join append glue]. apply split_from_word. exact Ht.
  - inversion Hs as [| ? ? Hw Hrest]; subst. cbn [tl] in Hn.
    destruct rest as [| w2 rest'].
    + cbn [join glue]. apply split_from_word. apply no_space_append; assumption.
    + change (join (w :: w2 :: rest'))
        with (append w (String Ascii.Space (join (w2 :: rest')))).
      rewrite append_assoc. cbn [append].
      rewrite split_from_word_gap; [| | exact Hw | reflexivity].
      * cbn [glue]. f_equal. apply IH; auto.
        inversion Hn; subst. exact H2.
      * destruct Hg as [Hg | Hg]; [left; exact Hg |].
        right. inversion Hg; subst. assumption.
Qed.

Lemma glue_length (ws : list string) (tail : string) :
  List.length (glue ws tail) = Nat.max 1 (List.length ws).
Proof.
  induction ws as [| w rest IH]; [reflexivity |].
  destruct rest as [| w2 rest']; [reflexivity |].
  change (glue (w :: w2 :: rest') tail) with (w :: glue (w2 :: rest') tail).
  cbn [List.length] in *. rewrite IH. lia.
Qed.

Lemma dots_no_space : no_space "...".
Proof. cbn. repeat split; reflexivity. Qed.

(** The words of a truncated text. *)
Lemma split_truncated (text : string) (n : nat) :
  n < List.length (split_spaces text) ->
  split_spaces (append (join (firstn n (split_spaces text))) "...")
  = glue (firstn n (split_spaces text)) "...".
Proof.
  intro H. unfold split_spaces in *.
  apply (split_join _ "..." dots_no_space false).
  - pose proof (split_from_no_space false text) as F.
    rewrite Forall_forall in *. intros w Hw. apply F.
    rewrite <- (firstn_skipn n (split_from false text)).
    apply in_or_app. left. exact Hw.
  - pose proof (split_from_inner false text) as I. cbn in I.
    destruct (split_from false text) as [| w ws]; [inversion H |].
    destruct n as [| k]; [constructor |].
    cbn [firstn tl] in *. apply inner_words_firstn; [exact I |].
    cbn [List.length] in H. lia.
  - left. reflexivity.
Qed.

Lemma append_dots_nonempty (s : string) : String.eqb (append s "...") "" = false.
Proof. destruct s; reflexivity. Qed.

(** truncateToWordCount returns a text of at most [wordCount] words (one
    word when [wordCount] is 0: the ellipsis alone), counting words as the
    function itself does. *)
Theorem truncateToWordCount_bounds_the_words (text : string) (wordCount : nat) :
  List.length (split_spaces (truncateToWordCount text wordCount))
  <= Nat.max 1 wordCount.
Proof.
  unfold truncateToWordCount.
  destruct (String.eqb text "") eqn:E;
    [unfold split_spaces; cbn [split_from List.length]; lia |].
  cbv zeta.
  destruct (List.length (split_spaces text) <=? wordCount) eqn:C.
  - apply Nat.leb_le in C. lia.
  - apply Nat.leb_gt in C.
    rewrite (split_truncated text wordCount C), glue_length.
    rewrite firstn_length_le by lia. lia.
Qed.

(** truncateToWordCount is idempotent: truncating a truncated text again
    to the same word count returns it as it is (the ellipsis is not
    doubled). *)
Theorem truncateToWordCount_idempotent (text : string) (wordCount : nat) :
  truncateToWordCount (truncateToWordCount text wordCount) wordCount
  = truncateToWordCount text wordCount.
Proof.
  destruct (String.eqb text "") eqn:E.
  - apply String.eqb_eq in E. subst text. reflexivity.
  - assert (H : truncateToWordCount text wordCount = text \/
                (wordCount < List.length (split_spaces text) /\
                 truncateToWordCount text wordCount
                 = append (join (firstn wordCount (split_spaces text))) "...")).
    { unfold truncateToWordCount. rewrite E. cbv zeta.
      destruct (List.length (split_spaces text) <=? wordCount) eqn:C;
        [left; reflexivity |].
      right. split; [apply Nat.leb_gt; exact C | reflexivity]. }
    destruct H as [H | [C H]]; rewrite H; [exact H |].
    unfold truncateToWordCount. rewrite append_dots_nonempty. cbv zeta.
    rewrite (split_truncated text wordCount C), glue_length.
    rewrite firstn_length_le by lia.
    destruct wordCount as [| k]; [reflexivity |].
    replace (Nat.max 1 (S k) <=? S k) with true
      by (symmetry; apply Nat.leb_le; lia).
    reflexivity.
Qed.

Lemma join_cons_char (c : Ascii.ascii) (w : string) (l : list string) :
  join (String c w :: l) = String c (join (w :: l)).
Proof. destruct l; reflexivity. Qed.

Lemma join_firstn_length (s : string) :
  forall (g : bool) (n : nat),
  String.length (join (firstn n (split_from g s))) <= String.length s.
Proof.
  induction s as [| c rest IH]; intros g n.
  - cbn [split_from]. destruct n as [| [| n]]; cbn; lia.
  - cbn [split_from String.length].
    destruct (is_space c).
    + destruct g.
      * specialize (IH true n). lia.
      * destruct n as [| n]; [cbn; lia |].
        cbn [firstn]. specialize (IH true n).
        destruct (firstn n (split_from true rest)) as [| x l] eqn:F;
          [cbn; lia |].
        cbn [join append String.length] in *. lia.
    + destruct (split_from_cons false rest) as (w & ws & E). rewrite E.
      destruct n as [| n]; [cbn; lia |].
      cbn [firstn]. rewrite join_cons_char. cbn [String.length].
      specialize (IH false (S n)). rewrite E in IH. cbn [firstn] in IH. lia.
Qed.

Lemma append_length (a b : string) :
  String.length (append a b) = String.length a + String.length b.
Proof. induction a as [| c a IH]; cbn; [reflexivity | rewrite IH; reflexivity]. Qed.

(** The result of truncateToWordCount is never longer than the text plus
    the three dots of the ellipsis. *)
Theorem truncateToWordCount_length (text : string) (wordCount : nat) :
  String.length (truncateToWordCount text wordCount) <= String.length text + 3.
Proof.
  unfold truncateToWordCount.
  destruct (String.eqb text ""); [cbn; lia |]. cbv zeta.
  destruct (List.length (split_spaces text) <=? wordCount); [lia |].
  rewrite append_length. unfold split_spaces.
  pose proof (join_firstn_length text false wordCount). cbn [String.length]. lia.
Qed.

End TruncateToWordCount.

(** ** shuffleArray *)

Module Shuffle.

(** A value of [Math.random()]: a double in [0, 1), that is
    [mant / 2^expo] with a mantissa below 2^53 and an exponent of at most
    1074 (the subnormals included). *)
Record Random : Type := mkRandom { mant : N; expo : N }.

Definition unit_double (r : Random) : bool :=
  ((mant r <? 2 ^ 53) && (mant r <? 2 ^ expo r) && (expo r <=? 1074))%N.

(** The double nearest to [n / 2^e], ties to even, as a numerator over
    [2^e]: a numerator below 2^53 is exact; a longer one is cut to its 53
    leading bits and rounded on the bits cut off. *)
Definition round_double (n : N) : N :=
  (if n <? 2 ^ 53 then n
   else
     let s := N.log2 n - 52 in
     let q := n / 2 ^ s in
     let rest := n mod 2 ^ s in
     let half := 2 ^ (s - 1) in
     let up := (half <? rest) || ((rest =? half) && N.odd q) in
     (if up then q + 1 else q) * 2 ^ s)%N.

(** [Math.floor(r * k)] for an integer [k] below 2^53: the product is
    the double nearest to the exact one, and the floor is taken of that
    double. *)
Definition floor_times (r : Random) (k : N) : N :=
  (round_double (mant r * k) / 2 ^ expo r)%N.

(** [[a[i], a[j]] = [a[j], a[i]]].  With an index outside the array the
    source would store [undefined]; the model stops there. *)
Definition swap {T} (i j : nat) (a : list T) : option (list T) :=
  match nth_error a j, nth_error a i with
  | Some x, Some y => Some (replace_nth j y (replace_nth i x a))
  | _, _ => None
  end.

(** The loop [for (let i = ...; i > 0; i--)] from index [i] down, the
    [call]-th value of [Math.random()] being [random call]. *)
Fixpoint shuffle_from {T} (random : nat -> Random) (call i : nat)
  (shuffled : list T) : option (list T) :=
  match i with
  | 0 => Some shuffled
  | S i' =>
      let j := N.to_nat (floor_times (random call) (N.of_nat (i + 1))) in
      match swap i j shuffled with
      | Some shuffled' => shuffle_from random (S call) i' shuffled'
      | None => None
      end
  end.

Definition shuffleArray {T} (random : nat -> Random) (array : list T)
  : option (list T) :=
  shuffle_from random 0 (List.length array - 1) array.

End Shuffle.

Section ShuffleArray.

Import Shuffle.

Context {T : Type}.

(** The largest double below 1 is [1 - 2^-53]. *)
Lemma below_one (m e : N) :
  (m < 2 ^ 53 -> m < 2 ^ e -> m * 2 ^ 53 + 2 ^ e <= 2 ^ e * 2 ^ 53)%N.
Proof.
  intros M E.
  destruct (N.le_gt_cases e 53) as [L | L].
  - assert (P : (2 ^ e <= 2 ^ 53)%N) by (apply N.pow_le_mono_r; lia).
    nia.
  - assert (P : (2 ^ 53 <= 2 ^ e)%N) by (apply N.pow_le_mono_r; lia).
    nia.
Qed.

(** The rounded product of a double below 1 and an integer [k] below
    2^32 stays below [k]: the rounding never reaches [k]. *)
Lemma round_double_below (m e k : N) :
  (m < 2 ^ 53 -> m < 2 ^ e -> 0 < k -> k < 2 ^ 32 ->
   round_double (m * k) < k * 2 ^ e)%N.
Proof.
  intros M E K0 K. unfold round_double.
  set (n := (m * k)%N).
  assert (Nlt : (n < k * 2 ^ e)%N) by (unfold n; nia).
  destruct (n <? 2 ^ 53)%N eqn:Small; [exact Nlt |].
  apply N.ltb_ge in Small.
  set (l := N.log2 n).
  assert (Npos : (0 < n)%N) by lia.
  destruct (N.log2_spec n Npos) as [Lo Hi]. fold l in Lo, Hi.
  assert (L53 : (53 <= l)%N).
  { apply N.log2_le_mono in Small. rewrite N.log2_pow2 in Small by lia.
    exact Small. }
  set (s := (l - 52)%N).
  assert (S1 : (1 <= s)%N) by (unfold s; lia).
  assert (Es : l = (s + 52)%N) by (unfold s; lia).
  assert (Le : (l < e + 32)%N).
  { apply N.log2_lt_pow2; [exact Npos |].
    rewrite N.pow_add_r.
    assert (0 < 2 ^ e)%N by (apply N.neq_0_lt_0, N.pow_nonzero; lia). nia. }
  assert (Se : (s <= e)%N) by lia.
  set (cut := (2 ^ s)%N).
  assert (Spos : (0 < cut)%N) by (apply N.neq_0_lt_0, N.pow_nonzero; lia).
  assert (Ee : (2 ^ e = 2 ^ (e - s) * cut)%N).
  { unfold cut. rewrite <- N.pow_add_r. f_equal. lia. }
  set (c := (k * 2 ^ (e - s))%N).
  assert (Kc : (k * 2 ^ e = c * cut)%N) by (unfold c; rewrite Ee; lia).
  pose proof (N.div_mod n cut ltac:(lia)) as DM.
  pose proof (N.mod_lt n cut ltac:(lia)) as RM.
  set (q := (n / cut)%N) in *. set (rest := (n mod cut)%N) in *.
  assert (Qc : (q < c)%N) by nia.
  assert (Q52 : (2 ^ 52 <= q)%N).
  { assert (2 ^ l = 2 ^ 52 * cut)%N
      by (unfold cut; rewrite <- N.pow_add_r; f_equal; lia).
    nia. }
  assert (Hs : (cut = 2 * 2 ^ (s - 1))%N).
  { unfold cut. replace s with (N.succ (s - 1)) at 1 by lia.
    apply N.pow_succ_r'. }
  set (half := (2 ^ (s - 1))%N) in *.
  rewrite Kc.
  destruct ((half <? rest)%N || ((rest =? half)%N && N.odd q)) eqn:Up.
  - (* rounding up: the cut is not the last one below k *)
    assert (Hr : (half <= rest)%N).
    { apply orb_true_iff in Up as [U | U].
      - apply N.ltb_lt in U. lia.
      - apply andb_true_iff in U as [U _]. apply N.eqb_eq in U. lia. }
    assert (q + 1 < c)%N; [| nia].
    assert (q + 1 <= c)%N by lia.
    assert (q + 1 <> c)%N; [| lia].
    intro Eq.
    pose proof (below_one m e M E) as B.
    assert (B' : (n * 2 ^ 53 + c * cut <= c * cut * 2 ^ 53)%N).
    { rewrite <- Kc. unfold n. nia. }
    assert (P53 : (2 ^ 53 = 2 * 2 ^ 52)%N) by reflexivity.
    nia.
  - nia.
Qed.

Lemma floor_times_below (r : Random) (k : N) :
  unit_double r = true -> (0 < k -> k < 2 ^ 32 -> floor_times r k < k)%N.
Proof.
  unfold unit_double, floor_times. intros U K0 K.
  apply andb_true_iff in U as [U _]. apply andb_true_iff in U as [M E].
  apply N.ltb_lt in M, E.
  apply N.Div0.div_lt_upper_bound.
  rewrite (N.mul_comm (2 ^ expo r) k). apply round_double_below; assumption.
Qed.

(** The exact product and its double can have different floors: for the
    double nearest to 1/3 and k = 3 the product rounds to 1. *)
Lemma floor_times_rounds :
  floor_times (mkRandom 6004799503160661 54) 3 = 1%N /\
  (6004799503160661 * 3 / 2 ^ 54 = 0)%N.
Proof. split; reflexivity. Qed.

Lemma replace_nth_perm (l : list T) :
  forall (i : nat) (x y : T),
  nth_error l i = Some y ->
  Permutation (x :: l) (y :: replace_nth i x l).
Proof.
  induction l as [| z l IH]; intros [| i] x y H; cbn in H; try discriminate.
  - injection H as ->. cbn. apply perm_swap.
  - cbn [replace_nth].
    apply Permutation_trans with (z :: x :: l); [apply perm_swap |].
    apply Permutation_trans with (z :: y :: replace_nth i x l);
      [apply perm_skip; apply IH; exact H | apply perm_swap].
Qed.

Lemma swap_perm (i j : nat) (a a' : list T) :
  swap i j a = Some a' -> Permutation a a'.
Proof.
  unfold swap.
  destruct (nth_error a j) as [x |] eqn:Ej; [| discriminate].
  destruct (nth_error a i) as [y |] eqn:Ei; [| discriminate].
  intros [= <-].
  destruct (Nat.eq_dec i j) as [-> | N].
  - assert (x = y) by congruence. subst y.
    rewrite (replace_nth_same j x a Ei).
    rewrite (replace_nth_same j x a Ei). apply Permutation_refl.
  - assert (Ej' : nth_error (replace_nth i x a) j = Some x).
    { rewrite nth_error_replace_nth_neq by exact N. exact Ej. }
    pose proof (replace_nth_perm a i x y Ei) as P1.
    pose proof (replace_nth_perm (replace_nth i x a) j y x Ej') as P2.
    apply (Permutation_cons_inv (a := x)).
    apply Permutation_trans with (y :: replace_nth i x a); [exact P1 |].
    exact P2.
Qed.

Lemma swap_in_range (i j : nat) (a : list T) :
  i < List.length a -> j < List.length a -> exists a', swap i j a = Some a'.
Proof.
  intros Hi Hj. unfold swap.
  destruct (nth_error a j) as [x |] eqn:Ej;
    [| apply nth_error_None in Ej; lia].
  destruct (nth_error a i) as [y |] eqn:Ei;
    [| apply nth_error_None in Ei; lia].
  eauto.
Qed.

Lemma shuffle_from_spec (random : nat -> Random) :
  (forall call, unit_double (random call) = true) ->
  forall (i call : nat) (a : list T),
  (N.of_nat (List.length a) < 2 ^ 32)%N ->
  i < List.length a \/ (i = 0 /\ a = []) ->
  exists a', shuffle_from random call i a = Some a' /\ Permutation a a'.
Proof.
  intro R. induction i as [| i IH]; intros call a Len Hi.
  - exists a. split; [reflexivity | apply Permutation_refl].
  - destruct Hi as [Hi | [Hi _]]; [| discriminate].
    cbn [shuffle_from].
    set (j := N.to_nat (floor_times (random call) (N.of_nat (S i + 1)))).
    assert (J : j < S i + 1).
    { unfold j.
      pose proof (floor_times_below (random call) (N.of_nat (S i + 1))
                    (R call) ltac:(lia) ltac:(lia)) as B.
      lia. }
    destruct (swap_in_range (S i) j a Hi ltac:(lia)) as (a1 & E1).
    rewrite E1.
    pose proof (swap_perm _ _ _ _ E1) as P1.
    destruct (IH (S call) a1) as (a2 & E2 & P2).
    { rewrite <- (Permutation_length P1). exact Len. }
    { left. rewrite <- (Permutation_length P1). lia. }
    exists a2. split; [exact E2 |].
    eapply Permutation_trans; eassumption.
Qed.

(** shuffleArray returns a rearrangement of its argument: whatever
    doubles in [0, 1) [Math.random] returns, every index
    [Math.floor(Math.random() * (i + 1))], computed on doubles, stays
    inside the array (of a length below 2^32, as every array has), and
    the result holds the same elements with the same multiplicities. *)
Theorem shuffleArray_permutes (random : nat -> Random) (array : list T) :
  (forall call, unit_double (random call) = true) ->
  (N.of_nat (List.length array) < 2 ^ 32)%N ->
  exists shuffled,
    shuffleArray random array = Some shuffled /\
    Permutation array shuffled /\
    List.length shuffled = List.length array.
Proof.
  intros R Len.
  destruct (shuffle_from_spec random R (List.length array - 1) 0 array Len)
    as (a' & E & P).
  { destruct array as [| x l]; [right; split; reflexivity |].
    left. cbn [List.length]. lia. }
  exists a'. split; [exact E |]. split; [exact P |].
  symmetry. apply Permutation_length. exact P.
Qed.

End ShuffleArray.

(** A shuffle in which [Math.random()] always returns the double nearest
    to 1/3: at i = 2 the product rounds to 1. *)
Lemma shuffleArray_example :
  exists shuffled,
    Shuffle.shuffleArray (fun _ => Shuffle.mkRandom 6004799503160661 54)
      [1; 2; 3; 4]
    = Some shuffled /\
    Permutation [1; 2; 3; 4] shuffled /\ List.length shuffled = 4.
Proof.
  apply (shuffleArray_permutes
           (fun _ => Shuffle.mkRandom 6004799503160661 54) [1; 2; 3; 4]).
  - intro call. reflexivity.
  - reflexivity.
Defined.

(** ** Arrivals that reach the expected count *)

Lemma reached_half_full (received expected : nat) :
  expected <= received -> 0 < received -> reached_half received expected = true.
Proof.
  intros H P. unfold reached_half. destruct (expected =? 0).
  - apply Nat.ltb_lt. exact P.
  - apply Nat.leb_le. lia.
Qed.

Section FullArrivals.

Import AudioGenerationService WebhookServices.

Variables (bs : list Batch) (ss : list Summary) (ms : list Mix).
Variables (t : Date) (n : nat).
Variable req : WebhookController.SummaryRequest.
Variables (bid : string) (b : Batch).
Hypothesis fresh : lookup bid bs = Some b.
Hypothesis uniq : unique_ids bs.
Hypothesis for_batch : WebhookController.q_batchId req = Some bid.
Hypothesis named : bid <> "".
Hypothesis valid : valid_unit req = true.

Let u := unit_of (mkWorld bs ss ms t n []) req.
Let bt := apply_update t [IncReceived] b.

Let unit_in_batch : s_batchId u = Some bid.
Proof. unfold u, unit_of. cbn. exact for_batch. Qed.

Let bt_id : batchId bt = bid.
Proof. unfold bt. rewrite apply_update_id. exact (lookup_id _ _ _ fresh). Qed.

(** POST /summary up to the three tests of the evaluator. *)
Lemma arrival_evaluates :
  run (WebhookController.handleSummaryWebhook req) (mkWorld bs ss ms t n []) =
  orElse
    (andThen
       (orElse
          (andThen
             (orElse
                (prepend [log_received bid]
                   (run (evaluate bid bt (count_summaries bid true ss))
                        (mkWorld (put bt bs) (ss ++ [u]) ms t (S n) [])))
                (fun e w' => run (checkBatchCompletion_handler bid e) w'))
             (fun _ w' => run (Ret u) w'))
          (fun e w' =>
             run (log Error "Error in handleSummaryWebhook:" "" ;; Throw e) w'))
       (fun a w' =>
          run (Ret (WebhookController.mkResponse 200
                      (WebhookController.SummaryReceived a))) w'))
    (fun e w' =>
       run (log Error "Error in handleSummaryWebhook: ${error}" "" ;;
            Ret (WebhookController.mkResponse 500
                   (WebhookController.Failed "Error in handleSummaryWebhook" e)))
           w').
Proof.
  unfold WebhookController.handleSummaryWebhook, saveSummary.
  create_valid valid.
  rewrite run_try_catch, run_bind, run_try_catch, run_bind.
  rewrite run_await_nf by reflexivity. cbn [perform fst snd]. world_norm.
  rewrite andThen_ok, prepend_nil, for_batch, (truthy_Some bid named).
  rewrite run_bind, run_when_true.
  unfold checkBatchCompletion. rewrite run_try_catch, run_bind.
  rewrite (run_update_hit bs _ ms t (S n) bid AnyStatus _ _ b fresh eq_refl).
  rewrite andThen_ok, prepend_nil. unfold afterIncrement.
  rewrite run_bind, run_log, andThen_ok, run_bind, run_count, andThen_ok,
    prepend_nil.
  assert (Eu : mkSummary n (WebhookController.q_userId req)
                 (WebhookController.q_summary req)
                 (WebhookController.q_summaryType req)
                 (WebhookController.q_summaryTitle req) (Some bid) false None
               = u)
    by (unfold u, unit_of; cbn [nextId]; rewrite for_batch; reflexivity).
  rewrite Eu, (count_audio_snoc bid ss u) by reflexivity. reflexivity.
Qed.

(** The audio-completion check that ends an arrival finds the new unit
    without audio. *)
Lemma arrival_audio_check (c : bool) (bs' : list Batch) (b' : Batch) (t' : Date) :
  unique_ids bs' -> lookup bid bs' = Some b' ->
  run (when c (checkBatchAudioCompletion bid))
      (mkWorld bs' (ss ++ [u]) ms t' (S n) [])
  = mkOutcome (Ok tt) (mkWorld bs' (ss ++ [u]) ms t' (S n) [])
      (if c then [log_audio_progress bid] else []).
Proof.
  intros U L. destruct c; [| reflexivity]. rewrite run_when_true.
  rewrite (run_checkBatchAudioCompletion bs' (ss ++ [u]) ms t' (S n) bid b' U L).
  unfold audio_check_outcome, all_units_have_audio.
  rewrite (count_summaries_snoc bid ss u unit_in_batch).
  rewrite (count_audio_snoc bid ss u) by reflexivity.
  replace (S (count_summaries bid false ss) <=? count_summaries bid true ss)
    with false
    by (symmetry; apply Nat.leb_gt; pose proof (count_split bid ss); lia).
  reflexivity.
Qed.

Let b2 := mark_partial t bt.
Let lacking := summaries_without_audio bid (ss ++ [u]).
Let t' := t + 1000 * (List.length lacking - 1).
Let b3 := apply_update t' [SetStatus audio_requested; StampAudioRequestedAt] b2.

Lemma arrival_full_from_pending :
  status b = pending -> expectedCount b <= receivedCount b + 1 ->
  run (WebhookController.handleSummaryWebhook req) (mkWorld bs ss ms t n []) =
  mkOutcome
    (Ok (WebhookController.mkResponse 200 (WebhookController.SummaryReceived u)))
    (mkWorld (put b3 bs) (ss ++ [u]) ms t' (S n) [])
    ([log_received bid;
      EvLog (mkLog Info "Batch ${batchId} reached 50% completion, triggering partial audio generation" bid);
      EvStatus bid pending partial_complete]
     ++ events (trigger_outcome bid (mkWorld (put b2 bs) (ss ++ [u]) ms t (S n) []))
     ++ [EvStatus bid partial_complete audio_requested;
         EvLog (mkLog Info "Batch ${batchId} fully completed, checking if audio generation is needed" bid);
         EvLog (mkLog Info "Batch ${batchId} was already updated by another process, skipping full completion" bid)]
     ++ (if receivedCount b + 1 <=? count_summaries bid true ss
         then [log_audio_progress bid] else [])).
Proof.
  intros St Full. rewrite arrival_evaluates. unfold evaluate.
  change (receivedCount bt) with (receivedCount b + 1).
  change (expectedCount bt) with (expectedCount b).
  change (status bt) with (status b).
  rewrite St, (reached_half_full _ _ Full) by lia.
  replace (expectedCount b <=? receivedCount b + 1) with true
    by (symmetry; apply Nat.leb_le; exact Full).
  replace (0 <? receivedCount b + 1) with true
    by (symmetry; apply Nat.ltb_lt; lia).
  cbn [andb Status_eqb status_in existsb orb]. rewrite andb_true_r.
  rewrite run_bind, run_when_true.
  unfold handlePartialCompletion. run_norm.
  assert (L1 : lookup bid (put bt bs) = Some bt)
    by (apply (lookup_put_id _ _ bs b fresh bt_id)).
  assert (S1 : status bt = pending) by exact St.
  rewrite (run_update_hit _ _ ms t (S n) bid _ _ _ bt L1)
    by (cbn [cond_holds]; rewrite S1; reflexivity).
  fold (mark_partial t bt). fold b2. run_norm. rewrite put_put by reflexivity.
  rewrite run_triggerAudioGeneration by reflexivity.
  assert (Id2 : batchId b2 = bid).
  { unfold b2, mark_partial. rewrite apply_update_id. exact bt_id. }
  assert (L2 : lookup bid (put b2 bs) = Some b2)
    by (apply (lookup_put_id _ _ bs b fresh Id2)).
  rewrite (trigger_outcome_fresh (put b2 bs) (ss ++ [u]) ms t (S n) bid) at 1
    by (rewrite L2; reflexivity).
  fold lacking. fold t'. run_norm.
  rewrite (run_update_hit _ _ ms t' (S n) bid _ _ _ b2 L2) by reflexivity.
  fold b3. run_norm. rewrite put_put by reflexivity.
  assert (Id3 : batchId b3 = bid).
  { unfold b3. rewrite apply_update_id. exact Id2. }
  assert (L3 : lookup bid (put b3 bs) = Some b3)
    by (apply (lookup_put_id _ _ bs b fresh Id3)).
  assert (U3 : unique_ids (put b3 bs)) by (apply put_unique; exact uniq).
  unfold handleFullCompletion. rewrite S1. cbn [Status_eqb].
  run_norm.
  rewrite (run_update_miss (put b3 bs) _ ms t' (S n) bid (StatusIs pending) _ true
             b3 U3 L3) by reflexivity.
  run_norm.
  rewrite (arrival_audio_check _ (put b3 bs) b3 t' U3 L3). run_norm.
  rewrite ?S1. cbn [sets_status existsb orb].
  change (status b2) with partial_complete.
  change (status b3) with audio_requested.
  cbn [app]. rewrite <- ?app_assoc. cbn [app]. rewrite ?app_nil_r. reflexivity.
Qed.

Let b4 := apply_update t [SetStatus complete; StampCompletedAt] bt.

Lemma arrival_full_from_partial :
  status b = partial_complete -> expectedCount b <= receivedCount b + 1 ->
  run (WebhookController.handleSummaryWebhook req) (mkWorld bs ss ms t n []) =
  mkOutcome
    (Ok (WebhookController.mkResponse 200 (WebhookController.SummaryReceived u)))
    (mkWorld (put b4 bs) (ss ++ [u]) ms t (S n) [])
    ([log_received bid;
      EvLog (mkLog Info "Batch ${batchId} fully completed, checking if audio generation is needed" bid);
      EvStatus bid partial_complete complete;
      EvLog (mkLog Info "Audio already requested for batch ${batchId} at 50% completion, batch now fully complete" bid)]
     ++ (if receivedCount b + 1 <=? count_summaries bid true ss
         then [log_audio_progress bid] else [])).
Proof.
  intros St Full. rewrite arrival_evaluates. unfold evaluate.
  change (receivedCount bt) with (receivedCount b + 1).
  change (expectedCount bt) with (expectedCount b).
  change (status bt) with (status b).
  rewrite St.
  replace (expectedCount b <=? receivedCount b + 1) with true
    by (symmetry; apply Nat.leb_le; exact Full).
  replace (0 <? receivedCount b + 1) with true
    by (symmetry; apply Nat.ltb_lt; lia).
  cbn [andb Status_eqb status_in existsb orb]. rewrite !andb_true_r, andb_false_r.
  rewrite run_bind, run_when_false, andThen_ok, prepend_nil.
  rewrite run_bind, run_when_true.
  assert (L1 : lookup bid (put bt bs) = Some bt)
    by (apply (lookup_put_id _ _ bs b fresh bt_id)).
  assert (S1 : status bt = partial_complete) by exact St.
  unfold handleFullCompletion. rewrite S1. cbn [Status_eqb].
  run_norm.
  rewrite (run_update_hit _ _ ms t (S n) bid _ _ _ bt L1)
    by (cbn [cond_holds]; rewrite S1; reflexivity).
  fold b4. run_norm. rewrite put_put by reflexivity.
  assert (Id4 : batchId b4 = bid).
  { unfold b4. rewrite apply_update_id. exact bt_id. }
  assert (L4 : lookup bid (put b4 bs) = Some b4)
    by (apply (lookup_put_id _ _ bs b fresh Id4)).
  assert (U4 : unique_ids (put b4 bs)) by (apply put_unique; exact uniq).
  rewrite (arrival_audio_check _ (put b4 bs) b4 t U4 L4). run_norm.
  rewrite ?S1. cbn [sets_status existsb orb].
  change (status b4) with complete.
  cbn [app]. rewrite ?app_nil_r. reflexivity.
Qed.

End FullArrivals.

(** The arrival (of a unit that passes the validators of the schema)
    that brings a pending batch to its expected count takes the 50% path: the batch goes from pending to partial_complete, one
    dispatch runs over the units lacking audio and the batch is left
    audio_requested.  The full-completion handler then finds the batch
    already taken: it neither writes complete (completedAt stays unset)
    nor dispatches again. *)
Theorem arrival_that_fills_a_pending_batch
  (w : World) (req : WebhookController.SummaryRequest) (bid : string)
  (b : Batch) :
  faults w = [] -> unique_ids (batches w) ->
  valid_unit req = true ->
  WebhookController.q_batchId req = Some bid -> bid <> "" ->
  lookup bid (batches w) = Some b ->
  status b = pending -> expectedCount b <= receivedCount b + 1 ->
  let o := run (WebhookController.handleSummaryWebhook req) w in
  result o = Ok (WebhookController.mkResponse 200
                   (WebhookController.SummaryReceived (unit_of w req))) /\
  (exists b',
     lookup bid (batches (world o)) = Some b' /\
     status b' = audio_requested /\
     receivedCount b' = receivedCount b + 1 /\
     completedAt b' = completedAt b) /\
  status_writes (events o)
  = [(bid, pending, partial_complete); (bid, partial_complete, audio_requested)] /\
  dispatch_passes (events o) = 1 /\
  map r_summaryId (posts (events o))
  = map s_id (summaries_without_audio bid (summaries w ++ [unit_of w req])).
Proof.
  intros F U V Q Hb L St Full o. subst o.
  destruct w as [bs ss ms t n fs]. cbn [faults] in F. subst fs.
  cbn [batches summaries] in *.
  rewrite (arrival_full_from_pending bs ss ms t n req bid b L U Q Hb V St Full).
  cbn [result world events batches].
  set (u := unit_of (mkWorld bs ss ms t n []) req).
  set (bt := apply_update t [IncReceived] b).
  set (b2 := mark_partial t bt).
  assert (Id2 : batchId b2 = bid).
  { unfold b2, mark_partial, bt. rewrite !apply_update_id.
    exact (lookup_id _ _ _ L). }
  assert (L2 : lookup bid (put b2 bs) = Some b2)
    by (apply (lookup_put_id _ _ bs b L Id2)).
  assert (NP :
            AudioGenerationService.audio_already_processed
              (lookup bid (batches (mkWorld (put b2 bs) (ss ++ [u]) ms t (S n) [])))
            = false).
  { cbn [batches]. rewrite L2. reflexivity. }
  split; [reflexivity |].
  split.
  { eexists. split.
    - apply (lookup_put_id _ _ bs b L). rewrite apply_update_id. exact Id2.
    - split; [reflexivity |]. split; [cbn; lia | reflexivity]. }
  split.
  { rewrite !status_writes_app, status_writes_trigger.
    destruct (receivedCount b + 1 <=? count_summaries bid true ss); reflexivity. }
  split.
  { rewrite !dispatch_passes_app, dispatch_passes_trigger.
    destruct (receivedCount b + 1 <=? count_summaries bid true ss); reflexivity. }
  assert (P : forall tail,
            posts tail = [] ->
            map r_summaryId
              (posts ([log_received bid;
                       EvLog (mkLog Info "Batch ${batchId} reached 50% completion, triggering partial audio generation" bid);
                       EvStatus bid pending partial_complete]
                      ++ events (trigger_outcome bid
                                   (mkWorld (put b2 bs) (ss ++ [u]) ms t (S n) []))
                      ++ tail))
            = map s_id (summaries_without_audio bid (ss ++ [u]))).
  { intros tail Ht. rewrite !posts_app, Ht, app_nil_r.
    cbn [posts flat_map app log_received]. apply (posts_trigger _ _ NP). }
  apply P.
  destruct (receivedCount b + 1 <=? count_summaries bid true ss); reflexivity.
Qed.

Lemma arrival_fills_pending_example :
  exists b',
    lookup "b1" (batches (arrive "u1" (demo_world pending 0 1 [] 5))) = Some b' /\
    status b' = audio_requested /\ completedAt b' = None.
Proof.
  assert (N : "b1" <> "") by discriminate.
  assert (Full : expectedCount (demo_batch pending 0 1)
                 <= receivedCount (demo_batch pending 0 1) + 1)
    by (simpl; lia).
  destruct (arrival_that_fills_a_pending_batch (demo_world pending 0 1 [] 5)
              (demo_request "u1") "b1" (demo_batch pending 0 1)
              eq_refl (demo_unique _ _ _ _ _) eq_refl eq_refl N eq_refl eq_refl Full)
    as (_ & (b' & L & S & _ & C) & _).
  exists b'. split; [exact L |]. split; [exact S | exact C].
Defined.

(** The arrival (of a unit that passes the validators of the schema)
    that brings a batch resting in partial_complete to its expected count
    marks it complete and stamps completedAt; it runs no
    dispatch and sends nothing, whether or not units of the batch still
    lack audio. *)
Theorem arrival_that_fills_a_partial_batch
  (w : World) (req : WebhookController.SummaryRequest) (bid : string)
  (b : Batch) :
  faults w = [] -> unique_ids (batches w) ->
  valid_unit req = true ->
  WebhookController.q_batchId req = Some bid -> bid <> "" ->
  lookup bid (batches w) = Some b ->
  status b = partial_complete -> expectedCount b <= receivedCount b + 1 ->
  let o := run (WebhookController.handleSummaryWebhook req) w in
  result o = Ok (WebhookController.mkResponse 200
                   (WebhookController.SummaryReceived (unit_of w req))) /\
  (exists b',
     lookup bid (batches (world o)) = Some b' /\
     status b' = complete /\
     receivedCount b' = receivedCount b + 1 /\
     completedAt b' = Some (clock w)) /\
  status_writes (events o) = [(bid, partial_complete, complete)] /\
  dispatch_passes (events o) = 0 /\
  posts (events o) = [].
Proof.
  intros F U V Q Hb L St Full o. subst o.
  destruct w as [bs ss ms t n fs]. cbn [faults] in F. subst fs.
  cbn [batches summaries clock] in *.
  rewrite (arrival_full_from_partial bs ss ms t n req bid b L U Q Hb V St Full).
  cbn [result world events batches].
  split; [reflexivity |].
  split.
  { eexists. split.
    - apply (lookup_put_id _ _ bs b L). rewrite !apply_update_id.
      exact (lookup_id _ _ _ L).
    - split; [reflexivity |]. split; [cbn; lia | reflexivity]. }
  destruct (receivedCount b + 1 <=? count_summaries bid true ss);
    repeat split; reflexivity.
Qed.

Lemma arrival_fills_partial_example :
  exists b',
    lookup "b1"
      (batches (arrive "u2"
                  (demo_world partial_complete 1 2 [demo_unit 1 "u1" false] 5)))
    = Some b' /\ status b' = complete.
Proof.
  assert (N : "b1" <> "") by discriminate.
  assert (Full : expectedCount (demo_batch partial_complete 1 2)
                 <= receivedCount (demo_batch partial_complete 1 2) + 1)
    by (simpl; lia).
  destruct (arrival_that_fills_a_partial_batch
              (demo_world partial_complete 1 2 [demo_unit 1 "u1" false] 5)
              (demo_request "u2") "b1" (demo_batch partial_complete 1 2)
              eq_refl (demo_unique _ _ _ _ _) eq_refl eq_refl N eq_refl eq_refl Full)
    as (_ & (b' & L & S & _) & _).
  exists b'. split; [exact L | exact S].
Defined.

(** ** The maintenance task writes trackers only *)

Lemma perform_mixes_kept (ids : string -> Prop) (counts : bool)
  {X} (op : Op X) (w : World) :
  issues ids counts false X op ->
  mixes (snd (fst (perform op w))) = mixes w.
Proof. intro H. apply (perform_summaries ids counts op w H). Qed.

(** Whichever database calls fail, a run of the maintenance task returns
    normally and creates, changes or deletes no unit and no mix. *)
Theorem maintenance_leaves_units_and_mixes (w : World) :
  result (run BatchTimeoutService.runPeriodicMaintenance w) = Ok tt /\
  summaries (world (run BatchTimeoutService.runPeriodicMaintenance w))
  = summaries w /\
  mixes (world (run BatchTimeoutService.runPeriodicMaintenance w)) = mixes w.
Proof.
  split; [apply try_log_never_throws |]. split.
  - apply (run_summaries any_id true _ _ (acts_runPeriodicMaintenance false)).
  - apply (run_preserves (issues any_id true false)
             (fun w' => mixes w' = mixes w));
      [| apply acts_runPeriodicMaintenance | reflexivity].
    intros X op w0 Hop E. apply exec_keeps; auto.
    intros w1 E1. rewrite <- E1. apply (perform_mixes_kept any_id true op w1 Hop).
Qed.

(** ** Batches the sweeps leave alone *)

Section SweepsSkip.

Import BatchTimeoutService.

Lemma checkOrphaned_without_units (w : World) (b : Batch) :
  faults w = [] ->
  count_summaries (batchId b) false (summaries w) = 0 ->
  run (checkOrphaned b) w = mkOutcome (Ok tt) w [].
Proof.
  destruct w as [bs ss ms t n fs]. cbn [faults summaries]. intros -> Z.
  unfold checkOrphaned. run_norm. rewrite run_count. run_norm. rewrite Z.
  reflexivity.
Qed.

(** A batch outside the recovery pass. *)
Lemma recovery_pass_leaves (w : World) (b : Batch) :
  faults w = [] -> unique_ids (batches w) ->
  In b (batches w) ->
  status b <> failed \/ receivedCount b <> 0 \/
  count_summaries (batchId b) false (summaries w) = 0 ->
  let o := run processOrphanedSummaries w in
  lookup (batchId b) (batches (world o)) = Some b /\
  writes_of (batchId b) (events o) = [] /\
  posts_of (batchId b) (events o) = [].
Proof.
  intros F U Hin E o. subst o.
  pose proof (In_lookup _ _ U Hin) as L.
  set (l := filter (query_match (clock w) QFailedEmpty) (batches w)).
  assert (A : all_acts (issues (fun i => In i (map batchId l)) true false)
                (forEach l checkOrphaned)).
  { apply forEach_footprint. intro x. apply acts_checkOrphaned. reflexivity. }
  assert (R : result (run (forEach l checkOrphaned) w) = Ok tt)
    by (apply forEach_result; [apply checkOrphaned_total | exact F]).
  unfold processOrphanedSummaries.
  run_norm. rewrite run_await_nf by exact F. cbn [perform fst snd]. run_norm.
  fold l.
  destruct (query_match (clock w) QFailedEmpty b) eqn:Q.
  - (* in the query: a failed batch without units *)
    assert (Z : count_summaries (batchId b) false (summaries w) = 0).
    { cbn [query_match] in Q. apply andb_prop in Q as [Q1 Q2].
      apply Status_eqb_eq in Q1. apply Nat.eqb_eq in Q2.
      destruct E as [E | [E | E]]; [contradiction | contradiction | exact E]. }
    assert (Hl : In b l) by (apply filter_In; split; assumption).
    destruct (forEach_isolated checkOrphaned
                (fun x => acts_checkOrphaned _ false x eq_refl)
                checkOrphaned_total l w b F U
                (unique_ids_filter _ _ U) Hl)
      as (w1 & ev1 & ev2 & F1 & U1 & S1 & L1 & L2 & S2 & Ev & A1 & A2 & A3 & A4).
    rewrite <- S1 in Z.
    rewrite (checkOrphaned_without_units w1 b F1 Z) in L2, Ev.
    cbn [world events] in L2, Ev.
    destruct (run (forEach l checkOrphaned) w) as [r wf evf] eqn:Ef.
    cbn [result world events] in *. subst r. run_norm. cbn [world events].
    split; [congruence |].
    rewrite Ev. trace_norm. rewrite A1, A2, A3, A4. split; reflexivity.
  - (* outside the query *)
    assert (Hout : ~ In (batchId b) (map batchId l)).
    { intro H. apply in_map_iff in H as (x & Ex & Hx).
      apply filter_In in Hx as [Hx Qx].
      pose proof (In_lookup _ _ U Hx) as Lx. rewrite Ex, L in Lx.
      injection Lx as <-. congruence. }
    destruct (event_within_outside _ (batchId b) _
                (run_events_within _ true false _ w A) Hout) as [W P].
    pose proof (run_lookup_other _ true false _ w _ A Hout) as Lo.
    destruct (run (forEach l checkOrphaned) w) as [r wf evf] eqn:Ef.
    cbn [result world events] in *. subst r. run_norm. cbn [world events].
    split; [congruence |].
    trace_norm. rewrite W, P. split; reflexivity.
Qed.

(** The recovery pass only touches failed batches with receivedCount 0
    for which units are persisted: a batch in another status, a failed
    batch that had received something, and a failed batch without any
    unit all keep their tracker as it is, and nothing is sent for them. *)
Theorem recovery_pass_skips_other_batches (w : World) (b : Batch) :
  faults w = [] -> unique_ids (batches w) ->
  In b (batches w) ->
  status b <> failed \/ receivedCount b <> 0 \/
  count_summaries (batchId b) false (summaries w) = 0 ->
  let o := run processOrphanedSummaries w in
  lookup (batchId b) (batches (world o)) = Some b /\
  writes_of (batchId b) (events o) = [] /\
  posts_of (batchId b) (events o) = [].
Proof. exact (recovery_pass_leaves w b). Qed.

Lemma recovery_pass_skip_example :
  lookup "b1"
    (batches (world (run processOrphanedSummaries (demo_world failed 0 4 [] 200))))
  = Some (demo_batch failed 0 4).
Proof.
  assert (E : status (demo_batch failed 0 4) <> failed \/
              receivedCount (demo_batch failed 0 4) <> 0 \/
              count_summaries (batchId (demo_batch failed 0 4)) false
                (summaries (demo_world failed 0 4 [] 200)) = 0)
    by (right; right; reflexivity).
  apply (recovery_pass_skips_other_batches (demo_world failed 0 4 [] 200)
           (demo_batch failed 0 4) eq_refl (demo_unique _ _ _ _ _)
           (or_introl eq_refl) E).
Defined.

(** A batch outside the timeout pass. *)
Lemma timeout_pass_leaves (w : World) (b : Batch) :
  faults w = [] -> unique_ids (batches w) ->
  In b (batches w) ->
  clock w < timeoutAt b \/ status_in (status b) [pending; partial_complete] = false ->
  let o := run processTimeoutBatches w in
  lookup (batchId b) (batches (world o)) = Some b /\
  writes_of (batchId b) (events o) = [] /\
  posts_of (batchId b) (events o) = [].
Proof.
  intros F U Hin E o. subst o.
  pose proof (In_lookup _ _ U Hin) as L.
  set (l := filter (query_match (clock w) QTimedOut) (batches w)).
  assert (A : all_acts (issues (fun i => In i (map batchId l)) true false)
                (forEach l handleTimeoutBatch)).
  { apply forEach_footprint. intro x. apply acts_handleTimeoutBatch. reflexivity. }
  assert (R : result (run (forEach l handleTimeoutBatch) w) = Ok tt)
    by (apply forEach_result; [apply handleTimeoutBatch_total | exact F]).
  assert (Hout : ~ In (batchId b) (map batchId l)).
  { intro H. apply in_map_iff in H as (x & Ex & Hx).
    apply filter_In in Hx as [Hx Qx].
    pose proof (In_lookup _ _ U Hx) as Lx. rewrite Ex, L in Lx.
    injection Lx as <-. cbn [query_match] in Qx.
    apply andb_prop in Qx as [Q1 Q2]. apply Nat.leb_le in Q1.
    destruct E as [E | E]; [lia | congruence]. }
  unfold processTimeoutBatches.
  run_norm. rewrite run_await_nf by exact F. cbn [perform fst snd]. run_norm.
  fold l.
  destruct (event_within_outside _ (batchId b) _
              (run_events_within _ true false _ w A) Hout) as [W P].
  pose proof (run_lookup_other _ true false _ w _ A Hout) as Lo.
  destruct (run (forEach l handleTimeoutBatch) w) as [r wf evf] eqn:Ef.
  cbn [result world events] in *. subst r. run_norm. cbn [world events].
  split; [congruence |].
  trace_norm. rewrite W, P. split; reflexivity.
Qed.

(** The timeout pass only touches batches whose timeoutAt has passed and
    that are pending or partial_complete: every other tracker is as
    before, and nothing is sent for it. *)
Theorem timeout_pass_skips_other_batches (w : World) (b : Batch) :
  faults w = [] -> unique_ids (batches w) ->
  In b (batches w) ->
  clock w < timeoutAt b \/ status_in (status b) [pending; partial_complete] = false ->
  let o := run processTimeoutBatches w in
  lookup (batchId b) (batches (world o)) = Some b /\
  writes_of (batchId b) (events o) = [] /\
  posts_of (batchId b) (events o) = [].
Proof. exact (timeout_pass_leaves w b). Qed.

Lemma timeout_pass_skip_example :
  lookup "b1"
    (batches (world (run processTimeoutBatches
                       (demo_world pending 1 4 [demo_unit 1 "u1" false] 50))))
  = Some (demo_batch pending 1 4).
Proof.
  assert (E : clock (demo_world pending 1 4 [demo_unit 1 "u1" false] 50)
              < timeoutAt (demo_batch pending 1 4) \/
              status_in (status (demo_batch pending 1 4))
                [pending; partial_complete] = false)
    by (left; simpl; lia).
  apply (timeout_pass_skips_other_batches
           (demo_world pending 1 4 [demo_unit 1 "u1" false] 50)
           (demo_batch pending 1 4) eq_refl (demo_unique _ _ _ _ _)
           (or_introl eq_refl) E).
Defined.

End SweepsSkip.

(** ** Concurrent arrivals are all counted *)

Section ConcurrentIncrements.

Variable bid : string.
Variables (received : nat).

(** What holds of a pool of evaluators of batch [bid], [started] telling
    which of them have made their increment. *)
Record CountInv (started : list bool) (pl : Pool) : Prop := {
  ci_threads :
    Forall2 (fun (s : bool) p =>
               if s then all_acts (issues any_id false true) p
               else p = WebhookServices.checkBatchCompletion bid)
      started (pool_threads pl);
  ci_nofaults : faults (pool_world pl) = [];
  ci_count :
    exists b, lookup bid (batches (pool_world pl)) = Some b /\
              receivedCount b = received + count_if (fun s => s) started
}.

Lemma evaluator_counts_no_more (snap : Batch) :
  all_acts (issues any_id false true) (evaluator_after_increment bid snap).
Proof.
  unfold evaluator_after_increment, WebhookServices.checkBatchCompletion_handler.
  apply all_acts_try_catch.
  - apply acts_afterIncrement. exact I.
  - intro e. apply all_acts_await. exact I.
Qed.

Lemma count_step (started : list bool) (pl : Pool) (i : nat) :
  CountInv started pl ->
  exists started', CountInv started' (fst (pool_step i pl)).
Proof.
  intros [Ht Hf (b & L & Hc)]. unfold pool_step.
  destruct (nth_error (pool_threads pl) i) as [p |] eqn:Ep;
    [| exists started; cbn [fst]; constructor; eauto].
  destruct (Forall2_nth_error _ i p _ _ Ht Ep) as (s & Es & Hs).
  destruct s.
  - (* an evaluator past its increment *)
    destruct p as [a | e | X op k].
    + exists started. cbn [step_thread fst].
      rewrite (replace_nth_same i _ _ Ep), pool_eta. constructor; eauto.
    + exists started. cbn [step_thread fst].
      rewrite (replace_nth_same i _ _ Ep), pool_eta. constructor; eauto.
    + destruct Hs as [Hop Hk].
      cbn [step_thread]. rewrite (exec_nofaults op _ Hf). cbn [fst].
      exists (replace_nth i true started). constructor; cbn [pool_world pool_threads].
      * apply Forall2_replace_nth; [exact Ht | apply Hk].
      * rewrite perform_faults. exact Hf.
      * destruct (perform_counts_kept any_id true bid b op (pool_world pl) Hop)
          as (b' & L' & _ & R' & _).
        { exists b. split; [exact L | apply same_counts_refl]. }
        exists b'. split; [exact L' |].
        pose proof (count_if_replace_nth (fun s : bool => s) i true true started Es).
        cbn in H. lia.
  - (* an evaluator about to increment *)
    subst p.
    destruct (checkBatchCompletion_reaches_evaluator bid (pool_world pl) b Hf L)
      as (w' & snap & E & R & _ & _ & L' & F').
    rewrite E. cbn [fst].
    exists (replace_nth i true started). constructor; cbn [pool_world pool_threads].
    + apply Forall2_replace_nth; [exact Ht | apply evaluator_counts_no_more].
    + exact F'.
    + exists snap. split; [exact L' |].
      pose proof (count_if_replace_nth (fun s : bool => s) i true false started Es).
      cbn in H. lia.
Qed.

Lemma count_run (sched : list nat) :
  forall (started : list bool) (pl : Pool),
  CountInv started pl ->
  exists started', CountInv started' (fst (pool_run sched pl)).
Proof.
  induction sched as [| i rest IH]; intros started pl Inv; [eauto |].
  destruct (count_step started pl i Inv) as (s1 & Inv1).
  cbn [pool_run]. destruct (pool_step i pl) as [pl1 tr1]. cbn [fst] in Inv1.
  destruct (IH s1 pl1 Inv1) as (s2 & Inv2).
  destruct (pool_run rest pl1) as [pl2 tr2]. cbn [fst] in *. eauto.
Qed.

End ConcurrentIncrements.

Lemma count_if_bound {A} (f : A -> bool) (l : list A) :
  count_if f l <= List.length l.
Proof. unfold count_if. apply filter_length_le. Qed.

Lemma count_if_all {A} (f : A -> bool) (l : list A) :
  Forall (fun x => f x = true) l -> count_if f l = List.length l.
Proof.
  unfold count_if. induction 1 as [| x l Hx _ IH]; [reflexivity |].
  cbn [filter]. rewrite Hx. cbn [List.length]. rewrite IH. reflexivity.
Qed.

(** No increment is lost: when [n] evaluators of the same batch run
    concurrently and no call fails, under every interleaving the batch's
    receivedCount never falls below its initial value nor grows by more
    than [n], and it has grown by exactly [n] once all of them have
    returned. *)
Theorem concurrent_arrivals_are_all_counted
  (w : World) (bid : string) (b : Batch) (n : nat) (sched : list nat) :
  faults w = [] -> lookup bid (batches w) = Some b ->
  exists b',
    lookup bid
      (batches (pool_world
         (fst (pool_run sched
                 (mkPool w (repeat (WebhookServices.checkBatchCompletion bid) n))))))
    = Some b' /\
    receivedCount b <= receivedCount b' <= receivedCount b + n /\
    (Forall finished
       (pool_threads
          (fst (pool_run sched
                  (mkPool w (repeat (WebhookServices.checkBatchCompletion bid) n))))) ->
     receivedCount b' = receivedCount b + n).
Proof.
  intros F L.
  assert (Inv0 : CountInv bid (receivedCount b) (repeat false n)
                   (mkPool w (repeat (WebhookServices.checkBatchCompletion bid) n))).
  { constructor; cbn [pool_world pool_threads].
    - induction n as [| n IH]; cbn [repeat]; constructor; auto.
    - exact F.
    - exists b. split; [exact L |].
      rewrite count_if_zero; [lia |].
      apply Forall_forall. intros x Hx. apply repeat_spec in Hx. exact Hx. }
  destruct (count_run bid (receivedCount b) sched _ _ Inv0)
    as (started & [Ht Hf (b' & L' & Hc)]).
  set (pl := fst (pool_run sched
                    (mkPool w (repeat (WebhookServices.checkBatchCompletion bid) n))))
    in *.
  assert (Len : List.length started = n).
  { rewrite (Forall2_length Ht). unfold pl.
    rewrite pool_run_length. cbn [pool_threads]. apply repeat_length. }
  exists b'. split; [exact L' |]. split.
  - pose proof (count_if_bound (fun s : bool => s) started). lia.
  - intro Fin. rewrite Hc, count_if_all, Len; [reflexivity |].
    clear - Ht Fin. induction Ht as [| s p ss ps Hs _ IH]; [constructor |].
    inversion Fin as [| ? ? Fp Fps]; subst.
    constructor; [| apply IH; exact Fps].
    destruct s; [reflexivity |]. subst p. contradiction.
Qed.

(** Two evaluators interleaved call by call until both have returned. *)
Lemma concurrent_arrivals_example :
  exists b',
    lookup "b1"
      (batches (pool_world
         (fst (pool_run [1; 0; 1; 0; 1; 0]
                 (mkPool (demo_world audio_complete 0 8 [] 5)
                    (repeat (WebhookServices.checkBatchCompletion "b1") 2))))))
    = Some b' /\
    receivedCount b' = 2.
Proof.
  destruct (concurrent_arrivals_are_all_counted
              (demo_world audio_complete 0 8 [] 5) "b1"
              (demo_batch audio_complete 0 8) 2 [1; 0; 1; 0; 1; 0]
              eq_refl eq_refl)
    as (b' & L & _ & Fin).
  exists b'. split; [exact L |].
  apply Fin. vm_compute. repeat constructor.
Defined.

(** ** A batch that rests in partial_complete *)

Section StrandedBatch.

Import BatchTimeoutService.

Lemma partial_sweep_silent (w : World) (b : Batch) :
  faults w = [] -> unique_ids (batches w) ->
  In b (batches w) -> status b <> pending ->
  lookup (batchId b) (batches (world (run checkPartialCompletionBatches w)))
  = Some b /\
  posts_of (batchId b) (events (run checkPartialCompletionBatches w)) = [].
Proof.
  intros F U Hin E.
  pose proof (In_lookup _ _ U Hin) as L.
  set (l := filter (query_match (clock w) QPendingStarted) (batches w)).
  assert (A : all_acts (issues (fun i => In i (map batchId l)) true false)
                (forEach l checkPartial)).
  { apply forEach_footprint. intro x. apply acts_checkPartial. reflexivity. }
  assert (R : result (run (forEach l checkPartial) w) = Ok tt)
    by (apply forEach_result; [apply checkPartial_total | exact F]).
  assert (Hout : ~ In (batchId b) (map batchId l)).
  { intro H. apply in_map_iff in H as (x & Ex & Hx).
    apply filter_In in Hx as [Hx Qx].
    pose proof (In_lookup _ _ U Hx) as Lx. rewrite Ex, L in Lx.
    injection Lx as <-. cbn [query_match] in Qx.
    apply andb_prop in Qx as [Q1 _]. apply Status_eqb_eq in Q1. contradiction. }
  unfold checkPartialCompletionBatches.
  run_norm. rewrite run_await_nf by exact F. cbn [perform fst snd]. run_norm.
  fold l.
  destruct (event_within_outside _ (batchId b) _
              (run_events_within _ true false _ w A) Hout) as [_ P].
  pose proof (run_lookup_other _ true false _ w _ A Hout) as Lo.
  destruct (run (forEach l checkPartial) w) as [r wf evf] eqn:Ef.
  cbn [result world events] in *. subst r. run_norm. cbn [world events].
  split; [congruence |].
  trace_norm. exact P.
Qed.

Definition rests (s : Status) : Prop :=
  s = partial_complete \/ s = complete \/ s = failed.

(** What the timeout pass does to a batch in partial_complete. *)
Lemma timeout_pass_on_partial (w : World) (b : Batch) :
  faults w = [] -> unique_ids (batches w) ->
  In b (batches w) -> status b = partial_complete ->
  exists b1,
    lookup (batchId b) (batches (world (run processTimeoutBatches w))) = Some b1 /\
    rests (status b1) /\
    (status b1 = failed ->
       count_summaries (batchId b) false
         (summaries (world (run processTimeoutBatches w))) = 0) /\
    posts_of (batchId b) (events (run processTimeoutBatches w)) = [].
Proof.
  intros F U Hin St.
  destruct (Nat.le_gt_cases (timeoutAt b) (clock w)) as [T | T].
  - destruct (timeout_pass_spec w b F U Hin T) as (b1 & L1 & S1 & V).
    { rewrite St. reflexivity. }
    destruct V as (_ & V0 & _ & _ & Vp).
    exists b1. split; [exact L1 |].
    destruct (Nat.eq_dec (count_summaries (batchId b) false (summaries w)) 0)
      as [Z | NZ].
    + destruct (V0 Z) as (Sf & _ & P).
      split; [right; right; exact Sf |]. split; [| exact P].
      intros _. rewrite S1. exact Z.
    + destruct (Vp ltac:(lia) St) as (Sc & _ & P).
      split; [right; left; exact Sc |]. split; [| exact P].
      intro Sf. congruence.
  - destruct (timeout_pass_leaves w b F U Hin (or_introl T))
      as (L1 & _ & P).
    exists b. split; [exact L1 |]. split; [left; exact St |].
    split; [intro Sf; congruence | exact P].
Qed.

(** A maintenance run never dispatches a batch that it finds in
    partial_complete: the timeout pass at most marks it complete (or
    failed, when no unit is persisted), the recovery pass and the
    partial-completion sweep pass it by, and no request is sent for it,
    even when units of the batch lack audio. *)
Theorem maintenance_never_dispatches_a_partial_batch (w : World) (b : Batch) :
  faults w = [] -> unique_ids (batches w) ->
  In b (batches w) -> status b = partial_complete ->
  posts_of (batchId b) (events (run runPeriodicMaintenance w)) = [] /\
  exists b',
    lookup (batchId b) (batches (world (run runPeriodicMaintenance w))) = Some b' /\
    (status b' = partial_complete \/ status b' = complete \/ status b' = failed).
Proof.
  intros F U Hin St.
  (* the timeout pass *)
  destruct (timeout_pass_on_partial w b F U Hin St) as (b1 & L1 & R1 & Z1 & P1).
  assert (T1 : result (run processTimeoutBatches w) = Ok tt)
    by apply try_log_never_throws.
  pose proof (run_nofaults processTimeoutBatches w F) as F1.
  pose proof (run_unique processTimeoutBatches w U) as U1.
  destruct (run processTimeoutBatches w) as [r1 w1 e1] eqn:E1.
  cbn [result world events] in *. subst r1.
  assert (Id1 : batchId b1 = batchId b) by exact (lookup_id _ _ _ L1).
  assert (In1 : In b1 (batches w1)) by exact (lookup_In _ _ _ L1).
  (* the recovery pass *)
  assert (Sk : status b1 <> failed \/ receivedCount b1 <> 0 \/
               count_summaries (batchId b1) false (summaries w1) = 0).
  { destruct (Status_eqb (status b1) failed) eqn:E.
    - apply Status_eqb_eq in E. right. right. rewrite Id1. exact (Z1 E).
    - left. intro E'. rewrite E' in E. discriminate. }
  destruct (recovery_pass_leaves w1 b1 F1 U1 In1 Sk)
    as (L2 & _ & P2).
  assert (T2 : result (run processOrphanedSummaries w1) = Ok tt)
    by apply try_log_never_throws.
  pose proof (run_nofaults processOrphanedSummaries w1 F1) as F2.
  pose proof (run_unique processOrphanedSummaries w1 U1) as U2.
  destruct (run processOrphanedSummaries w1) as [r2 w2 e2] eqn:E2.
  cbn [result world events] in *. subst r2.
  assert (In2 : In b1 (batches w2)) by exact (lookup_In _ _ _ L2).
  (* the partial-completion sweep *)
  assert (NP : status b1 <> pending).
  { destruct R1 as [E | [E | E]]; rewrite E; discriminate. }
  destruct (partial_sweep_silent w2 b1 F2 U2 In2 NP) as (L3 & P3).
  assert (T3 : result (run checkPartialCompletionBatches w2) = Ok tt)
    by apply try_log_never_throws.
  pose proof (run_nofaults checkPartialCompletionBatches w2 F2) as F3.
  destruct (run checkPartialCompletionBatches w2) as [r3 w3 e3] eqn:E3.
  cbn [result world events] in *. subst r3.
  (* the whole task *)
  assert (E : run runPeriodicMaintenance w
              = mkOutcome (Ok tt) w3
                  ([EvLog (mkLog Info "Starting batch timeout maintenance task" "")]
                   ++ e1 ++ e2 ++ e3
                   ++ [EvLog (mkLog Info "Batch statistics:" "");
                       EvLog (mkLog Info "Completed batch timeout maintenance task" "")])).
  { unfold runPeriodicMaintenance, getBatchStatistics. run_norm.
    rewrite E1. run_norm. rewrite E2. run_norm. rewrite E3. run_norm.
    rewrite run_await_nf by exact F3. cbn [perform fst snd]. run_norm.
    rewrite ?app_nil_r. reflexivity. }
  rewrite E. cbn [world events].
  split.
  - rewrite Id1 in *. trace_norm. rewrite P1, P2, P3. reflexivity.
  - exists b1. rewrite Id1 in *. split; [exact L3 | exact R1].
Qed.

Lemma maintenance_partial_example :
  let w := demo_world partial_complete 2 4
             [demo_unit 1 "u1" false; demo_unit 2 "u2" false] 200 in
  posts_of "b1" (events (run runPeriodicMaintenance w)) = [] /\
  exists b',
    lookup "b1" (batches (world (run runPeriodicMaintenance w))) = Some b' /\
    (status b' = partial_complete \/ status b' = complete \/ status b' = failed).
Proof.
  exact (maintenance_never_dispatches_a_partial_batch
           (demo_world partial_complete 2 4
              [demo_unit 1 "u1" false; demo_unit 2 "u2" false] 200)
           (demo_batch partial_complete 2 4)
           eq_refl (demo_unique _ _ _ _ _) (or_introl eq_refl) eq_refl).
Defined.

End StrandedBatch.
